(** * sample-parser: lexer, parser and formatter of [sample-parser.py]

    A shallow embedding of the tokenizer ([tokens], [token_pattern],
    [tokenize]), of the recursive-descent parser ([get] ... [parse]) and of
    the formatter ([style], [froot]), followed by the properties of the
    specification that were checked against them.

    Text is modelled as [string], that is as code points below 256; on that
    range Python's [\s] and [\d] and [str.splitlines] are as written below.
    Python exceptions are values of [exn]; a function that can raise returns
    a [result]. *)

From Stdlib Require Import String Ascii List ZArith Lia Bool Arith.
From Stdlib Require Import DecimalString Decimal DecimalZ.
Import ListNotations.

Open Scope string_scope.
Open Scope Z_scope.

(** ** Strings *)

Definition dquote : ascii := "034"%char.
Definition backslash : ascii := "092"%char.
Definition nl : ascii := "010"%char.
Definition ESC : ascii := "027"%char.

Definition chr (c : ascii) : string := String c "".

Fixpoint drop (n : nat) (s : string) : string :=
  match n, s with
  | O, _ => s
  | S n', String _ s' => drop n' s'
  | S _, EmptyString => EmptyString
  end.

Fixpoint take (n : nat) (s : string) : string :=
  match n, s with
  | S n', String c s' => String c (take n' s')
  | _, _ => EmptyString
  end.

Definition len (s : string) : nat := String.length s.

Fixpoint In_str (c : ascii) (s : string) : Prop :=
  match s with
  | EmptyString => False
  | String d s' => d = c \/ In_str c s'
  end.

(** ["sep".join(parts)] *)
Fixpoint join (sep : string) (parts : list string) : string :=
  match parts with
  | [] => ""
  | [p] => p
  | p :: rest => p ++ sep ++ join sep rest
  end.

(** ** Exceptions and results *)

Record TokenInfo := mkToken {
  type : string;
  variant : string;
  string_ : string;
  start : Z;
  end_ : Z;
  line : Z
}.

Inductive exn :=
| AssertionError
| TokenError (token : TokenInfo)
| NotImplementedError (variant : string)
| AttributeError
| TypeError (msg : string)
| IndexError
| UnboundLocalError.

(** [Fuel] is not a Python outcome: it marks a run of the model that was cut
    short by its recursion bound.  [parse] never ends with it (see
    [parser_total] below); the recursion limit of the Python interpreter is
    not modelled. *)
Inductive result (A : Type) :=
| Ok (a : A)
| Raise (e : exn)
| Fuel.
Arguments Ok {A} a.
Arguments Raise {A} e.
Arguments Fuel {A}.

Definition bind {A B} (r : result A) (k : A -> result B) : result B :=
  match r with
  | Ok a => k a
  | Raise e => Raise e
  | Fuel => Fuel
  end.

Notation "' p <- r ;; k" := (bind r (fun p => k))
  (at level 61, p pattern, r at next level, right associativity).
Notation "x <- r ;; k" := (bind r (fun x => k))
  (at level 61, r at next level, right associativity).

(** ** Token rule table *)

(** The regular expressions of the table, with the backtracking semantics of
    Python's [re]: alternatives are tried left to right, repetition is
    greedy. *)
Inductive regex :=
| Str (s : string)            (* re.escape(s): the literal text *)
| Class (p : ascii -> bool)   (* one character of a class *)
| Cat (r1 r2 : regex)
| Or (r1 r2 : regex)
| Star (r : regex)
| Opt (r : regex).

Definition Plus (r : regex) : regex := Cat r (Star r).

Fixpoint lit_match (l s : string) : option string :=
  match l, s with
  | EmptyString, _ => Some s
  | String a l', String b s' => if Ascii.eqb a b then lit_match l' s' else None
  | String _ _, EmptyString => None
  end.

Definition orelse {A} (x : option A) (y : option A) : option A :=
  match x with Some _ => x | None => y end.

(** Greedy repetition of the matcher [m], at most [n] times, each round
    consuming at least one character; then the continuation [k]. *)
Definition star_loop (m : string -> (string -> option nat) -> option nat)
  (k : string -> option nat) : nat -> string -> option nat :=
  fix star (n : nat) (s : string) : option nat :=
    match n with
    | O => k s
    | S n' =>
        orelse
          (m s (fun s' => if (len s' <? len s)%nat then star n' s' else None))
          (k s)
    end.

(** [rmatch r s k]: match [r] at the head of [s], then the continuation [k]
    on what is left; the result is the number of characters consumed by
    both. *)
Fixpoint rmatch (r : regex) (s : string) (k : string -> option nat)
  {struct r} : option nat :=
  match r with
  | Str l =>
      match lit_match l s with
      | Some s' => option_map (Nat.add (len l)) (k s')
      | None => None
      end
  | Class p =>
      match s with
      | String c s' => if p c then option_map S (k s') else None
      | EmptyString => None
      end
  | Cat r1 r2 => rmatch r1 s (fun s' => rmatch r2 s' k)
  | Or r1 r2 => orelse (rmatch r1 s k) (rmatch r2 s k)
  | Opt r1 => orelse (rmatch r1 s k) (k s)
  | Star r1 => star_loop (rmatch r1) k (len s) s
  end.

(** The length of the match of [r] alone at the head of [s]. *)
Definition re_match (r : regex) (s : string) : option nat :=
  rmatch r s (fun _ => Some O).

(** Character classes, on code points below 256. *)
Definition code (c : ascii) : nat := nat_of_ascii c.

Definition between (lo hi : nat) (c : ascii) : bool :=
  ((lo <=? code c) && (code c <=? hi))%nat.

(* \s : str.isspace *)
Definition is_space (c : ascii) : bool :=
  between 9 13 c || between 28 32 c || (code c =? 133)%nat || (code c =? 160)%nat.

(* \d *)
Definition is_digit (c : ascii) : bool := between 48 57 c.

(* [a-zA-Z_\\] *)
Definition is_word (c : ascii) : bool :=
  between 97 122 c || between 65 90 c || Ascii.eqb c "_"%char
  || Ascii.eqb c backslash.

Inductive matcher :=
| Literal (s : string)
| Pattern (r : regex).     (* the text after "re:" *)

Definition re_number : regex :=
  Or (Plus (Class is_digit))
     (Cat (Star (Class is_digit)) (Cat (Str ".") (Plus (Class is_digit)))).

Definition re_hash (name : string) : regex :=
  Cat (Str name) (Opt (Cat (Str "_") (Plus (Class is_digit)))).

Definition tokens : list (string * list (string * matcher)) :=
  [ ("operator",
      [ ("arrow", Literal "->");
        ("assign", Literal ":=");
        ("add", Literal "+");
        ("minus", Literal "-");
        ("divide", Literal "/");
        ("multiply", Literal "*");
        ("mod", Literal "%");
        ("and", Literal "&&");
        ("or", Literal "||");
        ("xor", Literal "^");
        ("bitwiseAnd", Literal "&");
        ("bitwiseOr", Literal "|");
        ("bitwiseXor", Literal "^");
        ("equals", Literal "=");
        ("notEquals", Literal "!=");
        ("equalsIgnoreCase", Literal "<=>");
        ("greaterOrEqual", Literal ">=");
        ("lessOrEqual", Literal "<=");
        ("least", Literal "<=");
        ("greater", Literal ">");
        ("lesser", Literal "<");
        ("concat", Literal "+") ]);
    ("open",
      [ ("larray", Literal "@(");
        ("lparen", Literal "(");
        ("lcurly", Literal "{");
        ("lsquare", Literal "[") ]);
    ("close",
      [ ("rparen", Literal ")");
        ("rcurly", Literal "}");
        ("rsquare", Literal "]") ]);
    ("sep",
      [ ("comma", Literal ",") ]);
    ("string",
      [ ("apostrophe", Literal "'");
        ("quotes", Literal (chr dquote));
        ("escape", Literal (chr backslash)) ]);
    ("space",
      [ ("space", Pattern (Plus (Class is_space))) ]);
    ("number",
      [ ("number", Pattern re_number) ]);
    ("word",
      [ ("item", Pattern (re_hash "#item"));
        ("index", Pattern (re_hash "#index"));
        ("word", Pattern (Plus (Class is_word))) ]) ].

(** ** Tokenizer *)

Definition _pattern (m : matcher) : regex :=
  match m with
  | Pattern r => r
  | Literal s => Str s
  end.

(** A compiled pattern: the alternation of the named groups, in order; the
    group [type__variant] is kept as the pair. *)
Definition compiled := list ((string * string) * regex).

Definition token_pattern (tokens : list (string * list (string * matcher)))
  : compiled :=
  flat_map (fun '(type_, type_tokens) =>
    map (fun '(variant, variant_pattern) =>
           ((type_, variant), _pattern variant_pattern)) type_tokens) tokens.

(** The alternation at the head of [s]: the first group that matches, and
    the length of its match. *)
Fixpoint alt_match (pattern : compiled) (s : string)
  : option ((string * string) * nat) :=
  match pattern with
  | [] => None
  | (g, r) :: rest =>
      match re_match r s with
      | Some n => Some (g, n)
      | None => alt_match rest s
      end
  end.

(** [pattern.match(line, i)]: the group and the end of the match. *)
Definition pattern_match (pattern : compiled) (line : string) (i : nat)
  : option ((string * string) * nat) :=
  match alt_match pattern (drop i line) with
  | Some (g, n) => Some (g, (i + n)%nat)
  | None => None
  end.

(** [str.splitlines], on code points below 256. *)
Definition is_linebreak (c : ascii) : bool :=
  between 10 13 c || between 28 30 c || (code c =? 133)%nat.

Fixpoint splitlines_from (cur : string) (s : string) : list string :=
  match s with
  | EmptyString => match cur with EmptyString => [] | _ => [cur] end
  | String c s' =>
      if (code c =? 13)%nat then
        match s' with
        | String d s'' =>
            if (code d =? 10)%nat then cur :: splitlines_from "" s''
            else cur :: splitlines_from "" s'
        | EmptyString => [cur]
        end
      else if is_linebreak c then cur :: splitlines_from "" s'
      else splitlines_from (cur ++ chr c) s'
  end.

Definition splitlines (s : string) : list string := splitlines_from "" s.

(** The [while] loop of [tokenize] on one line, from offset [i]. *)
Fixpoint tokenize_line (fuel : nat) (pattern : compiled) (lineno : Z)
  (line : string) (i : nat) : result (list TokenInfo) :=
  match fuel with
  | O => Fuel
  | S fuel' =>
      match pattern_match pattern line i with
      | Some ((type_, variant), e) =>
          rest <- tokenize_line fuel' pattern lineno line e ;;
          Ok (mkToken type_ variant (take (e - i) (drop i line))
                (Z.of_nat i) (Z.of_nat e) lineno :: rest)
      | None =>
          if (i =? len line)%nat then Ok [] else Raise AssertionError
      end
  end.

Fixpoint tokenize_lines (pattern : compiled) (lineno : Z) (ls : list string)
  : result (list TokenInfo) :=
  match ls with
  | [] => Ok []
  | l :: ls' =>
      ts <- tokenize_line (S (len l)) pattern lineno l 0 ;;
      rest <- tokenize_lines pattern (lineno + 1) ls' ;;
      Ok (ts ++ rest)%list
  end.

(** [list(tokenize(lines, pattern))] *)
Definition tokenize (lines : string) (pattern : compiled)
  : result (list TokenInfo) :=
  tokenize_lines pattern 1 (splitlines lines).

(** ** Nodes *)

(** The value attribute of a node: a [str], an [int], or a [float]; binary
    floating point is not modelled, a float is kept as the literal it was
    read from. *)
Inductive value :=
| VStr (s : string)
| VInt (n : Z)
| VFloat (literal : string).

(** An [ET.Element]: its tag, its "value" attribute if set, its children. *)
#[local] Set Warnings "-register-all".
Inductive Element :=
| El (tag : string) (attrib : option value) (children : list Element).

Definition tag (el : Element) : string := let 'El t _ _ := el in t.
Definition get_value (el : Element) : option value := let 'El _ v _ := el in v.
Definition children (el : Element) : list Element := let 'El _ _ c := el in c.

Definition Node (tag : string) (text : value) : Element := El tag (Some text) [].
Definition Collection (tag : string) (children : list Element) : Element :=
  El tag None children.

(** ** Types *)

Fixpoint all_digits (s : string) : bool :=
  match s with
  | EmptyString => true
  | String c s' => is_digit c && all_digits s'
  end.

Fixpoint int_of_digits (acc : Z) (s : string) : Z :=
  match s with
  | EmptyString => acc
  | String c s' => int_of_digits (10 * acc + (Z.of_nat (code c) - 48)) s'
  end.

(** [number], on the strings the number rule produces: [int] reads a run of
    digits, everything else goes to [float] (the bound of recent Pythons on
    the length of a run of digits is not modelled). *)
Definition number (text : string) : value :=
  if all_digits text && negb (len text =? 0)%nat
  then VInt (int_of_digits 0 text)
  else VFloat text.

(** ** Python sequences *)

(** [l[i:]] *)
Definition slice_from {A} (l : list A) (i : Z) : list A :=
  if i <? 0 then skipn (Z.to_nat (Z.of_nat (length l) + i)) l
  else skipn (Z.to_nat i) l.

(** [l[i:j]] *)
Definition slice {A} (l : list A) (i j : Z) : list A :=
  let n := Z.of_nat (length l) in
  let lo := if i <? 0 then Z.max 0 (n + i) else Z.min i n in
  let hi := if j <? 0 then Z.max 0 (n + j) else Z.min j n in
  firstn (Z.to_nat (hi - lo)) (skipn (Z.to_nat lo) l).

(** [l[i]], [None] where Python raises IndexError *)
Definition index {A} (l : list A) (i : Z) : option A :=
  let n := Z.of_nat (length l) in
  if i <? 0 then (if n + i <? 0 then None else nth_error l (Z.to_nat (n + i)))
  else nth_error l (Z.to_nat i).

(** ** Parser *)

Definition is_type (token : TokenInfo) (t : string) : bool :=
  String.eqb (type token) t.
Definition is_variant (token : TokenInfo) (v : string) : bool :=
  String.eqb (variant token) v.
Definition variant_in (token : TokenInfo) (vs : list string) : bool :=
  existsb (String.eqb (variant token)) vs.

(** The [for] loop of [get] over [enumerate(tokens[i:], start=i)]. *)
Fixpoint get_from (l : list TokenInfo) (j : Z) : option (Z * TokenInfo) :=
  match l with
  | [] => None
  | token :: l' =>
      if is_type token "space" then get_from l' (j + 1)
      else Some (j + 1, token)
  end.

Definition get (tokens : list TokenInfo) (i : Z) : Z * TokenInfo :=
  match get_from (slice_from tokens i) i with
  | Some r => r
  | None => (-1, mkToken "end" "end" "" i i 1)
  end.

(** [_i]: when the loop ends without returning, [j] is the last index seen,
    and is unbound if there was none. *)
Fixpoint _i_from (l : list TokenInfo) (j : Z) (seen : option Z) : result Z :=
  match l with
  | [] => match seen with Some j' => Ok j' | None => Raise UnboundLocalError end
  | token :: l' =>
      if is_type token "space" then _i_from l' (j + 1) (Some j)
      else Ok (j + 1)
  end.

Definition _i (tokens : list TokenInfo) (i : Z) : result Z :=
  _i_from (slice_from tokens i) i None.

(** [get_token]: falls off the end of the function, returning [None], when
    only spaces are left. *)
Fixpoint get_token_from (l : list TokenInfo) : option TokenInfo :=
  match l with
  | [] => None
  | token :: l' =>
      if is_type token "space" then get_token_from l' else Some token
  end.

Definition get_token (tokens : list TokenInfo) (i : Z) : option TokenInfo :=
  get_token_from (slice_from tokens i).

Fixpoint parse_string_from (tokens : list TokenInfo) (start : string) (i : Z)
  (l : list TokenInfo) (j : Z) (escape : bool) : option (Z * Element) :=
  match l with
  | [] => None
  | token :: l' =>
      if escape then parse_string_from tokens start i l' (j + 1) false
      else if is_variant token start then
        Some (j + 1,
              Node "STR" (VStr (join "" (map string_ (slice tokens i j)))))
      else if is_variant token "escape" then
        parse_string_from tokens start i l' (j + 1) true
      else parse_string_from tokens start i l' (j + 1) false
  end.

(** [parse_string]: [None] when the closing quote is missing. *)
Definition parse_string (tokens : list TokenInfo) (i : Z)
  : result (option (Z * Element)) :=
  match index tokens (i - 1) with
  | None => Raise IndexError
  | Some t =>
      Ok (parse_string_from tokens (variant t) i (slice_from tokens i) i false)
  end.

Definition unpack_None : exn :=
  TypeError "cannot unpack non-iterable NoneType object".

(** The parser functions, each with a recursion bound; the [while] loops are
    the [_loop] functions, whose arguments are the loop's variables. *)
Fixpoint parse_term (n : nat) (tokens : list TokenInfo) (i : Z)
  : result (Z * Element) :=
  match n with
  | O => Fuel
  | S n =>
      let '(i, token) := get tokens i in
      if is_type token "word" then
        Ok (i, Node "VAR" (VStr (string_ token)))
      else if is_type token "open" then
        '(i, coll) <- parse_collection n tokens i ;;
        if is_variant token "lsquare" then Ok (i, Collection "LIST" coll)
        else if is_variant token "lparen" then Ok (i, Collection "PAREN" coll)
        else Raise (NotImplementedError (variant token))
      else if is_type token "number" then
        Ok (i, Node "NUM" (number (string_ token)))
      else if is_type token "string" then
        r <- parse_string tokens i ;;
        match r with
        | Some (i, string) => Ok (i, string)
        | None => Raise unpack_None
        end
      else if is_type token "operator" then
        if variant_in token ["add"; "minus"] then
          '(i, arg) <- parse_term n tokens i ;;
          Ok (i, Collection "UNOP" [Node "OP" (VStr (string_ token)); arg])
        else Raise (NotImplementedError (variant token))
      else Raise (TokenError token)
  end

with parse_collection (n : nat) (tokens : list TokenInfo) (i : Z)
  : result (Z * list Element) :=
  match n with
  | O => Fuel
  | S n => collection_loop n tokens i []
  end

with collection_loop (n : nat) (tokens : list TokenInfo) (i : Z)
  (arguments : list Element) : result (Z * list Element) :=
  match n with
  | O => Fuel
  | S n =>
      match get_token tokens i with
      | None => Raise AttributeError
      | Some t =>
          if negb (is_type t "close") then
            '(i, expr) <- parse_function_expression n tokens i ;;
            let arguments := (arguments ++ [expr])%list in
            let '(j, token) := get tokens i in
            let i := if is_variant token "comma" then j else i in
            collection_loop n tokens i arguments
          else
            i <- _i tokens i ;; Ok (i, arguments)
      end
  end

with parse_post_expression (n : nat) (tokens : list TokenInfo) (i : Z)
  : result (Z * Element) :=
  match n with
  | O => Fuel
  | S n =>
      '(i, left_) <- parse_term n tokens i ;;
      post_loop n tokens i left_
  end

with post_loop (n : nat) (tokens : list TokenInfo) (i : Z) (left_ : Element)
  : result (Z * Element) :=
  match n with
  | O => Fuel
  | S n =>
      let '(j, right_) := get tokens i in
      if is_type right_ "open" then
        '(i, coll) <- parse_collection n tokens j ;;
        if is_variant right_ "lparen" then
          post_loop n tokens i
            (Collection "CALL" [left_; Collection "ARGS" coll])
        else if is_variant right_ "lsquare" then
          post_loop n tokens i
            (Collection "GET" [left_; Collection "KEY" coll])
        else Raise (NotImplementedError (variant right_))
      else Ok (i, left_)
  end

with parse_prod_expression (n : nat) (tokens : list TokenInfo) (i : Z)
  : result (Z * Element) :=
  match n with
  | O => Fuel
  | S n =>
      '(i, left_) <- parse_post_expression n tokens i ;;
      prod_loop n tokens i left_
  end

with prod_loop (n : nat) (tokens : list TokenInfo) (i : Z) (left_ : Element)
  : result (Z * Element) :=
  match n with
  | O => Fuel
  | S n =>
      let '(j, mid) := get tokens i in
      if variant_in mid ["multiply"; "divide"] then
        '(i, right_) <- parse_post_expression n tokens j ;;
        prod_loop n tokens i
          (Collection "PRODOP" [left_; Node "OP" (VStr (string_ mid)); right_])
      else Ok (i, left_)
  end

with parse_sum_expression (n : nat) (tokens : list TokenInfo) (i : Z)
  : result (Z * Element) :=
  match n with
  | O => Fuel
  | S n =>
      '(i, left_) <- parse_prod_expression n tokens i ;;
      sum_loop n tokens i left_
  end

with sum_loop (n : nat) (tokens : list TokenInfo) (i : Z) (left_ : Element)
  : result (Z * Element) :=
  match n with
  | O => Fuel
  | S n =>
      let '(j, mid) := get tokens i in
      if variant_in mid ["add"; "minus"] then
        '(i, right_) <- parse_prod_expression n tokens j ;;
        sum_loop n tokens i
          (Collection "SUMOP" [left_; Node "OP" (VStr (string_ mid)); right_])
      else Ok (i, left_)
  end

with parse_comp_expression (n : nat) (tokens : list TokenInfo) (i : Z)
  : result (Z * Element) :=
  match n with
  | O => Fuel
  | S n =>
      '(i, left_) <- parse_sum_expression n tokens i ;;
      comp_loop n tokens i left_
  end

with comp_loop (n : nat) (tokens : list TokenInfo) (i : Z) (left_ : Element)
  : result (Z * Element) :=
  match n with
  | O => Fuel
  | S n =>
      let '(j, mid) := get tokens i in
      if variant_in mid ["equals"; "notEquals"; "greater"; "lesser"] then
        '(i, right_) <- parse_prod_expression n tokens j ;;
        comp_loop n tokens i
          (Collection "COMPARE" [left_; Node "OP" (VStr (string_ mid)); right_])
      else Ok (i, left_)
  end

with parse_logical_expression (n : nat) (tokens : list TokenInfo) (i : Z)
  : result (Z * Element) :=
  match n with
  | O => Fuel
  | S n =>
      '(i, left_) <- parse_comp_expression n tokens i ;;
      logical_loop n tokens i left_
  end

with logical_loop (n : nat) (tokens : list TokenInfo) (i : Z) (left_ : Element)
  : result (Z * Element) :=
  match n with
  | O => Fuel
  | S n =>
      let '(j, mid) := get tokens i in
      if variant_in mid ["and"; "or"] then
        '(i, right_) <- parse_comp_expression n tokens j ;;
        logical_loop n tokens i
          (Collection "LOGICAL" [left_; Node "OP" (VStr (string_ mid)); right_])
      else Ok (i, left_)
  end

with parse_function_expression (n : nat) (tokens : list TokenInfo) (i : Z)
  : result (Z * Element) :=
  match n with
  | O => Fuel
  | S n =>
      '(i, left_) <- parse_logical_expression n tokens i ;;
      let '(j, mid) := get tokens i in
      if is_variant mid "arrow" then
        '(i, right_) <- parse_logical_expression n tokens j ;;
        Ok (i, Collection "FUNC" [left_; right_])
      else Ok (i, left_)
  end.

Definition parse_expression (n : nat) (tokens : list TokenInfo) (i : Z)
  : result (Z * Element) :=
  '(i, left_) <- parse_logical_expression n tokens i ;;
  let '(j, mid) := get tokens i in
  if is_variant mid "assign" then
    '(i, right_) <- parse_logical_expression n tokens j ;;
    Ok (i, Collection "ASSIGN" [left_; right_])
  else Ok (i, left_).

(** The recursion bound given to a parse of [tokens]. *)
Definition fuel_of (tokens : list TokenInfo) : nat :=
  (16 * length tokens + 16)%nat.

Definition parse (text : string) (pattern : compiled) : result Element :=
  tokens <- tokenize text pattern ;;
  '(_, root) <- parse_expression (fuel_of tokens) tokens 0 ;;
  Ok root.

Definition pattern : compiled := token_pattern tokens.

(** ** Formatter *)

Definition font_code : list (string * nat) :=
  [ ("roman", 0); ("bold", 1); ("italic", 3); ("underline", 4); ("blink", 5);
    ("mark", 7); ("strikethrough", 9); ("default", 0) ]%nat.

Definition color_code : list (string * nat) :=
  [ ("black", 30); ("darkred", 31); ("darkgreen", 32); ("darkyellow", 33);
    ("blue", 34); ("darkmagenta", 35); ("darkcyan", 36);
    ("lightgrey", 37); ("lightgray", 37);
    ("grey", 38); ("gray", 38);
    ("darkgrey", 90); ("darkgray", 90);
    ("red", 91); ("green", 92); ("yellow", 93); ("violet", 94);
    ("magenta", 95); ("cyan", 96); ("white", 97); ("default", 38) ]%nat.

Definition background_colors : list (string * nat) :=
  [ ("none", 40); ("black", 40); ("red", 41); ("green", 42); ("yellow", 43);
    ("blue", 44); ("magenta", 45); ("cyan", 46); ("white", 47) ]%nat.

(** [d.get(k)] on a dict written as its items; a key written twice keeps
    the last value. *)
Fixpoint dict_get {V} (d : list (string * V)) (k : string) : option V :=
  match d with
  | [] => None
  | (k', v) :: d' =>
      match dict_get d' k with
      | Some v' => Some v'
      | None => if String.eqb k' k then Some v else None
      end
  end.

(** [d.get(k)] where [k] itself may be [None], which is no key of [d]. *)
Definition dict_get_opt {V} (d : list (string * V)) (k : option string)
  : option V :=
  match k with
  | Some k => dict_get d k
  | None => None
  end.

Definition str_nat (n : nat) : string := NilZero.string_of_uint (Nat.to_uint n).
Definition str_int (n : Z) : string := NilZero.string_of_int (Z.to_int n).

(** [tag(codes)]; [tag] here is the tag of an element. *)
Definition ansi_tag (codes : string) : string := chr ESC ++ "[" ++ codes ++ "m".

Definition END : string := ansi_tag (str_nat 0).

(** [filter(None, codes)] drops [None] and [0]. *)
Definition truthy (c : option nat) : list nat :=
  match c with
  | Some (S n) => [S n]
  | _ => []
  end.

Definition code_style (text : string) (codes : list (option nat)) : string :=
  let codes := join ";" (map str_nat (flat_map truthy codes)) in
  ansi_tag codes ++ text ++ END.

Definition style (text : string) (codes : list (string * string)) : string :=
  let font := dict_get_opt font_code (dict_get codes "font") in
  let color := dict_get_opt color_code (dict_get codes "color") in
  let bg := dict_get_opt background_colors (dict_get codes "bg") in
  code_style text [color; font; bg].

Definition VAR_STYLE := [ ("color", "yellow"); ("font", "bold") ].
Definition NUM_STYLE := [ ("color", "magenta") ].
Definition STR_STYLE := [ ("color", "green") ].

(** [str.splitlines(True)] *)
Fixpoint splitlines_keep (cur : string) (s : string) : list string :=
  match s with
  | EmptyString => match cur with EmptyString => [] | _ => [cur] end
  | String c s' =>
      if (code c =? 13)%nat then
        match s' with
        | String d s'' =>
            if (code d =? 10)%nat
            then (cur ++ chr c ++ chr d) :: splitlines_keep "" s''
            else (cur ++ chr c) :: splitlines_keep "" s'
        | EmptyString => [cur ++ chr c]
        end
      else if is_linebreak c then (cur ++ chr c) :: splitlines_keep "" s'
      else splitlines_keep (cur ++ chr c) s'
  end.

Fixpoint all_space (s : string) : bool :=
  match s with
  | EmptyString => true
  | String c s' => is_space c && all_space s'
  end.

Fixpoint spaces (n : nat) : string :=
  match n with
  | O => ""
  | S n' => String " " (spaces n')
  end.

(** [textwrap.indent(string, n*" ")]: the prefix goes before every line
    that is not made of whitespace only. *)
Definition _indent (text : string) (n : nat) : string :=
  join "" (map (fun l => if all_space l then l else spaces n ++ l)
               (splitlines_keep "" text)).

(** [f(c) for c in el], consumed in order; the first failure ends it. *)
Definition for_each (f : Element -> result string)
  : list Element -> result (list string) :=
  fix each (cs : list Element) : result (list string) :=
    match cs with
    | [] => Ok []
    | c :: cs' => s <- f c ;; ss <- each cs' ;; Ok (s :: ss)
    end.

Section Formatter.

(** [str] of a float, given the literal it was read from (not modelled). *)
Variable str_float : string -> string.

(** [str(v)] for the value attribute of a node, [None] when it is unset. *)
Definition str_value (v : option value) : string :=
  match v with
  | Some (VStr s) => s
  | Some (VInt n) => str_int n
  | Some (VFloat l) => str_float l
  | None => "None"
  end.

Definition not_str : exn := TypeError "can only concatenate str".

(** [froot(el, indent)]; [indent] is [None] for [False], the width
    otherwise.  An OP whose value is not a string would be returned as it is
    by Python and fail in the enclosing join; the parser builds none. *)
Fixpoint froot (el : Element) (indent : option nat) {struct el}
  : result string :=
  let 'El tag_ attrib children := el in
  let each (indent : option nat) :=
    for_each (fun c => froot c indent) children in
  let el0 (indent : option nat) :=
    match children with
    | c :: _ => froot c indent
    | [] => Raise IndexError
    end in
  let el1 (indent : option nat) :=
    match children with
    | _ :: c :: _ => froot c indent
    | _ => Raise IndexError
    end in
  if (tag_ =? "UNOP")%string then ss <- each indent ;; Ok (join "" ss)
  else if (tag_ =? "PRODOP")%string then ss <- each indent ;; Ok (join "" ss)
  else if (tag_ =? "SUMOP")%string then ss <- each indent ;; Ok (join " " ss)
  else if (tag_ =? "COMPARE")%string then ss <- each indent ;; Ok (join " " ss)
  else if (tag_ =? "FUNC")%string then
    a <- el0 indent ;; b <- el1 indent ;; Ok (a ++ " -> " ++ b)
  else if (tag_ =? "ASSIGN")%string then
    a <- el0 indent ;; b <- el1 indent ;; Ok (a ++ " := " ++ b)
  else if (tag_ =? "OP")%string then
    match attrib with
    | Some (VStr s) => Ok s
    | _ => Raise not_str
    end
  else if (tag_ =? "CALL")%string then
    match indent with
    | None => a <- el0 None ;; b <- el1 None ;; Ok (a ++ "(" ++ b ++ ")")
    | Some n =>
        body <- el1 indent ;;
        a <- el0 indent ;;
        Ok (a ++ "(" ++ chr nl ++ _indent body n ++ chr nl ++ ")")
    end
  else if (tag_ =? "GET")%string then
    a <- el0 indent ;; b <- el1 indent ;; Ok (a ++ "[" ++ b ++ "]")
  else if (tag_ =? "PAREN")%string then
    a <- el0 indent ;; Ok ("(" ++ a ++ ")")
  else if (tag_ =? "LIST")%string then
    match indent with
    | None => ss <- each indent ;; Ok ("[" ++ join ", " ss ++ "]")
    | Some n =>
        ss <- each indent ;;
        let body := join ("," ++ chr nl) ss in
        Ok ("[" ++ chr nl ++ _indent body n ++ "," ++ chr nl ++ "]")
    end
  else if (tag_ =? "ARGS")%string then
    match indent with
    | None => ss <- each indent ;; Ok (join ", " ss)
    | Some n => ss <- each indent ;; Ok (join ("," ++ chr nl) ss ++ ",")
    end
  else if (tag_ =? "KEY")%string then ss <- each indent ;; Ok (join ", " ss)
  else if (tag_ =? "NUM")%string then Ok (style (str_value attrib) NUM_STYLE)
  else if (tag_ =? "VAR")%string then Ok (style (str_value attrib) VAR_STYLE)
  else if (tag_ =? "STR")%string then
    match attrib with
    | Some (VStr s) => Ok (style ("'" ++ s ++ "'") STR_STYLE)
    | _ => Raise not_str
    end
  else Raise (TypeError ("Invalid type " ++ tag_)).

(** [froot(root, indent=False)] *)
Definition render_compact (root : Element) : result string := froot root None.

End Formatter.

(** * Properties *)

(** ** Strings *)

Fixpoint forall_str (ok : ascii -> bool) (s : string) : bool :=
  match s with
  | EmptyString => true
  | String c s' => ok c && forall_str ok s'
  end.

Definition tail_str (s : string) : string :=
  match s with
  | EmptyString => EmptyString
  | String _ s' => s'
  end.

Lemma len_app (a b : string) : len (a ++ b) = (len a + len b)%nat.
Proof. induction a; simpl; auto. Qed.

Lemma app_empty_r (a : string) : a ++ "" = a.
Proof. induction a; simpl; congruence. Qed.

Lemma app_assoc_str (a b c : string) : (a ++ b) ++ c = a ++ (b ++ c).
Proof. induction a; simpl; congruence. Qed.

Lemma drop_app (a b : string) : drop (len a) (a ++ b) = b.
Proof. induction a; simpl; auto. Qed.

Lemma take_app (a b : string) : take (len a) (a ++ b) = a.
Proof. induction a; simpl; congruence. Qed.

Lemma take_drop (n : nat) (s : string) : take n s ++ drop n s = s.
Proof.
  revert s; induction n; intros [|c s]; simpl; auto.
  now rewrite IHn.
Qed.

Lemma len_drop (n : nat) (s : string) : len (drop n s) = (len s - n)%nat.
Proof. revert s; induction n; intros [|c s]; simpl; auto. Qed.

Lemma len_take (n : nat) (s : string) : len (take n s) = Nat.min n (len s).
Proof. revert s; induction n; intros [|c s]; simpl; auto. Qed.

Lemma drop_drop (n m : nat) (s : string) : drop m (drop n s) = drop (n + m) s.
Proof.
  revert s; induction n; intros s; simpl; auto.
  destruct s; simpl; auto. now destruct m.
Qed.

Lemma drop_all (n : nat) (s : string) : (len s <= n)%nat -> drop n s = "".
Proof.
  revert s; induction n; intros [|c s]; simpl; auto; try lia.
  intros; apply IHn; lia.
Qed.

Lemma drop_cons (n : nat) (s : string) :
  (n < len s)%nat -> exists c, drop n s = String c (drop (S n) s).
Proof.
  revert s; induction n; intros [|c s]; simpl; try lia.
  - now exists c.
  - intros; apply IHn; lia.
Qed.

Lemma forall_str_app ok (a b : string) :
  forall_str ok (a ++ b) = forall_str ok a && forall_str ok b.
Proof. induction a; simpl; auto. now rewrite IHa, andb_assoc. Qed.

Lemma forall_str_tail ok (a : string) :
  forall_str ok a = true -> forall_str ok (tail_str a) = true.
Proof. destruct a; simpl; auto. now intros [_ ?]%andb_prop. Qed.

Lemma forall_str_drop ok (n : nat) (s : string) :
  forall_str ok s = true -> forall_str ok (drop n s) = true.
Proof.
  revert s; induction n; intros [|c s]; simpl; auto.
  intros [_ ?]%andb_prop; auto.
Qed.

Lemma lit_match_app (l s s' : string) :
  lit_match l s = Some s' -> s = l ++ s'.
Proof.
  revert s; induction l; intros [|b s]; simpl; try congruence.
  destruct (Ascii.eqb_spec a b); try congruence.
  intros H; apply IHl in H; congruence.
Qed.

Lemma lit_match_refl (l s : string) : lit_match l (l ++ s) = Some s.
Proof. induction l; simpl; auto. now rewrite Ascii.eqb_refl. Qed.

(** ** Regular expressions *)

Fixpoint nonnull (r : regex) : bool :=
  match r with
  | Str l => negb (len l =? 0)%nat
  | Class _ => true
  | Cat r1 r2 => nonnull r1 || nonnull r2
  | Or r1 r2 => nonnull r1 && nonnull r2
  | Star _ | Opt _ => false
  end.

Section Chars.

Variable ok : ascii -> bool.

(** Every character [r] can consume satisfies [ok]. *)
Fixpoint chars_ok (r : regex) : Prop :=
  match r with
  | Str l => forall_str ok l = true
  | Class p => forall c, p c = true -> ok c = true
  | Cat r1 r2 | Or r1 r2 => chars_ok r1 /\ chars_ok r2
  | Star r1 | Opt r1 => chars_ok r1
  end.

(** Every character [r] can consume after its first one satisfies [ok]. *)
Fixpoint tail_ok (r : regex) : Prop :=
  match r with
  | Str l => forall_str ok (tail_str l) = true
  | Class _ => True
  | Cat r1 r2 =>
      (if nonnull r1 then tail_ok r1 else chars_ok r1) /\ chars_ok r2
  | Or r1 r2 => tail_ok r1 /\ tail_ok r2
  | Star r1 => chars_ok r1
  | Opt r1 => tail_ok r1
  end.

(** What a successful [rmatch] means: [r] took a prefix [p] of [s] and the
    continuation succeeded on the rest. *)
Definition took (r : regex) (s : string) (k : string -> option nat) (n : nat)
  : Prop :=
  exists p s' j,
    s = p ++ s' /\ k s' = Some j /\ n = (len p + j)%nat /\
    (nonnull r = true -> p <> "") /\
    (chars_ok r -> forall_str ok p = true) /\
    (tail_ok r -> forall_str ok (tail_str p) = true).

Lemma orelse_Some {A} (x y : option A) (v : A) :
  orelse x y = Some v -> x = Some v \/ (x = None /\ y = Some v).
Proof. destruct x; simpl; auto. Qed.

Lemma star_loop_inv (r1 : regex) (k : string -> option nat) :
  (forall s k n, rmatch r1 s k = Some n -> took r1 s k n) ->
  forall fuel s n,
    star_loop (rmatch r1) k fuel s = Some n ->
    exists p s' j,
      s = p ++ s' /\ k s' = Some j /\ n = (len p + j)%nat /\
      (chars_ok r1 -> forall_str ok p = true).
Proof.
  intros IH fuel; induction fuel; intros s n H; simpl in H.
  - exists "", s, n; simpl; auto.
  - apply orelse_Some in H as [H | [_ H]].
    + apply IH in H as (p & s' & j & -> & Hk & -> & _ & Hc & _).
      destruct (len s' <? len (p ++ s'))%nat; [|discriminate].
      apply IHfuel in Hk as (p2 & s2 & j2 & -> & Hk2 & -> & Hc2).
      exists (p ++ p2), s2, j2; repeat split; auto.
      * now rewrite app_assoc_str.
      * rewrite len_app; lia.
      * intros Hok; rewrite forall_str_app, Hc, Hc2; auto.
    + exists "", s, n; simpl; auto.
Qed.

Lemma rmatch_took (r : regex) :
  forall s k n, rmatch r s k = Some n -> took r s k n.
Proof.
  induction r; intros s0 k n H; simpl in H.
  - destruct (lit_match s s0) as [s'|] eqn:E; [|discriminate].
    apply lit_match_app in E; subst s0.
    destruct (k s') as [j|] eqn:Ek; [|discriminate]; simpl in H.
    exists s, s', j; simpl; repeat split; auto; try congruence.
    all: try (intros Hn ->; discriminate).
    all: try apply forall_str_tail.
  - destruct s0 as [|c s']; [discriminate|].
    destruct (p c) eqn:Ep; [|discriminate].
    destruct (k s') as [j|] eqn:Ek; [|discriminate]; simpl in H.
    exists (chr c), s', j; simpl; repeat split; auto; try congruence.
    all: try (intros Hc; rewrite (Hc c Ep); auto).
    all: try discriminate.
  - apply IHr1 in H as (p1 & s1 & j1 & -> & H2 & -> & Hn1 & Hc1 & Ht1).
    apply IHr2 in H2 as (p2 & s2 & j2 & -> & Hk & -> & Hn2 & Hc2 & Ht2).
    exists (p1 ++ p2), s2, j2; simpl; repeat split; auto.
    + now rewrite app_assoc_str.
    + rewrite len_app; lia.
    + intros Hn E. destruct p1; [|discriminate]. simpl in E; subst p2.
      apply orb_prop in Hn as [Hn|Hn]; [now apply Hn1 | now apply Hn2].
    + intros [? ?]; rewrite forall_str_app, Hc1, Hc2; auto.
    + intros [Hx Hy].
      destruct (nonnull r1) eqn:En.
      * destruct p1 as [|c p1]; [now elim Hn1|]. simpl.
        rewrite forall_str_app. specialize (Ht1 Hx); simpl in Ht1.
        rewrite Ht1, Hc2; auto.
      * apply forall_str_tail. rewrite forall_str_app, Hc1, Hc2; auto.
  - apply orelse_Some in H as [H | [_ H]].
    + apply IHr1 in H as (p & s' & j & -> & Hk & -> & Hn & Hc & Ht).
      exists p, s', j; simpl; repeat split; auto.
      * intros [? ?]%andb_prop; auto.
      * intros [? ?]; auto.
      * intros [? ?]; auto.
    + apply IHr2 in H as (p & s' & j & -> & Hk & -> & Hn & Hc & Ht).
      exists p, s', j; simpl; repeat split; auto.
      * intros [? ?]%andb_prop; auto.
      * intros [? ?]; auto.
      * intros [? ?]; auto.
  - apply star_loop_inv in H as (p & s' & j & -> & Hk & -> & Hc); auto.
    exists p, s', j; simpl; repeat split; auto; try discriminate.
    intros Hx; apply forall_str_tail; auto.
  - apply orelse_Some in H as [H | [_ H]].
    + apply IHr in H as (p & s' & j & -> & Hk & -> & Hn & Hc & Ht).
      exists p, s', j; simpl; repeat split; auto; discriminate.
    + exists "", s0, n; simpl; repeat split; auto; discriminate.
Qed.

End Chars.

(** ** The alternation *)

Lemma alt_match_first (pat : compiled) (s : string) g n :
  alt_match pat s = Some (g, n) ->
  exists pre r post,
    pat = (pre ++ (g, r) :: post)%list /\ re_match r s = Some n /\
    Forall (fun gr => re_match (snd gr) s = None) pre.
Proof.
  induction pat as [|[g' r'] pat IH]; simpl; [discriminate|].
  destruct (re_match r' s) as [m|] eqn:E.
  - intros [= <- <-]. exists [], r', pat; simpl; auto.
  - intros H; apply IH in H as (pre & r & post & -> & Hr & Hpre).
    exists ((g', r') :: pre)%list, r, post; simpl; auto.
Qed.

Lemma alt_match_live (pat : compiled) (s : string) g r :
  In (g, r) pat -> re_match r s <> None -> alt_match pat s <> None.
Proof.
  induction pat as [|[g' r'] pat IH]; simpl; [tauto|].
  intros [[= -> ->] | Hin] Hr.
  - destruct (re_match r s); congruence.
  - destruct (re_match r' s); [discriminate | auto].
Qed.

(** A character at which some rule matches whatever follows it. *)
Definition self_start (c : ascii) : bool :=
  is_space c || is_digit c || is_word c
  || existsb (Ascii.eqb c)
       (list_ascii_of_string "+-/*%^&|=><({[)}],'")
  || Ascii.eqb c dquote.

(** A rule whose matches are not empty and have, after their first
    character, only characters at which a rule matches. *)
Definition good_rule (r : regex) : Prop :=
  forall s n, re_match r s = Some n ->
    exists p s', s = p ++ s' /\ n = len p /\ p <> "" /\
                 forall_str self_start (tail_str p) = true.

Lemma good_generic (r : regex) :
  nonnull r = true -> tail_ok self_start r -> good_rule r.
Proof.
  intros Hn Ht s n H.
  apply (rmatch_took self_start) in H
    as (p & s' & j & -> & [= <-] & -> & Hp & _ & Hq).
  exists p, s'; repeat split; auto.
Qed.

Lemma star_accept (m : string -> (string -> option nat) -> option nat)
  (fuel : nat) (s : string) :
  star_loop m (fun _ => Some O) fuel s <> None.
Proof.
  destruct fuel; simpl; [discriminate|].
  destruct (m s _); simpl; discriminate.
Qed.

Lemma digit_self_start c : is_digit c = true -> self_start c = true.
Proof. unfold self_start; intros ->; now rewrite orb_true_r. Qed.

Lemma space_self_start c : is_space c = true -> self_start c = true.
Proof. unfold self_start; now intros ->. Qed.

Lemma word_self_start c : is_word c = true -> self_start c = true.
Proof. unfold self_start; intros ->; now rewrite !orb_true_r. Qed.

Lemma rmatch_Or (a b : regex) s k :
  rmatch (Or a b) s k = orelse (rmatch a s k) (rmatch b s k).
Proof. reflexivity. Qed.

Lemma good_number : good_rule re_number.
Proof.
  intros s n H. unfold re_match, re_number in H.
  rewrite rmatch_Or in H.
  destruct s as [|c s]; [discriminate|].
  destruct (rmatch (Plus (Class is_digit)) (String c s) (fun _ => Some O))
    as [m|] eqn:E1; cbv [orelse] in H.
  - injection H as ->.
    apply (good_generic (Plus (Class is_digit))) in E1; auto.
    simpl; repeat split; auto using digit_self_start.
  - assert (Ed : is_digit c = false).
    { destruct (is_digit c) eqn:Ed; auto. exfalso.
      simpl in E1. rewrite Ed in E1.
      destruct (star_loop _ _ (len s) s) eqn:E; [discriminate|].
      now apply star_accept in E. }
    assert (E2 : rmatch (Cat (Star (Class is_digit))
                          (Cat (Str ".") (Plus (Class is_digit))))
                   (String c s) (fun _ => Some O)
                 = rmatch (Cat (Str ".") (Plus (Class is_digit)))
                     (String c s) (fun _ => Some O)).
    { cbn [rmatch len String.length star_loop]. now rewrite Ed. }
    rewrite E2 in H.
    apply (good_generic (Cat (Str ".") (Plus (Class is_digit)))) in H; auto.
    simpl; repeat split; auto using digit_self_start.
Qed.

Lemma pattern_good : Forall (fun gr => good_rule (snd gr)) pattern.
Proof.
  unfold pattern, token_pattern, tokens; simpl.
  repeat (apply Forall_cons; [|]); try apply Forall_nil; simpl.
  all: try apply good_number.
  all: apply good_generic; [reflexivity|].
  all: simpl; repeat split;
    auto using digit_self_start, space_self_start, word_self_start.
Qed.

Lemma alt_match_good (s : string) g n :
  alt_match pattern s = Some (g, n) ->
  exists p s', s = p ++ s' /\ n = len p /\ p <> "" /\
               forall_str self_start (tail_str p) = true.
Proof.
  intros H. apply alt_match_first in H as (pre & r & post & E & Hr & _).
  pose proof pattern_good as G. rewrite E in G.
  apply Forall_app in G as [_ G]. inversion G; subst. auto.
Qed.

Lemma in_pattern_live g r (s : string) :
  In (g, r) pattern -> re_match r s <> None -> alt_match pattern s <> None.
Proof. apply alt_match_live. Qed.

Ltac pick_rule :=
  unfold pattern, token_pattern, tokens; simpl;
  repeat first [left; reflexivity | right].

Lemma self_start_live (c : ascii) (rest : string) :
  self_start c = true -> alt_match pattern (String c rest) <> None.
Proof.
  unfold self_start. rewrite !orb_true_iff.
  intros [[[[H | H] | H] | H] | H].
  - apply (in_pattern_live ("space", "space") (Plus (Class is_space)));
      [pick_rule|].
    unfold re_match; simpl; rewrite H.
    destruct (star_loop _ _ (len rest) rest) eqn:E; [discriminate|].
    now apply star_accept in E.
  - apply (in_pattern_live ("number", "number") re_number); [pick_rule|].
    unfold re_match, re_number; rewrite rmatch_Or.
    assert (E : rmatch (Plus (Class is_digit)) (String c rest)
                  (fun _ => Some O) <> None).
    { simpl; rewrite H.
      destruct (star_loop _ _ (len rest) rest) eqn:E; [discriminate|].
      now apply star_accept in E. }
    destruct (rmatch (Plus (Class is_digit)) _ _); [discriminate|congruence].
  - apply (in_pattern_live ("word", "word") (Plus (Class is_word)));
      [pick_rule|].
    unfold re_match; simpl; rewrite H.
    destruct (star_loop _ _ (len rest) rest) eqn:E; [discriminate|].
    now apply star_accept in E.
  - simpl in H. rewrite !orb_true_iff in H.
    repeat match type of H with
           | _ \/ _ => destruct H as [H | H]
           end;
      try discriminate;
      apply Ascii.eqb_eq in H; subst c;
      match goal with
      | |- alt_match _ (String ?c _) <> None =>
          eapply (alt_match_live pattern _ _ (Str (chr c)));
            [pick_rule | unfold re_match; simpl; discriminate]
      end.
  - apply Ascii.eqb_eq in H; subst c.
    apply (in_pattern_live ("string", "quotes") (Str (chr dquote)));
      [pick_rule | unfold re_match; simpl; discriminate].
Qed.

Lemma drop_in_prefix ok (m : nat) (p s' : string) :
  forall_str ok p = true -> (m < len p)%nat ->
  exists c rest, drop m (p ++ s') = String c rest /\ ok c = true.
Proof.
  revert p; induction m; intros [|c p]; simpl; try lia.
  - intros [? ?]%andb_prop _; eauto.
  - intros [? ?]%andb_prop ?; apply IHm; auto; lia.
Qed.

(** A match is not empty, stays within the line, and some rule matches at
    each position inside it. *)
Lemma pattern_match_inside (line : string) (i : nat) g e :
  pattern_match pattern line i = Some (g, e) ->
  (i < e <= len line)%nat /\
  forall k, (i < k < e)%nat -> pattern_match pattern line k <> None.
Proof.
  unfold pattern_match.
  destruct (alt_match pattern (drop i line)) as [[g' n]|] eqn:E;
    [|discriminate].
  intros [= -> <-].
  apply alt_match_good in E as (p & s' & E & -> & Hp & Ht).
  assert (L : (len line - i = len p + len s')%nat)
    by (rewrite <- len_drop, E; apply len_app).
  destruct p as [|c0 p]; [congruence|].
  cbn [len String.length tail_str] in *.
  split; [lia|]. intros k Hk.
  replace k with (i + S (k - i - 1))%nat by lia.
  rewrite <- drop_drop, E. cbn [drop append].
  destruct (drop_in_prefix self_start (k - i - 1) p s' Ht)
    as (c & rest & -> & Hc); [unfold len; lia|].
  apply self_start_live with (rest := rest) in Hc.
  destruct (alt_match pattern (String c rest)) as [[? ?]|]; congruence.
Qed.

(** The loop on one line ends, with the tokens or with the assertion. *)
Lemma tokenize_line_total (lineno : Z) (line : string) :
  forall fuel i, (i <= len line < fuel + i)%nat ->
    (exists ts, tokenize_line fuel pattern lineno line i = Ok ts) \/
    tokenize_line fuel pattern lineno line i = Raise AssertionError.
Proof.
  induction fuel; intros i Hi; simpl; [lia|].
  destruct (pattern_match pattern line i) as [[[ty va] e]|] eqn:E.
  - apply pattern_match_inside in E as [He _].
    destruct (IHfuel e) as [[ts ->] | ->]; [lia | |]; simpl; eauto.
  - destruct (i =? len line)%nat; eauto.
Qed.

(** A position at which no rule matches stops the loop with the
    assertion. *)
Lemma tokenize_line_dead (lineno : Z) (line : string) (p : nat) :
  (p < len line)%nat -> pattern_match pattern line p = None ->
  forall fuel i, (i <= p)%nat -> (len line < fuel + i)%nat ->
    tokenize_line fuel pattern lineno line i = Raise AssertionError.
Proof.
  intros Hp Hdead. induction fuel; intros i Hi Hf; simpl; [lia|].
  destruct (pattern_match pattern line i) as [[[ty va] e]|] eqn:E.
  - pose proof (pattern_match_inside _ _ _ _ E) as [He Hin].
    assert (e <= p)%nat.
    { destruct (Nat.eq_dec i p) as [->|]; [congruence|].
      destruct (Nat.le_gt_cases e p); auto.
      exfalso; apply (Hin p); [lia | auto]. }
    rewrite IHfuel; auto; lia.
  - destruct (Nat.eqb_spec i (len line)); [lia | auto].
Qed.

Lemma tokenize_lines_total (ls : list string) :
  forall lineno,
    (exists ts, tokenize_lines pattern lineno ls = Ok ts) \/
    tokenize_lines pattern lineno ls = Raise AssertionError.
Proof.
  induction ls as [|l ls IH]; intros lineno; cbn [tokenize_lines]; eauto.
  destruct (tokenize_line_total lineno l (S (len l)) 0) as [[ts E] | E];
    [lia | |]; rewrite E; cbn [bind]; auto.
  destruct (IH (lineno + 1)) as [[rest ->] | ->]; cbn [bind]; eauto.
Qed.

(** No rule matches at offset [p] of [l], inside the line. *)
Definition dead (l : string) (p : nat) : Prop :=
  (p < len l)%nat /\ pattern_match pattern l p = None.

Lemma tokenize_lines_dead (ls : list string) :
  forall lineno,
    (exists l p, In l ls /\ dead l p) ->
    tokenize_lines pattern lineno ls = Raise AssertionError.
Proof.
  induction ls as [|l ls IH]; intros lineno (l0 & p & Hin & Hp & Hd);
    cbn [tokenize_lines In] in *; [tauto|].
  destruct Hin as [-> | Hin].
  - rewrite (tokenize_line_dead lineno l0 p Hp Hd); auto; lia.
  - destruct (tokenize_line_total lineno l (S (len l)) 0) as [[ts E] | E];
      [lia | |]; rewrite E; cbn [bind]; auto.
    rewrite IH; eauto. exists l0, p; repeat split; auto.
Qed.

(** The tokens of one line, as the loop leaves them: each starts where the
    one before ended, from [from] up to [to]. *)
Fixpoint contiguous (ts : list TokenInfo) (from to : Z) : Prop :=
  match ts with
  | [] => from = to
  | t :: ts' => start t = from /\ start t < end_ t /\ contiguous ts' (end_ t) to
  end.

Lemma join_empty_cons (p : string) (rest : list string) :
  join "" (p :: rest) = p ++ join "" rest.
Proof. destruct rest; simpl; auto. now rewrite app_empty_r. Qed.

Lemma tokenize_line_covers (lineno : Z) (l : string) :
  forall fuel i ts,
    tokenize_line fuel pattern lineno l i = Ok ts ->
    contiguous ts (Z.of_nat i) (Z.of_nat (len l)) /\
    join "" (map string_ ts) = drop i l /\
    Forall (fun t => line t = lineno /\
                     string_ t = take (Z.to_nat (end_ t - start t))
                                      (drop (Z.to_nat (start t)) l)) ts.
Proof.
  induction fuel; intros i ts H; simpl in H; [discriminate|].
  destruct (pattern_match pattern l i) as [[[ty va] e]|] eqn:E.
  - destruct (tokenize_line fuel pattern lineno l e) as [rest| |] eqn:R;
      simpl in H; try discriminate.
    injection H as <-.
    apply pattern_match_inside in E as [He _].
    apply IHfuel in R as (Hc & Hj & Hf).
    split; [|split].
    + cbn [contiguous start end_]; repeat split; auto; lia.
    + cbn [map]. rewrite join_empty_cons. cbn [string_]. rewrite Hj.
      replace e with (i + (e - i))%nat at 2 by lia.
      rewrite <- drop_drop. apply take_drop.
    + constructor; auto; cbn [line string_ start end_]. split; auto.
      rewrite Nat2Z.id. f_equal; lia.
  - destruct (Nat.eqb_spec i (len l)); [|discriminate].
    injection H as <-; subst i; simpl; repeat split; auto.
    now rewrite drop_all.
Qed.

(** The tokens of a text, line by line. *)
Definition covers (l : string) (lineno : Z) (ts : list TokenInfo) : Prop :=
  contiguous ts 0 (Z.of_nat (len l)) /\
  join "" (map string_ ts) = l /\
  Forall (fun t => line t = lineno /\
                   string_ t = take (Z.to_nat (end_ t - start t))
                                    (drop (Z.to_nat (start t)) l)) ts.

Fixpoint lines_covered (lineno : Z) (ls : list string)
  (tss : list (list TokenInfo)) : Prop :=
  match ls, tss with
  | [], [] => True
  | l :: ls', ts :: tss' => covers l lineno ts /\ lines_covered (lineno + 1) ls' tss'
  | _, _ => False
  end.

Lemma tokenize_lines_covered (ls : list string) :
  forall lineno ts,
    tokenize_lines pattern lineno ls = Ok ts ->
    exists tss, ts = concat tss /\ lines_covered lineno ls tss.
Proof.
  induction ls as [|l ls IH]; intros lineno ts H; cbn [tokenize_lines] in H.
  - injection H as <-. now exists [].
  - destruct (tokenize_line (S (len l)) pattern lineno l 0) as [tl| |] eqn:E;
      cbn [bind] in H; try discriminate.
    destruct (tokenize_lines pattern (lineno + 1) ls) as [rest| |] eqn:R;
      cbn [bind] in H; try discriminate.
    injection H as <-.
    apply IH in R as (tss & -> & Hc).
    apply tokenize_line_covers in E.
    exists (tl :: tss); simpl; repeat split; auto; apply E.
Qed.

(** ** Lines *)

Lemma In_str_app (c : ascii) (a b : string) :
  In_str c (a ++ b) <-> In_str c a \/ In_str c b.
Proof. induction a; simpl; tauto. Qed.

(** A character that ends no line is kept by [splitlines]. *)
Lemma splitlines_from_keeps (c : ascii) :
  is_linebreak c = false ->
  forall n s cur, (len s <= n)%nat ->
    In_str c cur \/ In_str c s ->
    exists l, In l (splitlines_from cur s) /\ In_str c l.
Proof.
  intros Hc. induction n; intros s cur Hn H.
  - destruct s; simpl in *; [|lia].
    destruct H as [H|[]]. destruct cur; [destruct H|]. eexists; simpl; eauto.
  - destruct s as [|d s]; simpl in *.
    + destruct H as [H|[]]. destruct cur; [destruct H|]. eexists; simpl; eauto.
    + assert (Hd : d = c -> is_linebreak d = false) by (now intros ->).
      destruct (code d =? 13)%nat eqn:E13.
      { assert (d <> c).
        { intros ->. unfold is_linebreak, between in Hc.
          apply Nat.eqb_eq in E13. rewrite E13 in Hc. discriminate. }
        destruct s as [|d' s].
        - destruct H as [H|[H|[]]]; [|congruence]. eexists; simpl; eauto.
        - destruct (code d' =? 10)%nat eqn:E10.
          + assert (d' <> c).
            { intros ->. unfold is_linebreak, between in Hc.
              apply Nat.eqb_eq in E10. rewrite E10 in Hc. discriminate. }
            destruct H as [H|[H|[H|H]]]; try congruence.
            * eexists; simpl; eauto.
            * destruct (IHn s "") as (l & ? & ?); simpl in *; auto; try lia.
              exists l; simpl; auto.
          + destruct H as [H|[H|H]]; try congruence.
            * eexists; simpl; eauto.
            * destruct (IHn (String d' s) "") as (l & ? & ?);
                simpl in *; auto; try lia.
              exists l; simpl; auto. }
      destruct (is_linebreak d) eqn:El.
      * destruct H as [H|[H|H]].
        -- eexists; simpl; eauto.
        -- specialize (Hd H); congruence.
        -- destruct (IHn s "") as (l & ? & ?); simpl in *; auto; try lia.
           exists l; simpl; auto.
      * apply IHn; [lia|]. rewrite In_str_app; simpl. tauto.
Qed.

Lemma splitlines_keeps (c : ascii) (text : string) :
  is_linebreak c = false -> In_str c text ->
  exists l, In l (splitlines text) /\ In_str c l.
Proof.
  intros Hc H. apply (splitlines_from_keeps c Hc (len text)); auto.
Qed.

Lemma In_str_drop (c : ascii) (l : string) :
  In_str c l -> exists p rest, (p < len l)%nat /\ drop p l = String c rest.
Proof.
  induction l as [|d l IH]; simpl; [tauto|].
  intros [-> | H].
  - exists O, l; split; [lia | reflexivity].
  - destruct (IH H) as (p & rest & ? & ?). exists (S p), rest; split; [lia|auto].
Qed.

Lemma ESC_dead (rest : string) : alt_match pattern (String ESC rest) = None.
Proof. reflexivity. Qed.

(** A text with an escape character in it is not tokenized. *)
Lemma tokenize_ESC (text : string) :
  In_str ESC text -> tokenize text pattern = Raise AssertionError.
Proof.
  intros H. apply splitlines_keeps in H as (l & Hl & H); [|reflexivity].
  apply In_str_drop in H as (p & rest & Hp & E).
  apply tokenize_lines_dead. exists l, p; repeat split; auto.
  unfold pattern_match. now rewrite E, ESC_dead.
Qed.

(** ** Results *)

Lemma bind_Ok {A B} (r : result A) (k : A -> result B) (b : B) :
  bind r k = Ok b -> exists a, r = Ok a /\ k a = Ok b.
Proof. destruct r; simpl; try discriminate; eauto. Qed.

(** ** Looking ahead in the tokens *)

Definition end_token (i : Z) : TokenInfo := mkToken "end" "end" "" i i 1.

Lemma slice_from_nonneg {A} (l : list A) (i : Z) :
  0 <= i -> slice_from l i = skipn (Z.to_nat i) l.
Proof. unfold slice_from. destruct (Z.ltb_spec i 0); auto; lia. Qed.

Lemma get_from_bounds (l : list TokenInfo) :
  forall j j' t, get_from l j = Some (j', t) ->
    j < j' <= j + Z.of_nat (length l) /\ is_type t "space" = false /\
    nth_error l (Z.to_nat (j' - j - 1)) = Some t.
Proof.
  induction l as [|a l IH]; intros j j' t H; simpl in H; [discriminate|].
  destruct (is_type a "space") eqn:E.
  - apply IH in H as (? & ? & Hn). simpl length. repeat split; auto; try lia.
    replace (Z.to_nat (j' - j - 1)) with (S (Z.to_nat (j' - (j + 1) - 1)))
      by lia. auto.
  - injection H as <- <-. simpl length. repeat split; auto; try lia.
    replace (j + 1 - j - 1) with 0 by lia. reflexivity.
Qed.

Lemma get_from_firstn (l : list TokenInfo) :
  forall k j,
    get_from (firstn k l) j =
    match get_from l j with
    | Some (j', t) => if j' - j <=? Z.of_nat k then Some (j', t) else None
    | None => None
    end.
Proof.
  induction l as [|a l IH]; intros k j.
  - now rewrite firstn_nil.
  - destruct k.
    + simpl firstn.
      destruct (get_from (a :: l) j) as [[j' t]|] eqn:E; [|reflexivity].
      apply get_from_bounds in E.
      destruct (Z.leb_spec (j' - j) (Z.of_nat 0)); [lia | reflexivity].
    + cbn [firstn get_from]. destruct (is_type a "space").
      * rewrite IH. destruct (get_from l (j + 1)) as [[j' t]|]; auto.
        destruct (Z.leb_spec (j' - (j + 1)) (Z.of_nat k));
          destruct (Z.leb_spec (j' - j) (Z.of_nat (S k))); auto; lia.
      * destruct (Z.leb_spec (j + 1 - j) (Z.of_nat (S k))); auto; lia.
Qed.

Lemma get_token_from_get (l : list TokenInfo) (j : Z) :
  get_token_from l = option_map snd (get_from l j).
Proof.
  revert j; induction l as [|a l IH]; intros j; simpl; auto.
  destruct (is_type a "space"); auto.
Qed.

Lemma _i_from_get (l : list TokenInfo) :
  forall j seen j' t, get_from l j = Some (j', t) -> _i_from l j seen = Ok j'.
Proof.
  induction l as [|a l IH]; intros j seen j' t H; simpl in *; [discriminate|].
  destruct (is_type a "space"); eauto. now injection H as <- <-.
Qed.

(** What [get] gives at a position that is not negative: the token "end",
    or a token that is no space, further on and within the tokens. *)
Lemma get_spec (ts : list TokenInfo) (i j : Z) (t : TokenInfo) :
  0 <= i -> get ts i = (j, t) ->
  (j = -1 /\ t = end_token i /\ get_token ts i = None) \/
  (i < j <= Z.of_nat (length ts) /\ is_type t "space" = false /\
   get_token ts i = Some t /\ _i ts i = Ok j /\
   index ts (j - 1) = Some t).
Proof.
  intros Hi. unfold get, get_token, _i.
  rewrite (get_token_from_get _ i), slice_from_nonneg by auto.
  destruct (get_from (skipn (Z.to_nat i) ts) i) as [[j' t']|] eqn:E.
  - intros [= -> ->]. right.
    pose proof (_i_from_get _ _ None _ _ E) as Hi'.
    apply get_from_bounds in E as (Hb & Hs & Hn).
    rewrite length_skipn in Hb.
    repeat split; auto; try lia.
    unfold index. destruct (Z.ltb_spec (j - 1) 0); [lia|].
    rewrite nth_error_skipn in Hn. rewrite <- Hn. f_equal. lia.
  - intros [= <- <-]. left; auto.
Qed.

Lemma skipn_firstn_Z {A} (ts : list A) (i m : Z) :
  0 <= i ->
  skipn (Z.to_nat i) (firstn (Z.to_nat m) ts)
  = firstn (Z.to_nat (m - i)) (skipn (Z.to_nat i) ts).
Proof.
  intros Hi. rewrite skipn_firstn_comm. f_equal. lia.
Qed.

(** [get] on the first [m] tokens: the same token when it lies among them,
    the token "end" otherwise. *)
Lemma get_prefix (ts : list TokenInfo) (i m : Z) :
  0 <= i ->
  get (firstn (Z.to_nat m) ts) i =
  (if (fst (get ts i) <=? m) && negb (fst (get ts i) =? -1)
   then get ts i else (-1, end_token i)).
Proof.
  intros Hi. unfold get. rewrite !slice_from_nonneg, skipn_firstn_Z by auto.
  rewrite get_from_firstn.
  destruct (get_from (skipn (Z.to_nat i) ts) i) as [[j t]|] eqn:E; simpl.
  - apply get_from_bounds in E as (Hb & _).
    destruct (Z.leb_spec (j - i) (Z.of_nat (Z.to_nat (m - i))));
      destruct (Z.leb_spec j m); destruct (Z.eqb_spec j (-1)); simpl; auto; lia.
  - now destruct (Z.leb_spec (-1) m).
Qed.

(** A token the parser does nothing with. *)
Definition inert (t : TokenInfo) : Prop :=
  type t = "end" /\ variant t = "end".

Lemma get_prefix_cases (ts : list TokenInfo) (i m : Z) :
  0 <= i ->
  (get (firstn (Z.to_nat m) ts) i = get ts i /\ fst (get ts i) <= m) \/
  (get (firstn (Z.to_nat m) ts) i = (-1, end_token i)).
Proof.
  intros Hi. rewrite get_prefix by auto.
  destruct (Z.leb_spec (fst (get ts i)) m); simpl; auto.
  destruct (Z.eqb_spec (fst (get ts i)) (-1)); simpl; auto.
Qed.

Lemma get_prefix_same (ts : list TokenInfo) (i m j : Z) (t : TokenInfo) :
  0 <= i -> get ts i = (j, t) -> j <> -1 -> j <= m ->
  get (firstn (Z.to_nat m) ts) i = (j, t).
Proof.
  intros Hi E Hj Hm. rewrite get_prefix, E by auto. simpl.
  destruct (Z.leb_spec j m); destruct (Z.eqb_spec j (-1)); simpl; auto; lia.
Qed.

(** ** String literals *)

Lemma parse_string_from_bounds tokens start i (l : list TokenInfo) :
  forall j escape i' e,
    parse_string_from tokens start i l j escape = Some (i', e) ->
    j < i' <= j + Z.of_nat (length l).
Proof.
  induction l as [|t l IH]; intros j escape i' e H; cbn [parse_string_from] in H;
    [discriminate|].
  cbn [length]. destruct escape.
  - apply IH in H. lia.
  - destruct (is_variant t start).
    + injection H as <- <-. lia.
    + destruct (is_variant t "escape"); apply IH in H; lia.
Qed.

Lemma parse_string_from_firstn tokens tokens' start i (l : list TokenInfo) :
  forall j escape i' e k,
    parse_string_from tokens start i l j escape = Some (i', e) ->
    i' - j <= Z.of_nat k ->
    slice tokens' i (i' - 1) = slice tokens i (i' - 1) ->
    parse_string_from tokens' start i (firstn k l) j escape = Some (i', e).
Proof.
  induction l as [|t l IH]; intros j escape i' e k H Hk Hs;
    [discriminate|].
  cbn [parse_string_from] in H.
  destruct k.
  - exfalso. destruct escape; [|destruct (is_variant t start)].
    + apply parse_string_from_bounds in H; lia.
    + injection H as <- <-; lia.
    + destruct (is_variant t "escape");
        apply parse_string_from_bounds in H; lia.
  - cbn [firstn parse_string_from]. destruct escape.
    + apply IH; auto; lia.
    + destruct (is_variant t start).
      * injection H as <- <-. replace (j + 1 - 1) with j in Hs by lia.
        now rewrite Hs.
      * destruct (is_variant t "escape"); apply IH; auto; lia.
Qed.

Lemma slice_prefix {A} (ts : list A) (i j m : Z) :
  0 <= i <= j -> j <= m -> j <= Z.of_nat (length ts) ->
  slice (firstn (Z.to_nat m) ts) i j = slice ts i j.
Proof.
  intros Hi Hm Hj. unfold slice. rewrite length_firstn.
  destruct (Z.ltb_spec i 0); [lia|]. destruct (Z.ltb_spec j 0); [lia|].
  rewrite !Z.min_l by lia.
  rewrite skipn_firstn_comm, firstn_firstn. f_equal. lia.
Qed.

Lemma index_prefix {A} (ts : list A) (i m : Z) :
  0 <= i < m -> index (firstn (Z.to_nat m) ts) i = index ts i.
Proof.
  intros Hi. unfold index. destruct (Z.ltb_spec i 0); [lia|].
  rewrite nth_error_firstn.
  destruct (Nat.ltb_spec (Z.to_nat i) (Z.to_nat m)); auto; lia.
Qed.

(** A string literal that was read ends within the tokens, and is read the
    same from the tokens up to its end. *)
Lemma parse_string_spec (ts : list TokenInfo) (i i' : Z) (e : Element) :
  1 <= i -> parse_string ts i = Ok (Some (i', e)) ->
  i < i' <= Z.of_nat (length ts) /\
  forall m, i' <= m ->
    parse_string (firstn (Z.to_nat m) ts) i = Ok (Some (i', e)).
Proof.
  intros Hi H. unfold parse_string in *.
  destruct (index ts (i - 1)) as [t|] eqn:E; [|discriminate].
  injection H as H. rewrite slice_from_nonneg in H by lia.
  pose proof (parse_string_from_bounds _ _ _ _ _ _ _ _ H) as Hb.
  rewrite length_skipn in Hb.
  split; [lia|]. intros m Hm.
  rewrite index_prefix, E by lia.
  rewrite slice_from_nonneg, skipn_firstn_Z by lia.
  rewrite (parse_string_from_firstn ts (firstn (Z.to_nat m) ts) _ _ _ _ _ _ _
             (Z.to_nat (m - i)) H); auto; try lia.
  apply slice_prefix; lia.
Qed.

(** ** Inverting a run of the parser *)

Ltac unfold_parser_in H :=
  cbn [parse_term parse_collection collection_loop
       parse_post_expression post_loop parse_prod_expression prod_loop
       parse_sum_expression sum_loop parse_comp_expression comp_loop
       parse_logical_expression logical_loop parse_function_expression] in H.

Ltac unfold_parser :=
  cbn [parse_term parse_collection collection_loop
       parse_post_expression post_loop parse_prod_expression prod_loop
       parse_sum_expression sum_loop parse_comp_expression comp_loop
       parse_logical_expression logical_loop parse_function_expression].

(** One step of the inversion of [H : ... = Ok _]. *)
Ltac invert_step H :=
  match type of H with
  | Ok _ = Ok _ => injection H as ? ?; subst
  | Raise _ = Ok _ => discriminate H
  | Fuel = Ok _ => discriminate H
  | bind _ _ = Ok _ =>
      let x := fresh "x" in let Hx := fresh "Hrun" in
      apply bind_Ok in H as (x & Hx & H);
      try (destruct x as [? ?])
  | (let '(_, _) := ?g in _) = Ok _ =>
      let G := fresh "Hget" in destruct g as [? ?] eqn:G
  | (if ?c then _ else _) = Ok _ =>
      let C := fresh "Htest" in destruct c eqn:C
  | match ?g with Some _ => _ | None => _ end = Ok _ =>
      let G := fresh "Hopt" in destruct g as [?|] eqn:G
  | match ?g with (_, _) => _ end = Ok _ =>
      let G := fresh "Hget" in destruct g as [? ?] eqn:G
  end.

Ltac invert_run H := unfold_parser_in H; repeat invert_step H.

(** When [get_token] finds a token, [_i] is the index after it, and [get]
    gives both. *)
Lemma get_token_i (ts : list TokenInfo) (i i' : Z) (t : TokenInfo) :
  0 <= i -> get_token ts i = Some t -> _i ts i = Ok i' ->
  get ts i = (i', t) /\ i < i' <= Z.of_nat (length ts).
Proof.
  intros Hi Ht Hi'. destruct (get ts i) as [j t'] eqn:G.
  apply get_spec in G as [(_ & _ & E) | (? & _ & E1 & E2 & _)]; auto;
    [congruence|].
  split; [congruence|]. assert (i' = j) by congruence. lia.
Qed.

(** A [get] whose outcome has been looked at. *)
Definition got (ts : list TokenInfo) (i : Z) (r : Z * TokenInfo) : Prop :=
  get ts i = r.

(** What is known of the token a [get] of the run gave. *)
Ltac use_get :=
  match goal with
  | G : get ?ts ?i = (?j, ?t) |- _ =>
      let S := fresh "Hspec" in
      assert (S := get_spec ts i j t ltac:(lia) G);
      change (got ts i (j, t)) in G;
      destruct S as [(? & ? & ?) | (? & ? & _ & _ & ?)];
      [ subst;
        try match goal with
            | H : _ (end_token _) _ = true |- _ => now cbv in H
            end
      | ]
  end.

(** ** The parser moves forward *)

(** A parse from [i] to [i'] takes at least the first token that is no
    space. *)
Definition advances (ts : list TokenInfo) (i i' : Z) : Prop :=
  i < fst (get ts i) <= i' /\ i' <= Z.of_nat (length ts).

Definition stays (ts : list TokenInfo) (i i' : Z) : Prop :=
  0 <= i <= Z.of_nat (length ts) -> i <= i' <= Z.of_nat (length ts).

Definition bounds_at (n : nat) : Prop :=
  (forall ts i i' e, parse_term n ts i = Ok (i', e) -> 0 <= i -> advances ts i i') /\
  (forall ts i i' c, parse_collection n ts i = Ok (i', c) -> 0 <= i -> advances ts i i') /\
  (forall ts i a i' c, collection_loop n ts i a = Ok (i', c) -> 0 <= i -> advances ts i i') /\
  (forall ts i i' e, parse_post_expression n ts i = Ok (i', e) -> 0 <= i -> advances ts i i') /\
  (forall ts i l i' e, post_loop n ts i l = Ok (i', e) -> stays ts i i') /\
  (forall ts i i' e, parse_prod_expression n ts i = Ok (i', e) -> 0 <= i -> advances ts i i') /\
  (forall ts i l i' e, prod_loop n ts i l = Ok (i', e) -> stays ts i i') /\
  (forall ts i i' e, parse_sum_expression n ts i = Ok (i', e) -> 0 <= i -> advances ts i i') /\
  (forall ts i l i' e, sum_loop n ts i l = Ok (i', e) -> stays ts i i') /\
  (forall ts i i' e, parse_comp_expression n ts i = Ok (i', e) -> 0 <= i -> advances ts i i') /\
  (forall ts i l i' e, comp_loop n ts i l = Ok (i', e) -> stays ts i i') /\
  (forall ts i i' e, parse_logical_expression n ts i = Ok (i', e) -> 0 <= i -> advances ts i i') /\
  (forall ts i l i' e, logical_loop n ts i l = Ok (i', e) -> stays ts i i') /\
  (forall ts i i' e, parse_function_expression n ts i = Ok (i', e) -> 0 <= i -> advances ts i i').

Ltac use_comma :=
  match goal with
  | H : context [if is_variant ?t "comma" then _ else _] |- _ =>
      let C := fresh "Hcomma" in
      destruct (is_variant t "comma") eqn:C;
      try (now cbv in C)
  end.

Ltac use_close :=
  match goal with
  | H : _i ?ts ?i = Ok ?i', G : get_token ?ts ?i = Some ?t |- _ =>
      let B := fresh "Hclose" in
      assert (B := get_token_i ts i i' t ltac:(lia) G H); clear H;
      destruct B as [B ?]; change (got ts i (i', t)) in B
  end.

Ltac use_string :=
  match goal with
  | H : parse_string ?ts ?i = Ok (Some (?i', ?e)) |- _ =>
      apply parse_string_spec in H; [destruct H as [? _] | lia]
  end.

Lemma parser_bounds (n : nat) : bounds_at n.
Proof.
  induction n as [|n IH].
  - repeat split; intros; discriminate.
  - destruct IH as (IHterm & IHcoll & IHcloop & IHpost & IHpostl & IHprod &
                    IHprodl & IHsum & IHsuml & IHcomp & IHcompl & IHlog &
                    IHlogl & IHfun).
    repeat split; intros; unfold advances, stays in *; intros;
      match goal with H : _ = Ok _ |- _ => invert_run H end;
      repeat first
        [ use_get
        | use_string
        | use_comma
        | use_close
        | match goal with
          | H : _ = Ok _ |- _ =>
              first [ apply IHterm in H | apply IHcoll in H
                    | apply IHcloop in H | apply IHpost in H
                    | apply IHpostl in H | apply IHprod in H
                    | apply IHprodl in H | apply IHsum in H
                    | apply IHsuml in H | apply IHcomp in H
                    | apply IHcompl in H | apply IHlog in H
                    | apply IHlogl in H | apply IHfun in H ];
              [ | lia .. ]
          end ];
      unfold got in *;
      repeat match goal with
             | G : get _ _ = _ |- _ => rewrite G in *; clear G
             end;
      simpl fst in *;
      try lia.
Qed.

(** ** The parser reads no further than it returns *)

Lemma get_token_prefix (ts : list TokenInfo) (i m : Z) (t : TokenInfo) :
  0 <= i -> get_token ts i = Some t -> fst (get ts i) <= m ->
  get_token (firstn (Z.to_nat m) ts) i = Some t /\
  _i (firstn (Z.to_nat m) ts) i = _i ts i.
Proof.
  intros Hi Ht Hm. destruct (get ts i) as [j t'] eqn:G. simpl in Hm.
  pose proof G as S.
  apply get_spec in S as [(_ & _ & E) | (? & _ & E1 & E2 & _)]; auto;
    [congruence|].
  pose proof (get_prefix_same ts i m j t' Hi G ltac:(lia) Hm) as G'.
  apply get_spec in G' as [(? & _) | (_ & _ & E1' & E2' & _)]; auto; [lia|].
  split; congruence.
Qed.

(** A run whose outcome has been looked at. *)
Definition ran {A} (r : result A) (v : A) : Prop := r = Ok v.

Definition prefix_at (n : nat) : Prop :=
  (forall ts i i' e, parse_term n ts i = Ok (i', e) -> 0 <= i ->
     forall m, i' <= m -> parse_term n (firstn (Z.to_nat m) ts) i = Ok (i', e)) /\
  (forall ts i i' c, parse_collection n ts i = Ok (i', c) -> 0 <= i ->
     forall m, i' <= m -> parse_collection n (firstn (Z.to_nat m) ts) i = Ok (i', c)) /\
  (forall ts i a i' c, collection_loop n ts i a = Ok (i', c) -> 0 <= i ->
     forall m, i' <= m -> collection_loop n (firstn (Z.to_nat m) ts) i a = Ok (i', c)) /\
  (forall ts i i' e, parse_post_expression n ts i = Ok (i', e) -> 0 <= i ->
     forall m, i' <= m -> parse_post_expression n (firstn (Z.to_nat m) ts) i = Ok (i', e)) /\
  (forall ts i l i' e, post_loop n ts i l = Ok (i', e) -> 0 <= i <= Z.of_nat (length ts) ->
     forall m, i' <= m -> post_loop n (firstn (Z.to_nat m) ts) i l = Ok (i', e)) /\
  (forall ts i i' e, parse_prod_expression n ts i = Ok (i', e) -> 0 <= i ->
     forall m, i' <= m -> parse_prod_expression n (firstn (Z.to_nat m) ts) i = Ok (i', e)) /\
  (forall ts i l i' e, prod_loop n ts i l = Ok (i', e) -> 0 <= i <= Z.of_nat (length ts) ->
     forall m, i' <= m -> prod_loop n (firstn (Z.to_nat m) ts) i l = Ok (i', e)) /\
  (forall ts i i' e, parse_sum_expression n ts i = Ok (i', e) -> 0 <= i ->
     forall m, i' <= m -> parse_sum_expression n (firstn (Z.to_nat m) ts) i = Ok (i', e)) /\
  (forall ts i l i' e, sum_loop n ts i l = Ok (i', e) -> 0 <= i <= Z.of_nat (length ts) ->
     forall m, i' <= m -> sum_loop n (firstn (Z.to_nat m) ts) i l = Ok (i', e)) /\
  (forall ts i i' e, parse_comp_expression n ts i = Ok (i', e) -> 0 <= i ->
     forall m, i' <= m -> parse_comp_expression n (firstn (Z.to_nat m) ts) i = Ok (i', e)) /\
  (forall ts i l i' e, comp_loop n ts i l = Ok (i', e) -> 0 <= i <= Z.of_nat (length ts) ->
     forall m, i' <= m -> comp_loop n (firstn (Z.to_nat m) ts) i l = Ok (i', e)) /\
  (forall ts i i' e, parse_logical_expression n ts i = Ok (i', e) -> 0 <= i ->
     forall m, i' <= m -> parse_logical_expression n (firstn (Z.to_nat m) ts) i = Ok (i', e)) /\
  (forall ts i l i' e, logical_loop n ts i l = Ok (i', e) -> 0 <= i <= Z.of_nat (length ts) ->
     forall m, i' <= m -> logical_loop n (firstn (Z.to_nat m) ts) i l = Ok (i', e)) /\
  (forall ts i i' e, parse_function_expression n ts i = Ok (i', e) -> 0 <= i ->
     forall m, i' <= m -> parse_function_expression n (firstn (Z.to_nat m) ts) i = Ok (i', e)).

(** [P] becomes what [B], a conjunction over the fourteen functions of the
    parser, says of the run [H]. *)
Ltac run_fact B H P :=
  first
    [ assert (P := proj1 B _ _ _ _ H)
    | assert (P := proj1 (proj2 B) _ _ _ _ H)
    | assert (P := proj1 (proj2 (proj2 B)) _ _ _ _ _ H)
    | assert (P := proj1 (proj2 (proj2 (proj2 B))) _ _ _ _ H)
    | assert (P := proj1 (proj2 (proj2 (proj2 (proj2 B)))) _ _ _ _ _ H)
    | assert (P := proj1 (proj2 (proj2 (proj2 (proj2 (proj2 B))))) _ _ _ _ H)
    | assert (P := proj1 (proj2 (proj2 (proj2 (proj2 (proj2 (proj2 B)))))) _ _ _ _ _ H)
    | assert (P := proj1 (proj2 (proj2 (proj2 (proj2 (proj2 (proj2 (proj2 B))))))) _ _ _ _ H)
    | assert (P := proj1 (proj2 (proj2 (proj2 (proj2 (proj2 (proj2 (proj2 (proj2 B)))))))) _ _ _ _ _ H)
    | assert (P := proj1 (proj2 (proj2 (proj2 (proj2 (proj2 (proj2 (proj2 (proj2 (proj2 B))))))))) _ _ _ _ H)
    | assert (P := proj1 (proj2 (proj2 (proj2 (proj2 (proj2 (proj2 (proj2 (proj2 (proj2 (proj2 B)))))))))) _ _ _ _ _ H)
    | assert (P := proj1 (proj2 (proj2 (proj2 (proj2 (proj2 (proj2 (proj2 (proj2 (proj2 (proj2 (proj2 B))))))))))) _ _ _ _ H)
    | assert (P := proj1 (proj2 (proj2 (proj2 (proj2 (proj2 (proj2 (proj2 (proj2 (proj2 (proj2 (proj2 (proj2 B)))))))))))) _ _ _ _ _ H)
    | assert (P := proj2 (proj2 (proj2 (proj2 (proj2 (proj2 (proj2 (proj2 (proj2 (proj2 (proj2 (proj2 (proj2 B)))))))))))) _ _ _ _ H) ].

(** The facts of [parser_bounds] for a run of the hypotheses. *)
Ltac bound_run n :=
  match goal with
  | H : ?r = Ok (?i', ?v) |- _ =>
      lazymatch r with
      | parse_string _ _ => fail
      | _i _ _ => fail
      | _ => idtac
      end;
      let B := fresh "Hb" in
      let B' := fresh "Hbound" in
      pose proof (parser_bounds n) as B;
      unfold bounds_at in B;
      run_fact B H B';
      clear B; unfold advances, stays in B';
      change (ran r (i', v)) in H
  end.

Ltac know_get :=
  match goal with
  | G : get ?ts ?i = (?j, ?t) |- _ =>
      let S := fresh "Hspec" in
      let F := fresh "Hfst" in
      assert (S := get_spec ts i j t ltac:(lia) G);
      assert (F : fst (get ts i) = j) by (rewrite G; reflexivity);
      change (got ts i (j, t)) in G;
      destruct S as [(? & ? & ?) | (? & ? & _ & _ & _)];
      [ subst;
        try congruence;
        try match goal with
            | H : _ (end_token _) _ = true |- _ => now cbv in H
            end
      | ]
  end.

Ltac know_bound :=
  match goal with
  | B : 0 <= ?z -> _ /\ _ |- _ =>
      let H := fresh in
      assert (H : 0 <= z) by lia; specialize (B H); clear H;
      destruct B as [? ?]
  | B : 0 <= ?z <= ?l -> _ |- _ =>
      let H := fresh in
      assert (H : 0 <= z <= l) by lia; specialize (B H); clear H
  end.

Ltac know_string :=
  match goal with
  | H : parse_string ?ts ?i = Ok (Some (?i', ?e)) |- _ =>
      let S := fresh "Hstring" in
      assert (S := parse_string_spec ts i i' e ltac:(lia) H);
      change (ran (parse_string ts i) (Some (i', e))) in H;
      destruct S as [? ?]
  end.

Ltac know_close :=
  match goal with
  | H : _i ?ts ?i = Ok ?i', G : get_token ?ts ?i = Some ?t |- _ =>
      let B := fresh "Hclose" in
      assert (B := get_token_i ts i i' t ltac:(lia) G H);
      change (ran (_i ts i) i') in H;
      destruct B as [? _]
  end.

Ltac know n :=
  repeat first
    [ know_get | know_bound | know_string | know_close | use_comma
    | bound_run n ].

(** The same run, step by step, on the first [m] tokens; the induction
    hypotheses are those of the proof below. *)
Ltac on_prefix n IH :=
  unfold_parser;
  repeat first
    [ match goal with
      | G : got ?ts ?i (?j, ?t)
        |- context [get (firstn (Z.to_nat ?m) ?ts) ?i] =>
          first
            [ rewrite (get_prefix_same ts i m j t ltac:(lia) G
                         ltac:(lia) ltac:(lia))
            | let E := fresh in
              destruct (get_prefix_cases ts i m ltac:(lia)) as [[E _] | E];
              rewrite E; [unfold got in G; rewrite G | ] ]
      end
    | match goal with
      | G : get_token ?ts ?i = Some ?t
        |- context [get_token (firstn (Z.to_nat ?m) ?ts) ?i] =>
          rewrite (proj1 (get_token_prefix ts i m t ltac:(lia) G ltac:(lia)))
      end
    | match goal with
      | G : get_token ?ts ?i = Some ?t, H : ran (_i ?ts ?i) ?i'
        |- context [_i (firstn (Z.to_nat ?m) ?ts) ?i] =>
          rewrite (proj2 (get_token_prefix ts i m t ltac:(lia) G ltac:(lia)));
          unfold ran in H; rewrite H
      end
    | match goal with
      | H : ?c = ?b |- context [if ?c then _ else _] => rewrite H
      end
    | match goal with
      | |- context [is_type (end_token ?i) ?s] =>
          change (is_type (end_token i) s) with false
      | |- context [is_variant (end_token ?i) ?s] =>
          change (is_variant (end_token i) s) with false
      | |- context [variant_in (end_token ?i) ?s] =>
          change (variant_in (end_token i) s) with false
      end
    | match goal with
      | H : ran (?f n ?ts ?j) (?i', ?v)
        |- context [?f n (firstn (Z.to_nat ?m) ?ts) ?j] =>
          let E := fresh in
          assert (E : f n (firstn (Z.to_nat m) ts) j = Ok (i', v))
            by (apply IH; [exact H | lia | lia]);
          rewrite E; clear E
      | H : ran (?f n ?ts ?j ?l) (?i', ?v)
        |- context [?f n (firstn (Z.to_nat ?m) ?ts) ?j ?l] =>
          let E := fresh in
          assert (E : f n (firstn (Z.to_nat m) ts) j l = Ok (i', v))
            by (apply IH; [exact H | lia | lia]);
          rewrite E; clear E
      | H : ran (parse_string ?ts ?j) _, S : forall m, _ -> parse_string _ ?j = _
        |- context [parse_string (firstn (Z.to_nat ?m) ?ts) ?j] =>
          rewrite (S m ltac:(lia))
      end
    | progress cbn [bind negb]
    | progress cbv beta iota zeta ].

Lemma parser_prefix (n : nat) : prefix_at n.
Proof.
  induction n as [|n IH].
  - repeat split; intros; discriminate.
  - unfold prefix_at in IH.
    repeat split; intros;
      match goal with H : _ = Ok _ |- _ => invert_run H end.
    all: know n.
    all: on_prefix n IH; try reflexivity.
Qed.

(** ** The shape of the trees *)

Definition tag_in (t : string) (ts : list string) : bool :=
  existsb (String.eqb t) ts.

(** The tags of what [parse_prod_expression] returns. *)
Definition product_tags : list string :=
  ["VAR"; "LIST"; "PAREN"; "NUM"; "STR"; "UNOP"; "CALL"; "GET"; "PRODOP"].

(** Every COMPARE node of [el] has three children, the third with one of
    the tags of a product. *)
Fixpoint compare_ok (el : Element) : bool :=
  let 'El tag_ _ children := el in
  forallb compare_ok children &&
  (if (tag_ =? "COMPARE")%string then
     match children with
     | [_; _; r] => tag_in (tag r) product_tags
     | _ => false
     end
   else true).

Definition product_ok (el : Element) : Prop :=
  compare_ok el = true /\ tag_in (tag el) product_tags = true.

Definition shape_at (n : nat) : Prop :=
  (forall ts i i' e, parse_term n ts i = Ok (i', e) -> product_ok e) /\
  (forall ts i i' c, parse_collection n ts i = Ok (i', c) ->
     forallb compare_ok c = true) /\
  (forall ts i a i' c, collection_loop n ts i a = Ok (i', c) ->
     forallb compare_ok a = true -> forallb compare_ok c = true) /\
  (forall ts i i' e, parse_post_expression n ts i = Ok (i', e) -> product_ok e) /\
  (forall ts i l i' e, post_loop n ts i l = Ok (i', e) ->
     product_ok l -> product_ok e) /\
  (forall ts i i' e, parse_prod_expression n ts i = Ok (i', e) -> product_ok e) /\
  (forall ts i l i' e, prod_loop n ts i l = Ok (i', e) ->
     product_ok l -> product_ok e) /\
  (forall ts i i' e, parse_sum_expression n ts i = Ok (i', e) ->
     compare_ok e = true) /\
  (forall ts i l i' e, sum_loop n ts i l = Ok (i', e) ->
     compare_ok l = true -> compare_ok e = true) /\
  (forall ts i i' e, parse_comp_expression n ts i = Ok (i', e) ->
     compare_ok e = true) /\
  (forall ts i l i' e, comp_loop n ts i l = Ok (i', e) ->
     compare_ok l = true -> compare_ok e = true) /\
  (forall ts i i' e, parse_logical_expression n ts i = Ok (i', e) ->
     compare_ok e = true) /\
  (forall ts i l i' e, logical_loop n ts i l = Ok (i', e) ->
     compare_ok l = true -> compare_ok e = true) /\
  (forall ts i i' e, parse_function_expression n ts i = Ok (i', e) ->
     compare_ok e = true).

Lemma parse_string_from_STR tokens start i (l : list TokenInfo) :
  forall j escape i' e,
    parse_string_from tokens start i l j escape = Some (i', e) ->
    exists s, e = Node "STR" (VStr s).
Proof.
  induction l as [|t l IH]; intros j escape i' e H; cbn [parse_string_from] in H;
    [discriminate|].
  destruct escape; [eauto|].
  destruct (is_variant t start); [injection H as <- <-; eauto|].
  destruct (is_variant t "escape"); eauto.
Qed.

Lemma forallb_snoc {A} (f : A -> bool) (l : list A) (x : A) :
  forallb f (l ++ [x])%list = forallb f l && f x.
Proof. rewrite forallb_app. simpl. now rewrite andb_true_r. Qed.

Ltac shape_goal :=
  repeat match goal with
         | H : _ /\ _ |- _ => destruct H
         end;
  try rewrite forallb_snoc;
  cbn [compare_ok forallb Collection Node tag String.eqb Ascii.eqb Bool.eqb];
  repeat match goal with
         | H : ?x = true |- context [?x] =>
             lazymatch x with true => fail | _ => rewrite H end
         end;
  try reflexivity.

Ltac shape_run IH :=
  match goal with
  | H : parse_string _ _ = Ok (Some _) |- _ =>
      unfold parse_string in H;
      destruct (index _ _); [|discriminate];
      injection H as H; apply parse_string_from_STR in H as [? ->]
  | H : ?r = Ok (?i', ?v) |- _ =>
      let P := fresh "Hshape" in
      run_fact IH H P; clear H
  | P : ?A -> ?B |- _ =>
      let a := fresh in
      assert (a : A) by (try split; shape_goal);
      specialize (P a); clear a
  end.

Lemma parser_shape (n : nat) : shape_at n.
Proof.
  induction n as [|n IH].
  - repeat split; intros; discriminate.
  - unfold shape_at in IH.
    repeat split; intros; unfold product_ok in *;
      match goal with H : _ = Ok _ |- _ => invert_run H end.
    all: repeat shape_run IH.
    all: shape_goal.
Qed.

(** [e] is a node of the tree [root]. *)
Inductive node_of (e : Element) : Element -> Prop :=
| node_self : node_of e e
| node_child root c : In c (children root) -> node_of e c -> node_of e root.

Lemma compare_ok_node (root e : Element) :
  node_of e root -> compare_ok root = true -> compare_ok e = true.
Proof.
  induction 1 as [|root c Hin _ IH]; auto.
  intros H. apply IH. destruct root as [t a cs]. simpl in *.
  apply andb_prop in H as [H _]. rewrite forallb_forall in H. auto.
Qed.

Lemma compare_ok_COMPARE (e : Element) :
  compare_ok e = true -> tag e = "COMPARE" ->
  exists l op r, children e = [l; op; r] /\
                 tag_in (tag r) product_tags = true.
Proof.
  destruct e as [t a cs]. simpl. intros H ->. simpl in H.
  apply andb_prop in H as [_ H].
  destruct cs as [|l [|op [|r [|]]]]; try discriminate. eauto.
Qed.

(** ** [parse_expression] *)

Lemma parse_expression_shape n ts i i' e :
  parse_expression n ts i = Ok (i', e) -> compare_ok e = true.
Proof.
  intros H. unfold parse_expression in H. pose proof (parser_shape n) as IH.
  unfold shape_at in IH. repeat invert_step H.
  all: repeat shape_run IH.
  all: shape_goal.
Qed.

Lemma parse_expression_bounds n ts i i' e :
  parse_expression n ts i = Ok (i', e) -> 0 <= i -> advances ts i i'.
Proof.
  intros H Hi. unfold parse_expression in H. repeat invert_step H.
  all: know n.
  all: unfold advances; lia.
Qed.

Lemma parse_expression_prefix n ts i i' e :
  parse_expression n ts i = Ok (i', e) -> 0 <= i ->
  forall m, i' <= m ->
    parse_expression n (firstn (Z.to_nat m) ts) i = Ok (i', e).
Proof.
  intros H Hi m Hm. unfold parse_expression in *.
  pose proof (parser_prefix n) as IH. unfold prefix_at in IH.
  repeat invert_step H.
  all: know n.
  all: on_prefix n IH; try reflexivity.
Qed.

(** ** More fuel changes nothing *)

Definition mono_at (n : nat) : Prop :=
  forall m, (n <= m)%nat ->
  (forall ts i, parse_term n ts i <> Fuel -> parse_term m ts i = parse_term n ts i) /\
  (forall ts i, parse_collection n ts i <> Fuel -> parse_collection m ts i = parse_collection n ts i) /\
  (forall ts i a, collection_loop n ts i a <> Fuel -> collection_loop m ts i a = collection_loop n ts i a) /\
  (forall ts i, parse_post_expression n ts i <> Fuel -> parse_post_expression m ts i = parse_post_expression n ts i) /\
  (forall ts i l, post_loop n ts i l <> Fuel -> post_loop m ts i l = post_loop n ts i l) /\
  (forall ts i, parse_prod_expression n ts i <> Fuel -> parse_prod_expression m ts i = parse_prod_expression n ts i) /\
  (forall ts i l, prod_loop n ts i l <> Fuel -> prod_loop m ts i l = prod_loop n ts i l) /\
  (forall ts i, parse_sum_expression n ts i <> Fuel -> parse_sum_expression m ts i = parse_sum_expression n ts i) /\
  (forall ts i l, sum_loop n ts i l <> Fuel -> sum_loop m ts i l = sum_loop n ts i l) /\
  (forall ts i, parse_comp_expression n ts i <> Fuel -> parse_comp_expression m ts i = parse_comp_expression n ts i) /\
  (forall ts i l, comp_loop n ts i l <> Fuel -> comp_loop m ts i l = comp_loop n ts i l) /\
  (forall ts i, parse_logical_expression n ts i <> Fuel -> parse_logical_expression m ts i = parse_logical_expression n ts i) /\
  (forall ts i l, logical_loop n ts i l <> Fuel -> logical_loop m ts i l = logical_loop n ts i l) /\
  (forall ts i, parse_function_expression n ts i <> Fuel -> parse_function_expression m ts i = parse_function_expression n ts i).

(** One step along two runs of the same function, one with fuel [n], one
    with fuel [m]; the goal is [run n <> Fuel -> run m = run n]. *)
Ltac mono_step n m IH :=
  cbn [bind];
  match goal with
  | |- Fuel <> Fuel -> _ => let C := fresh in intros C; now elim C
  | |- _ -> ?x = ?x => reflexivity
  | |- _ <> Fuel -> _ = _ => solve [apply IH]
  | |- context [bind ?r _] =>
      let r' :=
        lazymatch r with
        | ?f n ?ts ?j ?l => constr:(f m ts j l)
        | ?f n ?ts ?j => constr:(f m ts j)
        end in
      let E := fresh "E" in let X := fresh "X" in
      destruct r as [[? ?]| |] eqn:E;
      [ assert (X : r' = r) by (apply IH; rewrite E; discriminate);
        rewrite X, E; clear X
      | assert (X : r' = r) by (apply IH; rewrite E; discriminate);
        rewrite X, E; clear X
      | ]
  | |- context [bind (parse_string ?ts ?i) _] =>
      destruct (parse_string ts i) as [?| |]
  | |- context [bind (_i ?ts ?i) _] => destruct (_i ts i) as [?| |]
  | |- context [let '(_, _) := ?g in _] => destruct g as [? ?]
  | |- context [if ?c then _ else _] => destruct c
  | |- context [match ?g with Some _ => _ | None => _ end] => destruct g as [[? ?]|]
  | |- context [match ?g with Some _ => _ | None => _ end] => destruct g as [?|]
  end.

Lemma parser_mono (n : nat) : mono_at n.
Proof.
  induction n as [|n IH]; intros m Hm.
  - repeat split; intros ts i; intros; now elim H.
  - destruct m as [|m]; [lia|]. specialize (IH m ltac:(lia)).
    repeat split; intros *; unfold_parser.
    all: repeat mono_step n m IH.
Qed.

(** ** The parser ends *)

(** Fuel [n] is enough for a run from [i] that starts with fuel need [c]. *)
Definition enough (n : nat) (c : Z) (ts : list TokenInfo) (i : Z) : Prop :=
  0 <= i <= Z.of_nat (length ts) /\
  c + 10 * (Z.of_nat (length ts) - i) <= Z.of_nat n.

Definition total_at (n : nat) : Prop :=
  (forall ts i, enough n 1 ts i -> parse_term n ts i <> Fuel) /\
  (forall ts i, enough n 9 ts i -> parse_collection n ts i <> Fuel) /\
  (forall ts i a, enough n 8 ts i -> collection_loop n ts i a <> Fuel) /\
  (forall ts i, enough n 2 ts i -> parse_post_expression n ts i <> Fuel) /\
  (forall ts i l, enough n 1 ts i -> post_loop n ts i l <> Fuel) /\
  (forall ts i, enough n 3 ts i -> parse_prod_expression n ts i <> Fuel) /\
  (forall ts i l, enough n 1 ts i -> prod_loop n ts i l <> Fuel) /\
  (forall ts i, enough n 4 ts i -> parse_sum_expression n ts i <> Fuel) /\
  (forall ts i l, enough n 1 ts i -> sum_loop n ts i l <> Fuel) /\
  (forall ts i, enough n 5 ts i -> parse_comp_expression n ts i <> Fuel) /\
  (forall ts i l, enough n 1 ts i -> comp_loop n ts i l <> Fuel) /\
  (forall ts i, enough n 6 ts i -> parse_logical_expression n ts i <> Fuel) /\
  (forall ts i l, enough n 1 ts i -> logical_loop n ts i l <> Fuel) /\
  (forall ts i, enough n 7 ts i -> parse_function_expression n ts i <> Fuel).

Lemma parse_string_not_Fuel ts i : parse_string ts i <> Fuel.
Proof. unfold parse_string. destruct (index ts (i - 1)); discriminate. Qed.

Lemma _i_not_Fuel ts i : _i ts i <> Fuel.
Proof.
  unfold _i. generalize (@None Z). generalize i at 2. generalize (slice_from ts i).
  intros l. induction l as [|t l IH]; intros j seen; simpl.
  - destruct seen; discriminate.
  - destruct (is_type t "space"); [apply IH | discriminate].
Qed.

(** One step along a run with fuel [S n]; the goal is [run <> Fuel]. *)
Ltac total_step n IH :=
  cbn [bind];
  match goal with
  | |- Ok _ <> Fuel => discriminate
  | |- Raise _ <> Fuel => discriminate
  | |- context [is_type (end_token ?i) ?s] =>
      change (is_type (end_token i) s) with false
  | |- context [is_variant (end_token ?i) ?s] =>
      change (is_variant (end_token i) s) with false
  | |- context [variant_in (end_token ?i) ?s] =>
      change (variant_in (end_token i) s) with false
  | |- context [let '(_, _) := get ?ts ?i in _] =>
      let G := fresh "Hget" in
      destruct (get ts i) as [? ?] eqn:G; know_get
  | |- context [match get_token ?ts ?i with _ => _ end] =>
      let G := fresh "Hopt" in
      destruct (get_token ts i) as [?|] eqn:G
  | |- context [if ?c then _ else _] =>
      let C := fresh "Htest" in destruct c eqn:C
  | |- context [bind (parse_string ?ts ?i) _] =>
      let E := fresh "E" in
      destruct (parse_string ts i) as [[[? ?]|]| |] eqn:E;
      [ | | | now apply parse_string_not_Fuel in E ]
  | |- context [bind (_i ?ts ?i) _] =>
      let E := fresh "E" in
      destruct (_i ts i) as [?| |] eqn:E;
      [ | | now apply _i_not_Fuel in E ]
  | |- context [bind ?r _] =>
      let E := fresh "E" in
      destruct r as [[? ?]| |] eqn:E;
      [ bound_run n; repeat know_bound
      |
      | exfalso; revert E; apply IH; unfold enough; lia ]
  | |- _ <> Fuel => apply IH; unfold enough; lia
  end.

Lemma parser_total (n : nat) : total_at n.
Proof.
  induction n as [|n IH].
  - repeat split; intros * [? ?]; lia.
  - unfold total_at in IH.
    repeat split; intros * [? ?]; unfold_parser.
    all: repeat total_step n IH.
Qed.

Lemma fuel_of_prefix (ts : list TokenInfo) (k : nat) :
  (fuel_of (firstn k ts) <= fuel_of ts)%nat.
Proof. unfold fuel_of. rewrite length_firstn. lia. Qed.

Lemma parse_expression_total (ts : list TokenInfo) (n : nat) :
  (fuel_of ts <= n)%nat -> parse_expression n ts 0 <> Fuel.
Proof.
  intros Hn. unfold parse_expression, fuel_of in *.
  pose proof (parser_total n) as IH. unfold total_at in IH.
  repeat total_step n IH.
Qed.

Lemma parse_expression_mono (ts : list TokenInfo) (i : Z) (n m : nat) :
  (n <= m)%nat -> parse_expression n ts i <> Fuel ->
  parse_expression m ts i = parse_expression n ts i.
Proof.
  intros Hn. unfold parse_expression.
  pose proof (parser_mono n m Hn) as IH.
  repeat mono_step n m IH.
Qed.

(** The parse of the tokens that a parse consumed, with the fuel [parse]
    gives it, is the same parse. *)
Lemma parse_expression_consumed (ts : list TokenInfo) (i : Z) (e : Element) :
  parse_expression (fuel_of ts) ts 0 = Ok (i, e) ->
  let consumed := firstn (Z.to_nat i) ts in
  parse_expression (fuel_of consumed) consumed 0 = Ok (i, e).
Proof.
  intros H consumed.
  pose proof (parse_expression_prefix _ _ _ _ _ H ltac:(lia) i ltac:(lia)) as P.
  fold consumed in P. rewrite <- P. symmetry.
  apply parse_expression_mono; [apply fuel_of_prefix|].
  apply parse_expression_total; lia.
Qed.

(** ** The errors of the parser *)








(** * The specification of the lexer *)

(** The first position of a text at which no rule matches: line [lineno]
    (from 1), offset [offset]; every position before it, on that line and on
    the lines above, has a match. *)
Definition first_dead (text : string) (lineno : nat) (offset : nat) : Prop :=
  exists l,
    nth_error (splitlines text) lineno = Some l /\
    dead l offset /\
    (forall o, (o < offset)%nat -> pattern_match pattern l o <> None) /\
    (forall k l' o, (k < lineno)%nat -> nth_error (splitlines text) k = Some l' ->
                    ~ dead l' o).

(** The error of a failed [tokenize] tells the line and the offset at which
    it failed: some reading of the error gives them back. *)
Definition error_carries_position : Prop :=
  exists position : exn -> nat * nat,
    forall text lineno offset,
      first_dead text lineno offset ->
      exists e, tokenize text pattern = Raise e /\
                position e = (S lineno, offset).

(** C2, as stated, fails: the texts "@" and " @" stop at offsets 0 and 1 of
    line 1 and raise the same AssertionError, which therefore carries no
    position. *)
Lemma assertion_error_carries_no_position : ~ error_carries_position.
Proof.
  intros [position H].
  assert (H0 : first_dead "@" 0 0).
  { exists "@"; repeat split; simpl; auto; lia. }
  assert (H1 : first_dead " @" 0 1).
  { exists " @"; repeat split; simpl; auto; try lia.
    intros o Ho. assert (o = O) by lia; subst o. vm_compute. discriminate. }
  apply H in H0 as (e0 & E0 & P0). apply H in H1 as (e1 & E1 & P1).
  vm_compute in E0, E1. injection E0 as <-. injection E1 as <-.
  rewrite P0 in P1. discriminate.
Qed.

(** C2, amended: a text with a line that has a position at which no rule
    matches is not tokenized; [tokenize] fails with the AssertionError of its
    [assert], an error without line number or offset. *)
Theorem dead_position_raises_assertion (text : string) :
  (exists l p, In l (splitlines text) /\ dead l p) ->
  tokenize text pattern = Raise AssertionError.
Proof. apply tokenize_lines_dead. Qed.

Lemma dead_position_raises_assertion_witness :
  (exists l p, In l (splitlines "a @ b") /\ dead l p) /\
  tokenize "a @ b" pattern = Raise AssertionError.
Proof.
  assert (H : exists l p, In l (splitlines "a @ b") /\ dead l p).
  { exists "a @ b", 2%nat. split; [left; reflexivity|].
    split; [simpl; lia | reflexivity]. }
  split; [exact H | exact (dead_position_raises_assertion "a @ b" H)].
Defined.

(** C5: the group of a match is the first rule of the table, in declared
    order, that matches at the position; "<=" is lessOrEqual although least
    matches as well, "^" is xor although bitwiseXor matches as well; and the
    first rule wins over a longer match of a later one: a backslash is the
    escape token although the word rule would take four characters. *)
Theorem first_declared_variant_wins :
  (forall l i g e,
      pattern_match pattern l i = Some (g, e) ->
      exists pre r post,
        pattern = (pre ++ (g, r) :: post)%list /\
        re_match r (drop i l) = Some (e - i)%nat /\
        Forall (fun gr => re_match (snd gr) (drop i l) = None) pre) /\
  tokenize "<=" pattern = Ok [mkToken "operator" "lessOrEqual" "<=" 0 2 1] /\
  re_match (Str "<=") "<=" = Some 2%nat /\
  In (("operator", "least"), Str "<=") pattern /\
  tokenize "^" pattern = Ok [mkToken "operator" "xor" "^" 0 1 1] /\
  re_match (Str "^") "^" = Some 1%nat /\
  In (("operator", "bitwiseXor"), Str "^") pattern /\
  tokenize "\abc" pattern =
    Ok [mkToken "string" "escape" "\" 0 1 1; mkToken "word" "word" "abc" 1 4 1] /\
  re_match (Plus (Class is_word)) "\abc" = Some 4%nat.
Proof.
  split.
  - intros l i g e H. unfold pattern_match in H.
    destruct (alt_match pattern (drop i l)) as [[g' n]|] eqn:E; [|discriminate].
    injection H as -> <-.
    apply alt_match_first in E as (pre & r & post & E & Hr & Hpre).
    exists pre, r, post. replace (i + n - i)%nat with n by lia. auto.
  - repeat split; try reflexivity; pick_rule.
Qed.

Lemma first_declared_variant_wins_witness :
  exists pre r post,
    pattern = (pre ++ (("operator", "lessOrEqual"), r) :: post)%list /\
    re_match r (drop 2 "a <= b") = Some (4 - 2)%nat /\
    Forall (fun gr => re_match (snd gr) (drop 2 "a <= b") = None) pre.
Proof.
  apply (proj1 first_declared_variant_wins "a <= b" 2%nat
           ("operator", "lessOrEqual") 4%nat).
  reflexivity.
Defined.

(** C8: when [tokenize] accepts a text, the tokens are those of its lines in
    order, and the tokens of each line cover it: the first starts at offset
    0, each next one starts where the one before ended, none is empty, the
    last ends at the length of the line, and their strings are the
    characters between their offsets. *)
Theorem tokens_cover_each_line (text : string) (ts : list TokenInfo) :
  tokenize text pattern = Ok ts ->
  exists tss, ts = concat tss /\ lines_covered 1 (splitlines text) tss.
Proof. apply tokenize_lines_covered. Qed.

Lemma tokens_cover_each_line_witness :
  exists tss,
    [mkToken "word" "word" "a" 0 1 1; mkToken "space" "space" " " 1 2 1;
     mkToken "operator" "lessOrEqual" "<=" 2 4 1;
     mkToken "number" "number" "1" 0 1 2] = concat tss /\
    lines_covered 1 (splitlines ("a <=" ++ chr nl ++ "1")) tss.
Proof.
  apply (tokens_cover_each_line ("a <=" ++ chr nl ++ "1")).
  reflexivity.
Defined.

(** * The specification of the formatter *)

Fixpoint Element_ind' (P : Element -> Prop)
  (H : forall tag_ attrib children,
         Forall P children -> P (El tag_ attrib children))
  (el : Element) : P el :=
  match el with
  | El t a cs =>
      H t a cs
        ((fix go (cs : list Element) : Forall P cs :=
            match cs with
            | [] => Forall_nil P
            | c :: cs' => Forall_cons c (Element_ind' P H c) (go cs')
            end) cs)
  end.

(** The compact rendering of [el] reaches a NUM, VAR or STR node. *)
Fixpoint renders_leaf (el : Element) : bool :=
  let 'El tag_ _ children := el in
  let el0 := match children with c :: _ => renders_leaf c | [] => false end in
  let el1 := match children with _ :: c :: _ => renders_leaf c | _ => false end in
  if tag_in tag_ ["UNOP"; "PRODOP"; "SUMOP"; "COMPARE"; "LIST"; "ARGS"; "KEY"]
  then existsb renders_leaf children
  else if tag_in tag_ ["FUNC"; "ASSIGN"; "CALL"; "GET"] then el0 || el1
  else if tag_in tag_ ["PAREN"] then el0
  else tag_in tag_ ["NUM"; "VAR"; "STR"].

Lemma for_each_inv (f : Element -> result string) cs ss :
  for_each f cs = Ok ss -> Forall2 (fun c s => f c = Ok s) cs ss.
Proof.
  revert ss; induction cs as [|c cs IH]; intros ss H; simpl in H.
  - injection H as <-; constructor.
  - destruct (f c) as [s| |] eqn:E; simpl in H; try discriminate.
    destruct (for_each f cs) as [ss'| |]; simpl in H; try discriminate.
    injection H as <-. constructor; auto.
Qed.

Lemma In_str_join (c : ascii) (sep : string) (ss : list string) (s : string) :
  In s ss -> In_str c s -> In_str c (join sep ss).
Proof.
  induction ss as [|a ss IH]; simpl; [tauto|].
  intros [-> | Hin] Hc.
  - destruct ss; auto. rewrite In_str_app; auto.
  - destruct ss as [|b ss]; [destruct Hin|].
    rewrite !In_str_app. right; right. apply IH; auto.
Qed.

Lemma style_ESC (text : string) codes : In_str ESC (style text codes).
Proof. unfold style, code_style, ansi_tag. simpl. auto. Qed.

Lemma existsb_Forall2 (f : Element -> result string) (P : Element -> bool)
  (Q : string -> Prop) cs ss :
  Forall (fun c => forall s, P c = true -> f c = Ok s -> Q s) cs ->
  Forall2 (fun c s => f c = Ok s) cs ss ->
  existsb P cs = true ->
  exists s, In s ss /\ Q s.
Proof.
  intros HF H2; induction H2 as [|c s cs ss Hcs H2 IH]; simpl; [discriminate|].
  inversion HF; subst.
  intros [H | H]%orb_prop; [exists s; split; eauto | ].
  destruct IH as (s' & ? & ?); auto. exists s'; auto.
Qed.

(** The rendering of a tree that reaches a NUM, VAR or STR node holds an
    escape character. *)
Lemma froot_ESC (str_float : string -> string) (el : Element) :
  forall s, renders_leaf el = true -> froot str_float el None = Ok s ->
            In_str ESC s.
Proof.
  induction el as [tag_ attrib children IH] using Element_ind'.
  intros s Hr Hf. simpl in Hf.
  repeat match type of Hf with
  | (if (?t =? ?x)%string then _ else _) = _ =>
      destruct (String.eqb_spec t x); [subst; simpl in Hr | ]
  end;
  try discriminate.
  (* the joined tags *)
  all: try (apply bind_Ok in Hf as (ss & Hss & Hf); injection Hf as <-;
            apply for_each_inv in Hss;
            destruct (existsb_Forall2 _ _ _ _ _ IH Hss Hr) as (s' & Hin & Hs');
            pose proof (In_str_join ESC "" ss s' Hin Hs');
            pose proof (In_str_join ESC " " ss s' Hin Hs');
            pose proof (In_str_join ESC ", " ss s' Hin Hs');
            repeat (rewrite In_str_app || simpl In_str); tauto).
  (* the leaves *)
  all: try (destruct attrib as [[]|]; try discriminate;
            injection Hf as <-; apply style_ESC).
  (* the tags that render their first children *)
  all: destruct children as [|c0 [|c1 cs]]; simpl in Hr, Hf; try discriminate;
    repeat match goal with
           | H : Forall _ (_ :: _) |- _ => inversion H; subst; clear H
           end;
    repeat match goal with
           | H : bind _ _ = Ok _ |- _ =>
               apply bind_Ok in H as (? & ? & H)
           end;
    try discriminate; injection Hf as <-;
    repeat (rewrite In_str_app || simpl In_str);
    try (apply orb_prop in Hr as [Hr | Hr]);
    match goal with
    | IHc : (forall s, renders_leaf ?c = true -> _ -> _),
      Hc : renders_leaf ?c = true, Hx : froot _ ?c None = Ok ?x |- _ =>
        pose proof (IHc x Hc Hx)
    end; tauto.
Qed.

(** Re-parsing the compact rendering of the tree of [text] gives the tree
    again. *)
Definition round_trip (str_float : string -> string) (text : string) : Prop :=
  forall t, parse text pattern = Ok t ->
    exists s, render_compact str_float t = Ok s /\ parse s pattern = Ok t.

(** C1, as stated, fails on the text "a": its rendering is the name between
    two colour sequences, which [tokenize] refuses. *)
Lemma round_trip_fails_on_a_name : ~ round_trip (fun l => l) "a".
Proof.
  intros H. destruct (H (Node "VAR" (VStr "a")) eq_refl) as (s & Hs & Hp).
  vm_compute in Hs. injection Hs as <-. vm_compute in Hp. discriminate.
Qed.

(** C1, amended: when the compact rendering of a tree reaches a NUM, VAR or
    STR node, the rendered text holds the colour sequences of [style] and
    parsing it again fails in [tokenize] with AssertionError; the round trip
    can hold only for a tree rendered without such a node, and does hold,
    for example, for the texts "[]" and "[[], [[]]]". *)
Theorem styled_rendering_is_not_reparsed (str_float : string -> string) :
  (forall t s,
      renders_leaf t = true -> render_compact str_float t = Ok s ->
      In_str ESC s /\ parse s pattern = Raise AssertionError) /\
  round_trip str_float "[]" /\
  round_trip str_float "[[], [[]]]".
Proof.
  split; [|split].
  - intros t s Hr Hs. pose proof (froot_ESC str_float t s Hr Hs) as H.
    split; auto. unfold parse. now rewrite (tokenize_ESC s H).
  - intros t Ht. vm_compute in Ht. injection Ht as <-.
    exists "[]". split; reflexivity.
  - intros t Ht. vm_compute in Ht. injection Ht as <-.
    exists "[[], [[]]]". split; reflexivity.
Qed.

Lemma styled_rendering_is_not_reparsed_witness :
  In_str ESC (style "a" VAR_STYLE) /\
  parse (style "a" VAR_STYLE) pattern = Raise AssertionError.
Proof.
  apply (proj1 (styled_rendering_is_not_reparsed (fun l => l))
           (Node "VAR" (VStr "a"))); reflexivity.
Defined.

(** C6: [froot] has no case for LOGICAL, the tag [parse] gives to "&&" and
    "||": rendering such a node raises TypeError in either mode. *)
Theorem froot_has_no_LOGICAL_case (str_float : string -> string) :
  (forall children indent,
      froot str_float (Collection "LOGICAL" children) indent
      = Raise (TypeError "Invalid type LOGICAL")) /\
  parse "a && b" pattern =
    Ok (Collection "LOGICAL"
          [Node "VAR" (VStr "a"); Node "OP" (VStr "&&"); Node "VAR" (VStr "b")]) /\
  (r <- parse "a && b" pattern ;; render_compact str_float r)
  = Raise (TypeError "Invalid type LOGICAL").
Proof. repeat split; reflexivity. Qed.

(** * The specification of the parser *)

(** The escaped text of the specification, nine characters: an apostrophe,
    w, a backslash, a double quote, orld, an apostrophe. *)
Definition escaped_input : string :=
  "'w" ++ chr backslash ++ chr dquote ++ "orld'".

(** C3, as stated, fails: the value of the STR node is not the text without
    its backslash (w, double quote, orld). *)
Lemma escaped_value_is_not_unescaped :
  parse escaped_input pattern
  <> Ok (Node "STR" (VStr ("w" ++ chr dquote ++ "orld"))).
Proof. vm_compute. discriminate. Qed.

(** C3, amended: the double quote does not end the literal, which was opened
    by an apostrophe, and the value of the STR node is the text between the
    apostrophes as it stands, backslash included: [parse_string] joins the
    strings of all the tokens between the quotes (here the word made of w
    and the backslash, the double quote, and the word orld) and drops
    none. *)
Theorem escaped_value_keeps_backslash :
  parse escaped_input pattern
  = Ok (Node "STR" (VStr ("w" ++ chr backslash ++ chr dquote ++ "orld"))) /\
  tokenize escaped_input pattern
  = Ok [mkToken "string" "apostrophe" "'" 0 1 1;
        mkToken "word" "word" ("w" ++ chr backslash) 1 3 1;
        mkToken "string" "quotes" (chr dquote) 3 4 1;
        mkToken "word" "word" "orld" 4 8 1;
        mkToken "string" "apostrophe" "'" 8 9 1] /\
  (forall tokens start i l j escape j' e,
      parse_string_from tokens start i l j escape = Some (j', e) ->
      e = Node "STR" (VStr (join "" (map string_ (slice tokens i (j' - 1)))))).
Proof.
  repeat split; try reflexivity.
  intros tokens start i l; induction l as [|t l IH]; intros j escape j' e H;
    simpl in H; [discriminate|].
  destruct escape; [eauto|].
  destruct (is_variant t start).
  - injection H as <- <-. now replace (j + 1 - 1) with j by lia.
  - destruct (is_variant t "escape"); eauto.
Qed.

Lemma escaped_value_keeps_backslash_witness :
  Node "STR" (VStr "a\'b")
  = Node "STR" (VStr (join "" (map string_ (slice
      [mkToken "string" "quotes" (chr dquote) 0 1 1;
       mkToken "word" "word" "a\" 1 3 1;
       mkToken "string" "apostrophe" "'" 3 4 1;
       mkToken "word" "word" "b" 4 5 1;
       mkToken "string" "quotes" (chr dquote) 5 6 1] 1 (5 - 1))))).
Proof.
  apply (proj2 (proj2 escaped_value_keeps_backslash)) with
    (start := "quotes") (j := 1) (escape := false)
    (l := [mkToken "word" "word" "a\" 1 3 1;
           mkToken "string" "apostrophe" "'" 3 4 1;
           mkToken "word" "word" "b" 4 5 1;
           mkToken "string" "quotes" (chr dquote) 5 6 1]).
  reflexivity.
Defined.

(** C7: at the end of the tokens [get] gives the token "end", but
    [get_token] gives [None], and [parse_collection] reads the type of what
    it gives: the unclosed list "[1, 2" raises AttributeError. *)
Theorem unclosed_collection_raises_AttributeError :
  parse "[1, 2" pattern = Raise AttributeError /\
  (forall tokens, get_token tokens (Z.of_nat (length tokens)) = None) /\
  (forall tokens,
      get tokens (Z.of_nat (length tokens))
      = (-1, mkToken "end" "end" ""
               (Z.of_nat (length tokens)) (Z.of_nat (length tokens)) 1)) /\
  parse "'abc" pattern = Raise unpack_None.
Proof.
  split; [reflexivity|]. split; [|split; [|reflexivity]].
  - intros tokens. unfold get_token, slice_from.
    destruct (Z.ltb_spec (Z.of_nat (length tokens)) 0); [lia|].
    now rewrite Nat2Z.id, skipn_all.
  - intros tokens. unfold get, slice_from.
    destruct (Z.ltb_spec (Z.of_nat (length tokens)) 0); [lia|].
    now rewrite Nat2Z.id, skipn_all.
Qed.

(** C4: the right operand of a comparison is what [parse_prod_expression]
    returns: in "a = b + c" it is the name b alone, in "a = (b + c)" it is
    the PAREN node; and in every tree [parse] returns, every COMPARE node
    has three children, the third with the tag of a product (VAR, LIST,
    PAREN, NUM, STR, UNOP, CALL, GET or PRODOP), hence never SUMOP. *)
Theorem compare_right_operand_is_a_product :
  parse "a = b + c" pattern
  = Ok (Collection "COMPARE"
          [Node "VAR" (VStr "a"); Node "OP" (VStr "="); Node "VAR" (VStr "b")]) /\
  parse "a = (b + c)" pattern
  = Ok (Collection "COMPARE"
          [Node "VAR" (VStr "a"); Node "OP" (VStr "=");
           Collection "PAREN"
             [Collection "SUMOP"
                [Node "VAR" (VStr "b"); Node "OP" (VStr "+");
                 Node "VAR" (VStr "c")]]]) /\
  (forall text root e,
      parse text pattern = Ok root -> node_of e root -> tag e = "COMPARE" ->
      exists l op r,
        children e = [l; op; r] /\
        tag_in (tag r) product_tags = true /\ tag r <> "SUMOP").
Proof.
  split; [reflexivity|]. split; [reflexivity|].
  intros text root e H Hn Ht. unfold parse in H.
  apply bind_Ok in H as (ts & _ & H).
  apply bind_Ok in H as ([i root'] & H & [= ->]).
  apply parse_expression_shape in H.
  destruct (compare_ok_COMPARE e (compare_ok_node _ _ Hn H) Ht)
    as (l & op & r & Hc & Hr).
  exists l, op, r. repeat split; auto.
  intros E. rewrite E in Hr. discriminate.
Qed.

Lemma compare_right_operand_is_a_product_witness :
  exists l op r,
    children (Collection "COMPARE"
                [Node "VAR" (VStr "a"); Node "OP" (VStr "<");
                 Collection "PRODOP"
                   [Node "VAR" (VStr "b"); Node "OP" (VStr "*");
                    Node "VAR" (VStr "c")]])
    = [l; op; r] /\
    tag_in (tag r) product_tags = true /\ tag r <> "SUMOP".
Proof.
  apply (proj2 (proj2 compare_right_operand_is_a_product)
           "[a < b * c]"
           (Collection "LIST"
              [Collection "COMPARE"
                 [Node "VAR" (VStr "a"); Node "OP" (VStr "<");
                  Collection "PRODOP"
                    [Node "VAR" (VStr "b"); Node "OP" (VStr "*");
                     Node "VAR" (VStr "c")]]])).
  - reflexivity.
  - eapply node_child; [left; reflexivity | apply node_self].
  - reflexivity.
Defined.

(** C9: [parse] keeps the tree of the first expression and drops the
    tokens after it without an error: "a = b + c" gives the comparison of a
    and b after five of its nine tokens, "a % b" gives the name a; and
    whenever [parse_expression] returns, the parse of the tokens it consumed
    alone returns the same index and the same tree. *)
Theorem trailing_tokens_are_discarded :
  parse "a = b + c" pattern
  = Ok (Collection "COMPARE"
          [Node "VAR" (VStr "a"); Node "OP" (VStr "="); Node "VAR" (VStr "b")]) /\
  parse "a = b + c" pattern = parse "a = b" pattern /\
  parse "a % b" pattern = Ok (Node "VAR" (VStr "a")) /\
  parse "a % b" pattern = parse "a" pattern /\
  (exists tokens root,
      tokenize "a = b + c" pattern = Ok tokens /\ length tokens = 9%nat /\
      parse_expression (fuel_of tokens) tokens 0 = Ok (5, root)) /\
  (forall tokens i root,
      parse_expression (fuel_of tokens) tokens 0 = Ok (i, root) ->
      0 < i <= Z.of_nat (length tokens) /\
      let consumed := firstn (Z.to_nat i) tokens in
      parse_expression (fuel_of consumed) consumed 0 = Ok (i, root)).
Proof.
  repeat split; try reflexivity.
  - eexists _, _. repeat split; reflexivity.
  - apply parse_expression_bounds in H; [unfold advances in H | ]; lia.
  - apply parse_expression_bounds in H; [unfold advances in H | ]; lia.
  - now apply parse_expression_consumed.
Qed.

Lemma trailing_tokens_are_discarded_witness :
  let tokens :=
    [mkToken "word" "word" "a" 0 1 1; mkToken "space" "space" " " 1 2 1;
     mkToken "operator" "mod" "%" 2 3 1; mkToken "space" "space" " " 3 4 1;
     mkToken "word" "word" "b" 4 5 1] in
  0 < 1 <= Z.of_nat (length tokens) /\
  let consumed := firstn (Z.to_nat 1) tokens in
  parse_expression (fuel_of consumed) consumed 0
  = Ok (1, Node "VAR" (VStr "a")).
Proof.
  apply (proj2 (proj2 (proj2 (proj2 (proj2 trailing_tokens_are_discarded))))).
  reflexivity.
Defined.

(** C10: in a collection the comma is optional between the elements as
    well: "[1 2]" is the list of "[1, 2]", "f(1 2)" the call of "f(1, 2)";
    after an element [parse_collection] goes on from behind the comma when
    the next token is one, and from behind the element otherwise. *)
Theorem comma_is_optional :
  parse "[1 2]" pattern
  = Ok (Collection "LIST" [Node "NUM" (VInt 1); Node "NUM" (VInt 2)]) /\
  parse "[1 2]" pattern = parse "[1, 2]" pattern /\
  parse "f(1 2)" pattern = parse "f(1, 2)" pattern /\
  (forall n tokens i arguments t i1 expr,
      get_token tokens i = Some t -> is_type t "close" = false ->
      parse_function_expression n tokens i = Ok (i1, expr) ->
      collection_loop (S n) tokens i arguments
      = collection_loop n tokens
          (if is_variant (snd (get tokens i1)) "comma"
           then fst (get tokens i1) else i1)
          (arguments ++ [expr])%list).
Proof.
  repeat split; try reflexivity.
  intros n tokens i arguments t i1 expr Ht Hc Hp.
  cbn [collection_loop]. rewrite Ht, Hc, Hp. cbn [negb bind].
  now destruct (get tokens i1).
Qed.

Lemma comma_is_optional_witness :
  let tokens :=
    [mkToken "open" "lsquare" "[" 0 1 1; mkToken "number" "number" "1" 1 2 1;
     mkToken "space" "space" " " 2 3 1; mkToken "number" "number" "2" 3 4 1;
     mkToken "close" "rsquare" "]" 4 5 1] in
  collection_loop 20 tokens 1 []
  = collection_loop 19 tokens
      (if is_variant (snd (get tokens 2)) "comma"
       then fst (get tokens 2) else 2)
      ([] ++ [Node "NUM" (VInt 1)])%list.
Proof.
  apply (proj2 (proj2 (proj2 comma_is_optional)) 19%nat _ 1 []
           (mkToken "number" "number" "1" 1 2 1) 2 (Node "NUM" (VInt 1)));
    reflexivity.
Defined.

(** * Further properties of the lexer *)

(** The variants whose rule stands behind an equal rule of the table. *)
Definition shadowed : list string := ["bitwiseXor"; "least"; "concat"].

Lemma alt_match_group (s : string) g n :
  alt_match pattern s = Some (g, n) ->
  In g (map fst pattern) /\ ~ In (snd g) shadowed.
Proof.
  let p := eval cbv [pattern token_pattern tokens flat_map map Datatypes.app
                     _pattern] in pattern in
  change pattern with p.
  cbn [alt_match].
  repeat match goal with
         | |- context [match re_match ?r ?x with _ => _ end] =>
             destruct (re_match r x)
         end;
    intros H; try discriminate H; injection H as <- _;
    (split; [cbn; tauto | cbn; intuition discriminate]).
Qed.

(** Every token is the match of the alternation at some place of the
    text. *)
Definition matched (t : TokenInfo) : Prop :=
  exists s n, alt_match pattern s = Some ((type t, variant t), n) /\
              string_ t = take n s.

Lemma tokenize_line_matched (lineno : Z) (l : string) :
  forall fuel i ts,
    tokenize_line fuel pattern lineno l i = Ok ts -> Forall matched ts.
Proof.
  induction fuel; intros i ts H; simpl in H; [discriminate|].
  destruct (pattern_match pattern l i) as [[[ty va] e]|] eqn:E.
  - destruct (tokenize_line fuel pattern lineno l e) as [rest| |] eqn:R;
      simpl in H; try discriminate.
    injection H as <-. constructor; [|eauto].
    unfold pattern_match in E.
    destruct (alt_match pattern (drop i l)) as [[g n]|] eqn:A; [|discriminate].
    injection E as -> <-. exists (drop i l), n. split; auto.
    simpl. f_equal. lia.
  - destruct (i =? len l)%nat; [|discriminate]. injection H as <-. constructor.
Qed.

Lemma tokenize_matched (text : string) (ts : list TokenInfo) :
  tokenize text pattern = Ok ts -> Forall matched ts.
Proof.
  unfold tokenize. generalize 1 as lineno. generalize (splitlines text) as ls.
  intros ls; revert ts.
  induction ls as [|l ls IH]; intros ts lineno H; cbn [tokenize_lines] in H.
  - injection H as <-. constructor.
  - destruct (tokenize_line (S (len l)) pattern lineno l 0) as [tl| |] eqn:E;
      cbn [bind] in H; try discriminate.
    destruct (tokenize_lines pattern (lineno + 1) ls) as [rest| |] eqn:R;
      cbn [bind] in H; try discriminate.
    injection H as <-. apply Forall_app. split.
    + eapply tokenize_line_matched; eauto.
    + eapply IH; eauto.
Qed.

(** X2: every token [tokenize] emits has a type and variant of the table,
    hence never the type "end" of the parser's own token, and never one of
    the variants bitwiseXor, least and concat, whose rules stand behind an
    equal rule (xor, lessOrEqual, add) that takes every text they match. *)
Theorem tokens_are_of_the_table (text : string) (ts : list TokenInfo)
  (t : TokenInfo) :
  tokenize text pattern = Ok ts -> In t ts ->
  In (type t, variant t) (map fst pattern) /\
  ~ In (variant t) shadowed /\
  type t <> "end".
Proof.
  intros H Hin. apply tokenize_matched in H. rewrite Forall_forall in H.
  destruct (H t Hin) as (s & n & A & _).
  apply alt_match_group in A as [A B]. repeat split; auto.
  intros E. rewrite E in A. cbn in A. intuition discriminate.
Qed.

Lemma tokens_are_of_the_table_witness :
  let t := mkToken "operator" "lessOrEqual" "<=" 2 4 1 in
  In (type t, variant t) (map fst pattern) /\
  ~ In (variant t) shadowed /\
  type t <> "end".
Proof.
  apply (tokens_are_of_the_table "a <= b"
           [mkToken "word" "word" "a" 0 1 1; mkToken "space" "space" " " 1 2 1;
            mkToken "operator" "lessOrEqual" "<=" 2 4 1;
            mkToken "space" "space" " " 4 5 1; mkToken "word" "word" "b" 5 6 1]).
  - reflexivity.
  - right; right; left; reflexivity.
Defined.

(** ** Number tokens *)








(** * Texts of one token *)

Lemma star_class_all (p : ascii -> bool) :
  forall n s, (len s <= n)%nat -> forall_str p s = true ->
    star_loop (rmatch (Class p)) (fun _ => Some O) n s = Some (len s).
Proof.
  induction n; intros s Hn Hs.
  - destruct s; [reflexivity | simpl in Hn; lia].
  - destruct s as [|c s]; [reflexivity|].
    cbn [forall_str] in Hs. apply andb_prop in Hs as [Hc Hs].
    cbn [star_loop rmatch]. rewrite Hc.
    replace (len s <? len (String c s))%nat with true
      by (symmetry; apply Nat.ltb_lt; simpl; lia).
    fold (star_loop (rmatch (Class p)) (fun _ => Some O)).
    rewrite IHn by (simpl in Hn; auto; lia). reflexivity.
Qed.

Lemma plus_class_all (p : ascii -> bool) (s : string) :
  s <> "" -> forall_str p s = true ->
  re_match (Plus (Class p)) s = Some (len s).
Proof.
  destruct s as [|c s]; [congruence|]. intros _ Hs.
  cbn [forall_str] in Hs. apply andb_prop in Hs as [Hc Hs].
  unfold re_match, Plus.
  change (rmatch (Cat (Class p) (Star (Class p))) (String c s)
            (fun _ => Some O))
    with (if p c
          then option_map S (star_loop (rmatch (Class p)) (fun _ => Some O)
                               (len s) s)
          else None).
  rewrite Hc, star_class_all; auto.
Qed.

Lemma alt_match_app (pre post : compiled) (s : string) :
  Forall (fun gr => re_match (snd gr) s = None) pre ->
  alt_match (pre ++ post)%list s = alt_match post s.
Proof.
  induction 1 as [|[g r] pre H _ IH]; [reflexivity|].
  simpl in *. rewrite H. exact IH.
Qed.

Ltac each_char c H :=
  destruct c as [[] [] [] [] [] [] [] []]; cbv in H; try discriminate H.


Lemma before_space (c : ascii) (rest : string) :
  is_space c = true ->
  Forall (fun gr => re_match (snd gr) (String c rest) = None)
         (firstn 33 pattern).
Proof.
  intros H. each_char c H.
  all: cbv [pattern token_pattern tokens flat_map map Datatypes.app _pattern firstn].
  all: repeat (apply Forall_cons; [reflexivity|]); apply Forall_nil.
Qed.

Lemma before_word (c : ascii) (rest : string) :
  is_word c = true -> c <> backslash ->
  Forall (fun gr => re_match (snd gr) (String c rest) = None)
         (firstn 37 pattern).
Proof.
  intros H N. each_char c H; try (exfalso; apply N; reflexivity).
  all: cbv [pattern token_pattern tokens flat_map map Datatypes.app _pattern firstn].
  all: repeat (apply Forall_cons; [reflexivity|]); apply Forall_nil.
Qed.

Lemma pattern_split (n : nat) : pattern = (firstn n pattern ++ skipn n pattern)%list.
Proof. symmetry. apply firstn_skipn. Qed.


Lemma alt_match_spaces (s : string) :
  s <> "" -> all_space s = true ->
  alt_match pattern s = Some (("space", "space"), len s).
Proof.
  intros N H. rewrite (pattern_split 33).
  destruct s as [|c s]; [congruence|].
  rewrite alt_match_app
    by (apply before_space; simpl in H; apply andb_prop in H; tauto).
  change (skipn 33 pattern) with
    ((("space", "space"), Plus (Class is_space)) :: skipn 34 pattern).
  cbn [alt_match].
  rewrite plus_class_all; auto.
  clear N. revert H. generalize (String c s).
  intros l; induction l; simpl; auto.
  intros H. apply andb_prop in H as [-> H]. auto.
Qed.

Lemma alt_match_word (c : ascii) (s : string) :
  c <> backslash -> forall_str is_word (String c s) = true ->
  alt_match pattern (String c s) = Some (("word", "word"), len (String c s)).
Proof.
  intros N H. rewrite (pattern_split 37).
  rewrite alt_match_app
    by (apply before_word; simpl in H; apply andb_prop in H; tauto).
  change (skipn 37 pattern) with
    [(("word", "word"), Plus (Class is_word))].
  cbn [alt_match].
  rewrite plus_class_all; auto. discriminate.
Qed.

Definition inline (s : string) : bool :=
  forall_str (fun c => negb (is_linebreak c)) s.

Lemma not_linebreak_13 (c : ascii) :
  is_linebreak c = false -> (code c =? 13)%nat = false.
Proof.
  unfold is_linebreak, between. intros H.
  destruct (Nat.eqb_spec (code c) 13) as [E|]; auto.
  rewrite E in H. discriminate H.
Qed.

Lemma splitlines_from_inline (s : string) :
  forall cur, inline s = true ->
    splitlines_from cur s =
    match (cur ++ s)%string with "" => [] | l => [l] end.
Proof.
  induction s as [|c s IH]; intros cur H.
  - rewrite app_empty_r. destruct cur; reflexivity.
  - unfold inline in H. cbn [forall_str] in H.
    apply andb_prop in H as [Hc Hs]. apply negb_true_iff in Hc.
    cbn [splitlines_from]. rewrite (not_linebreak_13 _ Hc), Hc.
    rewrite IH by exact Hs.
    replace ((cur ++ chr c) ++ s)%string with (cur ++ String c s)%string
      by (symmetry; apply (app_assoc_str cur (chr c) s)).
    reflexivity.
Qed.

Lemma tokenize_line_end (fuel : nat) (lineno : Z) (line : string) :
  tokenize_line (S fuel) pattern lineno line (len line) = Ok [].
Proof.
  cbn [tokenize_line]. unfold pattern_match.
  rewrite drop_all by lia.
  replace (alt_match pattern "") with (@None ((string * string) * nat))
    by reflexivity.
  rewrite Nat.eqb_refl. reflexivity.
Qed.

Lemma tokenize_line_single (s : string) g (lineno : Z) :
  s <> "" -> alt_match pattern s = Some (g, len s) ->
  tokenize_line (S (len s)) pattern lineno s 0 =
  Ok [mkToken (fst g) (snd g) s 0 (Z.of_nat (len s)) lineno].
Proof.
  intros N H. cbn [tokenize_line]. unfold pattern_match at 1.
  cbn [drop]. rewrite H. destruct g as [ty va]. cbn [Nat.add fst snd].
  destruct s as [|c s]; [congruence|].
  change (len (String c s)) with (S (len s)) at 1.
  rewrite tokenize_line_end. cbn [bind]. rewrite Nat.sub_0_r.
  rewrite <- (app_empty_r (String c s)) at 2.
  rewrite take_app. reflexivity.
Qed.

Lemma tokenize_single (s : string) g :
  s <> "" -> inline s = true -> alt_match pattern s = Some (g, len s) ->
  tokenize s pattern =
  Ok [mkToken (fst g) (snd g) s 0 (Z.of_nat (len s)) 1].
Proof.
  intros N I H. unfold tokenize, splitlines.
  rewrite splitlines_from_inline by exact I. cbn [append].
  destruct s as [|c s'] eqn:E; [congruence|]. rewrite <- E in *.
  cbn [tokenize_lines]. rewrite (tokenize_line_single s g 1 N H).
  reflexivity.
Qed.

Lemma digits_inline (s : string) : all_digits s = true -> inline s = true.
Proof.
  induction s as [|c s IH]; [reflexivity|]. cbn [all_digits].
  intros H. apply andb_prop in H as [Hc Hs].
  unfold inline. cbn [forall_str]. fold (inline s). rewrite IH by exact Hs.
  rewrite andb_true_r. each_char c Hc; reflexivity.
Qed.

Lemma word_inline (s : string) : forall_str is_word s = true -> inline s = true.
Proof.
  induction s as [|c s IH]; [reflexivity|]. cbn [forall_str].
  intros H. apply andb_prop in H as [Hc Hs].
  unfold inline. cbn [forall_str]. fold (inline s). rewrite IH by exact Hs.
  rewrite andb_true_r. each_char c Hc; reflexivity.
Qed.



Lemma parse_word (c : ascii) (s : string) :
  c <> backslash -> forall_str is_word (String c s) = true ->
  parse (String c s) pattern = Ok (Node "VAR" (VStr (String c s))).
Proof.
  intros N H. unfold parse.
  rewrite (tokenize_single (String c s) ("word", "word")) ;
    [|discriminate|apply word_inline; exact H|apply alt_match_word; auto].
  reflexivity.
Qed.

(** ** The decimal numeral of an int *)

Lemma digits_of_uint (d : uint) :
  all_digits (NilEmpty.string_of_uint d) = true.
Proof. induction d; simpl; auto. Qed.










(** * Blank text *)

Lemma all_space_app (a b : string) :
  all_space (a ++ b) = all_space a && all_space b.
Proof. induction a; simpl; auto. now rewrite IHa, andb_assoc. Qed.

Lemma splitlines_from_spaces :
  forall n s cur, (len s <= n)%nat ->
    all_space cur = true -> all_space s = true ->
    Forall (fun l => all_space l = true) (splitlines_from cur s).
Proof.
  induction n; intros s cur Hn Hc Hs.
  - destruct s; [|simpl in Hn; lia]. destruct cur; simpl; auto.
  - destruct s as [|c s]; [destruct cur; simpl; auto|].
    cbn [all_space] in Hs. apply andb_prop in Hs as [Hc1 Hs].
    cbn [splitlines_from]. simpl in Hn.
    destruct (code c =? 13)%nat.
    + destruct s as [|d s]; [auto|].
      cbn [all_space] in Hs. apply andb_prop in Hs as [Hd Hs'].
      destruct (code d =? 10)%nat; constructor; auto;
        apply IHn; auto; simpl in *; try lia.
      now rewrite Hd, Hs'.
    + destruct (is_linebreak c).
      * constructor; auto. apply IHn; auto; lia.
      * apply IHn; auto; [lia|].
        rewrite all_space_app, Hc. simpl. now rewrite Hc1.
Qed.

Lemma tokenize_lines_spaces (ls : list string) :
  Forall (fun l => all_space l = true) ls ->
  forall lineno, exists ts,
    tokenize_lines pattern lineno ls = Ok ts /\
    Forall (fun t => is_type t "space" = true) ts.
Proof.
  induction 1 as [|l ls Hl _ IH]; intros lineno; [exists []; auto|].
  cbn [tokenize_lines]. destruct (IH (lineno + 1)) as (ts & -> & Hts).
  destruct l as [|c l'] eqn:E.
  - exists ts. auto.
  - rewrite <- E in *.
    rewrite (tokenize_line_single l ("space", "space"));
      [|rewrite E; discriminate
       |apply alt_match_spaces; auto; rewrite E; discriminate].
    eexists; split; [reflexivity|]. constructor; auto.
Qed.

Lemma get_from_spaces (l : list TokenInfo) :
  Forall (fun t => is_type t "space" = true) l ->
  forall j, get_from l j = None.
Proof.
  induction 1 as [|t l Ht _ IH]; intros j; [reflexivity|].
  cbn [get_from]. rewrite Ht. apply IH.
Qed.

Lemma parse_expression_no_term (ts : list TokenInfo) (n : nat) :
  get ts 0 = (-1, end_token 0) ->
  parse_expression (8 + n) ts 0 = Raise (TokenError (end_token 0)).
Proof.
  intros G. unfold parse_expression.
  cbn [Nat.add parse_logical_expression parse_comp_expression
       parse_sum_expression parse_prod_expression parse_post_expression
       parse_term].
  rewrite G. reflexivity.
Qed.

(** * The trees of the parser *)

Definition is_str (v : option value) : bool :=
  match v with Some (VStr _) => true | _ => false end.

Definition is_num (v : option value) : bool :=
  match v with Some (VInt _) | Some (VFloat _) => true | _ => false end.

Definition is_unset (v : option value) : bool :=
  match v with None => true | Some _ => false end.

Definition no_children (cs : list Element) : bool :=
  match cs with [] => true | _ => false end.

(** The node shapes the parser functions build: leaves VAR, NUM, STR and OP
    with their value; UNOP with OP and one operand; PRODOP, SUMOP, COMPARE
    and LOGICAL with OP in the middle; FUNC and ASSIGN with two children;
    CALL with ARGS, GET with KEY; LIST, PAREN, ARGS and KEY with any number
    of children. *)
Fixpoint grammatical (el : Element) : bool :=
  let 'El tag_ attrib children := el in
  forallb grammatical children &&
  (if tag_in tag_ ["VAR"; "STR"; "OP"] then
     is_str attrib && no_children children
   else if (tag_ =? "NUM")%string then
     is_num attrib && no_children children
   else
     is_unset attrib &&
     (if (tag_ =? "UNOP")%string then
        match children with
        | [op; _] => (tag op =? "OP")%string
        | _ => false
        end
      else if tag_in tag_ ["PRODOP"; "SUMOP"; "COMPARE"; "LOGICAL"] then
        match children with
        | [_; op; _] => (tag op =? "OP")%string
        | _ => false
        end
      else if tag_in tag_ ["FUNC"; "ASSIGN"] then
        match children with
        | [_; _] => true
        | _ => false
        end
      else if (tag_ =? "CALL")%string then
        match children with
        | [_; a] => (tag a =? "ARGS")%string
        | _ => false
        end
      else if (tag_ =? "GET")%string then
        match children with
        | [_; k] => (tag k =? "KEY")%string
        | _ => false
        end
      else tag_in tag_ ["LIST"; "PAREN"; "ARGS"; "KEY"])).

Definition grammar_at (n : nat) : Prop :=
  (forall ts i i' e, parse_term n ts i = Ok (i', e) -> grammatical e = true) /\
  (forall ts i i' c, parse_collection n ts i = Ok (i', c) ->
     forallb grammatical c = true) /\
  (forall ts i a i' c, collection_loop n ts i a = Ok (i', c) ->
     forallb grammatical a = true -> forallb grammatical c = true) /\
  (forall ts i i' e, parse_post_expression n ts i = Ok (i', e) ->
     grammatical e = true) /\
  (forall ts i l i' e, post_loop n ts i l = Ok (i', e) ->
     grammatical l = true -> grammatical e = true) /\
  (forall ts i i' e, parse_prod_expression n ts i = Ok (i', e) ->
     grammatical e = true) /\
  (forall ts i l i' e, prod_loop n ts i l = Ok (i', e) ->
     grammatical l = true -> grammatical e = true) /\
  (forall ts i i' e, parse_sum_expression n ts i = Ok (i', e) ->
     grammatical e = true) /\
  (forall ts i l i' e, sum_loop n ts i l = Ok (i', e) ->
     grammatical l = true -> grammatical e = true) /\
  (forall ts i i' e, parse_comp_expression n ts i = Ok (i', e) ->
     grammatical e = true) /\
  (forall ts i l i' e, comp_loop n ts i l = Ok (i', e) ->
     grammatical l = true -> grammatical e = true) /\
  (forall ts i i' e, parse_logical_expression n ts i = Ok (i', e) ->
     grammatical e = true) /\
  (forall ts i l i' e, logical_loop n ts i l = Ok (i', e) ->
     grammatical l = true -> grammatical e = true) /\
  (forall ts i i' e, parse_function_expression n ts i = Ok (i', e) ->
     grammatical e = true).

Lemma number_is_num (s : string) : is_num (Some (number s)) = true.
Proof. unfold number. destruct (_ && _); reflexivity. Qed.

Ltac grammar_goal :=
  try rewrite forallb_snoc;
  cbn [grammatical forallb Collection Node tag tag_in existsb is_str is_unset
       no_children String.eqb Ascii.eqb Bool.eqb orb andb];
  try rewrite number_is_num;
  repeat match goal with
         | H : ?x = true |- context [?x] =>
             lazymatch x with true => fail | _ => rewrite H end
         end;
  try reflexivity.

Ltac grammar_run IH :=
  match goal with
  | H : parse_string _ _ = Ok (Some _) |- _ =>
      unfold parse_string in H;
      destruct (index _ _); [|discriminate];
      injection H as H; apply parse_string_from_STR in H as [? ->]
  | H : ?r = Ok (?i', ?v) |- _ =>
      let P := fresh "Hgrammar" in
      run_fact IH H P; clear H
  | P : ?A -> ?B |- _ =>
      let a := fresh in
      assert (a : A) by grammar_goal;
      specialize (P a); clear a
  end.

Lemma parser_grammar (n : nat) : grammar_at n.
Proof.
  induction n as [|n IH].
  - repeat split; intros; discriminate.
  - unfold grammar_at in IH.
    repeat split; intros;
      match goal with H : _ = Ok _ |- _ => invert_run H end.
    all: repeat grammar_run IH.
    all: grammar_goal.
Qed.

Lemma parse_expression_grammar n ts i i' e :
  parse_expression n ts i = Ok (i', e) -> grammatical e = true.
Proof.
  intros H. unfold parse_expression in H. pose proof (parser_grammar n) as IH.
  unfold grammar_at in IH. repeat invert_step H.
  all: repeat grammar_run IH.
  all: grammar_goal.
Qed.

Lemma parse_grammatical (text : string) (root : Element) :
  parse text pattern = Ok root -> grammatical root = true.
Proof.
  unfold parse. intros H.
  destruct (tokenize text pattern) as [ts| |]; try discriminate H.
  cbn [bind] in H.
  destruct (parse_expression (fuel_of ts) ts 0) as [[i e]| |] eqn:E;
    try discriminate H.
  injection H as <-. eapply parse_expression_grammar; eauto.
Qed.

(** X7: every tree [parse] returns has the node shapes of the grammar, at
    every depth: VAR, STR and OP are leaves with a string, NUM a leaf with a
    number; UNOP has an OP and one operand; PRODOP, SUMOP, COMPARE and
    LOGICAL have an OP between two operands; FUNC and ASSIGN have two
    children; CALL has a callee and ARGS, GET a target and KEY; no other tag
    than these and LIST, PAREN, ARGS, KEY occurs. *)
Theorem parse_builds_grammatical_trees (text : string) (root : Element) :
  parse text pattern = Ok root -> grammatical root = true.
Proof. apply parse_grammatical. Qed.

Lemma parse_builds_grammatical_trees_witness :
  grammatical
    (Collection "ASSIGN"
       [Node "VAR" (VStr "x");
        Collection "CALL"
          [Node "VAR" (VStr "f");
           Collection "ARGS"
             [Collection "UNOP" [Node "OP" (VStr "-"); Node "NUM" (VInt 1)];
              Collection "GET"
                [Node "VAR" (VStr "a");
                 Collection "KEY" [Node "STR" (VStr "k")]]]]]) = true.
Proof.
  apply (parse_builds_grammatical_trees "x := f(-1, a['k'])").
  reflexivity.
Defined.






Section Rendering.

Variable str_float : string -> string.


End Rendering.



(** * Leaves and blank text *)


(** X5: a name, that is letters, underscores and backslashes of which the
    first is no backslash, is one token and parses to the VAR node of that
    name; there are no reserved words. *)
Theorem name_parses_to_VAR (c : ascii) (s : string) :
  c <> backslash -> forall_str is_word (String c s) = true ->
  tokenize (String c s) pattern =
    Ok [mkToken "word" "word" (String c s) 0
          (Z.of_nat (len (String c s))) 1] /\
  parse (String c s) pattern = Ok (Node "VAR" (VStr (String c s))).
Proof.
  intros N H. split; [|apply parse_word; auto].
  apply (tokenize_single (String c s) ("word", "word"));
    [discriminate | apply word_inline; exact H | apply alt_match_word; auto].
Qed.

Lemma name_parses_to_VAR_witness :
  tokenize "if_x" pattern = Ok [mkToken "word" "word" "if_x" 0 4 1] /\
  parse "if_x" pattern = Ok (Node "VAR" (VStr "if_x")).
Proof.
  apply (name_parses_to_VAR "i" "f_x").
  - discriminate.
  - reflexivity.
Defined.

(** X6: a text of white space only, the empty text included, has no term:
    [parse] raises the TokenError of the end token of index 0. *)
Theorem blank_text_raises_TokenError (text : string) :
  all_space text = true ->
  parse text pattern = Raise (TokenError (end_token 0)).
Proof.
  intros H. unfold parse, tokenize, splitlines.
  destruct (tokenize_lines_spaces (splitlines_from "" text)
              (splitlines_from_spaces (len text) text "" (le_n _) eq_refl H) 1)
    as (ts & -> & Hts).
  cbn [bind]. unfold fuel_of.
  replace (16 * length ts + 16)%nat with (8 + (16 * length ts + 8))%nat by lia.
  rewrite parse_expression_no_term; [reflexivity|].
  unfold get. change (slice_from ts 0) with ts.
  rewrite get_from_spaces by exact Hts. reflexivity.
Qed.

Lemma blank_text_raises_TokenError_witness :
  parse (" " ++ chr nl ++ "  ") pattern = Raise (TokenError (end_token 0)).
Proof.
  apply (blank_text_raises_TokenError (" " ++ chr nl ++ "  ")).
  reflexivity.
Defined.

(** * The texts [tokenize] accepts *)

Lemma tokenize_line_raises (lineno : Z) (l : string) :
  forall fuel i e,
    (i <= len l)%nat ->
    tokenize_line fuel pattern lineno l i = Raise e ->
    exists p, dead l p.
Proof.
  induction fuel; intros i e Hi H; cbn [tokenize_line] in H; [discriminate|].
  destruct (pattern_match pattern l i) as [[[ty va] j]|] eqn:E.
  - pose proof (pattern_match_inside _ _ _ _ E) as [Hj _].
    destruct (tokenize_line fuel pattern lineno l j) as [ts|e'|] eqn:R;
      cbn [bind] in H; try discriminate.
    apply (IHfuel j e'); [lia | exact R].
  - destruct (Nat.eqb_spec i (len l)); [discriminate|].
    exists i. split; [lia | exact E].
Qed.

Lemma tokenize_lines_raises (ls : list string) :
  forall lineno e,
    tokenize_lines pattern lineno ls = Raise e ->
    exists l p, In l ls /\ dead l p.
Proof.
  induction ls as [|l ls IH]; intros lineno e H; cbn [tokenize_lines] in H;
    [discriminate|].
  destruct (tokenize_line (S (len l)) pattern lineno l 0) as [ts|e'|] eqn:R;
    cbn [bind] in H.
  - destruct (tokenize_lines pattern (lineno + 1) ls) as [rest|e'|] eqn:R';
      cbn [bind] in H; try discriminate.
    destruct (IH _ _ R') as (l' & p & Hin & Hd).
    exists l', p. split; [right|]; auto.
  - apply tokenize_line_raises in R as [p Hp]; [|lia].
    exists l, p. split; [left|]; auto.
  - discriminate.
Qed.

(** X9: [tokenize] accepts a text exactly when no line of it has a position
    at which no rule of the table matches; no text is rejected for another
    reason. *)
Theorem tokenize_accepts_live_texts (text : string) :
  (exists ts, tokenize text pattern = Ok ts) <->
  (forall l p, In l (splitlines text) -> ~ dead l p).
Proof.
  split.
  - intros [ts H] l p Hin Hd.
    assert (R : tokenize text pattern = Raise AssertionError)
      by (apply tokenize_lines_dead; eauto).
    congruence.
  - intros H. unfold tokenize.
    destruct (tokenize_lines_total (splitlines text) 1) as [[ts E] | E];
      [eauto|].
    apply tokenize_lines_raises in E as (l & p & Hin & Hd).
    destruct (H l p Hin Hd).
Qed.

(** * The indented mode of [froot] *)

(** No node of [el] is a CALL, LIST or ARGS node. *)
Fixpoint unbroken (el : Element) : bool :=
  let 'El tag_ _ children := el in
  forallb unbroken children && negb (tag_in tag_ ["CALL"; "LIST"; "ARGS"]).

Lemma for_each_ext (f g : Element -> result string) (cs : list Element) :
  Forall (fun c => f c = g c) cs -> for_each f cs = for_each g cs.
Proof.
  induction 1 as [|c cs H _ IH]; [reflexivity|].
  cbn [for_each]. fold (for_each f) (for_each g). now rewrite H, IH.
Qed.

Section Indent.

Variable str_float : string -> string.

Lemma froot_unbroken (el : Element) :
  unbroken el = true ->
  forall n, froot str_float el (Some n) = froot str_float el None.
Proof.
  induction el as [tag_ attrib children IH] using Element_ind'.
  intros U n. cbn [unbroken] in U. apply andb_prop in U as [Uc U].
  assert (F : Forall (fun c => froot str_float c (Some n) =
                                froot str_float c None) children).
  { rewrite Forall_forall in *. rewrite forallb_forall in Uc. auto. }
  clear IH Uc.
  pose proof (for_each_ext _ _ _ F) as E.
  assert (E0 : match children with
               | c :: _ => froot str_float c (Some n)
               | [] => Raise IndexError
               end =
               match children with
               | c :: _ => froot str_float c None
               | [] => Raise IndexError
               end).
  { destruct F; auto. }
  assert (E1 : match children with
               | _ :: c :: _ => froot str_float c (Some n)
               | _ => Raise IndexError
               end =
               match children with
               | _ :: c :: _ => froot str_float c None
               | _ => Raise IndexError
               end).
  { destruct F as [|? ? ? F]; auto. destruct F; auto. }
  cbn [tag_in existsb] in U.
  simpl.
  repeat match goal with
  | |- context [(tag_ =? ?x)%string] =>
      destruct (String.eqb_spec tag_ x); [subst tag_|]
  end.
  all: try discriminate U.
  all: try rewrite E; try rewrite E0; try rewrite E1; reflexivity.
Qed.

End Indent.

(** X10: the indented mode of [froot] changes the rendering of CALL, LIST
    and ARGS nodes only: a tree without such a node is rendered, or fails,
    in the same way at every indent width as in the compact mode. *)
Theorem indent_changes_calls_and_lists_only (str_float : string -> string)
  (el : Element) (n : nat) :
  unbroken el = true ->
  froot str_float el (Some n) = froot str_float el None.
Proof. intros H. apply froot_unbroken, H. Qed.

Lemma indent_changes_calls_and_lists_only_witness :
  let el := Collection "SUMOP"
              [Collection "GET" [Node "VAR" (VStr "a");
                                 Collection "KEY" [Node "NUM" (VInt 1)]];
               Node "OP" (VStr "+");
               Collection "PAREN" [Node "VAR" (VStr "b")]] in
  froot (fun l => l) el (Some 4%nat) = froot (fun l => l) el None.
Proof.
  apply (indent_changes_calls_and_lists_only (fun l => l)).
  reflexivity.
Defined.

(** * The lookahead of the parser *)

Definition is_space_token (t : TokenInfo) : bool := is_type t "space".

Lemma get_from_skips (l : list TokenInfo) :
  forall j j' t,
    get_from l j = Some (j', t) ->
    forallb is_space_token (firstn (Z.to_nat (j' - 1 - j)) l) = true.
Proof.
  induction l as [|a l IH]; intros j j' t H; cbn [get_from] in H;
    [discriminate|].
  destruct (is_type a "space") eqn:E.
  - pose proof (get_from_bounds _ _ _ _ H) as (Hb & _).
    apply IH in H.
    replace (Z.to_nat (j' - 1 - j)) with (S (Z.to_nat (j' - 1 - (j + 1))))
      by lia.
    cbn [firstn forallb]. unfold is_space_token at 1. now rewrite E.
  - injection H as <- <-. replace (j + 1 - 1 - j) with 0 by lia. reflexivity.
Qed.

Lemma get_from_None (l : list TokenInfo) :
  forall j, get_from l j = None -> forallb is_space_token l = true.
Proof.
  induction l as [|a l IH]; intros j H; cbn [get_from] in H; [reflexivity|].
  destruct (is_type a "space") eqn:E; [|discriminate].
  cbn [forallb]. unfold is_space_token at 1. rewrite E. eauto.
Qed.

Lemma _i_from_spaces (l : list TokenInfo) :
  forall j seen,
    forallb is_space_token l = true ->
    _i_from l j seen =
    match l with
    | [] => match seen with
            | Some j' => Ok j'
            | None => Raise UnboundLocalError
            end
    | _ => Ok (j + Z.of_nat (length l) - 1)
    end.
Proof.
  induction l as [|a l IH]; intros j seen H; [reflexivity|].
  cbn [forallb] in H. apply andb_prop in H as [Ha Hl].
  cbn [_i_from]. unfold is_space_token in Ha. rewrite Ha.
  rewrite IH by exact Hl. destruct l; [f_equal; simpl; lia|].
  f_equal. cbn [length]. lia.
Qed.

(** X11: the three lookahead functions agree on the next token that is no
    space.  From an index [i] that is not negative, when there is such a
    token at or after [i], [get] returns it with the index after it, every
    token skipped is a space, [get_token] returns the same token and [_i]
    the same index.  When there is none, [get] returns -1 and the end token
    and [get_token] returns [None], but [_i] returns the index of the last
    token, or raises UnboundLocalError when [i] is past the tokens. *)
Theorem lookahead_agrees (ts : list TokenInfo) (i j : Z) (t : TokenInfo) :
  0 <= i -> get ts i = (j, t) ->
  (j = -1 /\ t = end_token i /\ get_token ts i = None /\
   forallb is_space_token (slice_from ts i) = true /\
   _i ts i = (if i <? Z.of_nat (length ts)
              then Ok (Z.of_nat (length ts) - 1)
              else Raise UnboundLocalError)) \/
  (i < j <= Z.of_nat (length ts) /\ index ts (j - 1) = Some t /\
   is_type t "space" = false /\
   forallb is_space_token (slice ts i (j - 1)) = true /\
   get_token ts i = Some t /\ _i ts i = Ok j).
Proof.
  intros Hi G.
  destruct (get_spec ts i j t Hi G) as [(-> & -> & T) | (B & S & T & I & X)].
  - left. repeat split; auto.
    + unfold get in G.
      destruct (get_from (slice_from ts i) i) as [[j' t']|] eqn:E.
      * apply get_from_bounds in E. injection G as G _. lia.
      * eapply get_from_None; eauto.
    + unfold get in G.
      destruct (get_from (slice_from ts i) i) as [[j' t']|] eqn:E.
      * apply get_from_bounds in E. injection G as G _. lia.
      * apply get_from_None in E. unfold _i.
        rewrite _i_from_spaces by exact E.
        rewrite slice_from_nonneg in * by exact Hi.
        destruct (Z.ltb_spec i (Z.of_nat (length ts))).
        -- destruct (skipn (Z.to_nat i) ts) eqn:K.
           ++ apply (f_equal (@length _)) in K. rewrite length_skipn in K.
              simpl in K. lia.
           ++ rewrite <- K, length_skipn. f_equal. lia.
        -- rewrite skipn_all2 by lia. reflexivity.
  - right. repeat split; auto; try lia.
    unfold get in G.
    destruct (get_from (slice_from ts i) i) as [[j' t']|] eqn:E.
    + injection G as -> ->. apply get_from_skips in E.
      rewrite slice_from_nonneg in E by exact Hi.
      unfold slice. destruct (Z.ltb_spec i 0); [lia|].
      destruct (Z.ltb_spec (j - 1) 0); [lia|].
      rewrite !Z.min_l by lia. exact E.
    + injection G as G _. lia.
Qed.

Lemma lookahead_agrees_witness :
  let a := mkToken "word" "word" "a" 0 1 1 in
  let sp := mkToken "space" "space" " " 1 2 1 in
  let b := mkToken "word" "word" "b" 2 3 1 in
  let ts := [a; sp; b] in
  (3 = -1 /\ b = end_token 1 /\ get_token ts 1 = None /\
   forallb is_space_token (slice_from ts 1) = true /\
   _i ts 1 = (if 1 <? Z.of_nat (length ts)
              then Ok (Z.of_nat (length ts) - 1)
              else Raise UnboundLocalError)) \/
  (1 < 3 <= Z.of_nat (length ts) /\ index ts (3 - 1) = Some b /\
   is_type b "space" = false /\
   forallb is_space_token (slice ts 1 (3 - 1)) = true /\
   get_token ts 1 = Some b /\ _i ts 1 = Ok 3).
Proof.
  apply (lookahead_agrees
           [mkToken "word" "word" "a" 0 1 1;
            mkToken "space" "space" " " 1 2 1;
            mkToken "word" "word" "b" 2 3 1] 1 3
           (mkToken "word" "word" "b" 2 3 1)).
  - lia.
  - reflexivity.
Defined.

(** * The index of the parser *)

(** X12: a run of [parse_expression] that returns, from an index that is
    not negative, read at least one token that is no space and returns an
    index after that token and within the tokens. *)
Theorem parse_expression_advances (n : nat) (ts : list TokenInfo) (i i' : Z)
  (e : Element) :
  parse_expression n ts i = Ok (i', e) -> 0 <= i ->
  i < fst (get ts i) <= i' /\ i' <= Z.of_nat (length ts) /\
  exists t, index ts (fst (get ts i) - 1) = Some t /\
            is_type t "space" = false.
Proof.
  intros H Hi.
  pose proof (parse_expression_bounds _ _ _ _ _ H Hi) as [B L].
  repeat split; try lia.
  destruct (get ts i) as [j t] eqn:G. cbn [fst] in *.
  destruct (get_spec ts i j t Hi G) as [(-> & _) | (_ & S & _ & _ & X)];
    [lia|]. eauto.
Qed.

Lemma parse_expression_advances_witness :
  let ts := [mkToken "space" "space" " " 0 1 1;
             mkToken "word" "word" "a" 1 2 1;
             mkToken "close" "rparen" ")" 2 3 1] in
  0 < fst (get ts 0) <= 2 /\ 2 <= Z.of_nat (length ts) /\
  exists t, index ts (fst (get ts 0) - 1) = Some t /\
            is_type t "space" = false.
Proof.
  apply (parse_expression_advances 16
           [mkToken "space" "space" " " 0 1 1;
            mkToken "word" "word" "a" 1 2 1;
            mkToken "close" "rparen" ")" 2 3 1] 0 2
           (Node "VAR" (VStr "a"))).
  - reflexivity.
  - lia.
Defined.

(** * Texts that start with no term *)

(** The tokens at which [parse_term] gives up at once: an operator other
    than the plus and the minus sign, a closing bracket, a comma, the end
    token. *)
Definition starts_no_term (t : TokenInfo) : bool :=
  (is_type t "operator" && negb (variant_in t ["add"; "minus"]))
  || is_type t "close" || is_type t "sep" || is_type t "end".

Lemma parse_expression_first_raises (ts : list TokenInfo) (n : nat)
  (e : exn) :
  parse_term (S n) ts 0 = Raise e ->
  parse_expression (6 + n) ts 0 = Raise e.
Proof.
  intros H. unfold parse_expression.
  cbn [Nat.add parse_logical_expression parse_comp_expression
       parse_sum_expression parse_prod_expression parse_post_expression].
  rewrite H. reflexivity.
Qed.

(** X13: a text whose first token that is no space cannot start a term is
    rejected by that token: an operator other than the plus and the minus
    sign raises NotImplementedError with its variant; a closing bracket, a
    comma, and the end of the tokens raise TokenError with the token. *)
Theorem first_token_must_start_a_term (text : string) (ts : list TokenInfo)
  (j : Z) (t : TokenInfo) :
  tokenize text pattern = Ok ts -> get ts 0 = (j, t) ->
  starts_no_term t = true ->
  parse text pattern =
  Raise (if is_type t "operator" then NotImplementedError (variant t)
         else TokenError t).
Proof.
  intros T G Hs. unfold parse. rewrite T. cbn [bind]. unfold fuel_of.
  replace (16 * length ts + 16)%nat with (6 + (16 * length ts + 10))%nat
    by lia.
  rewrite (parse_expression_first_raises ts _
             (if is_type t "operator" then NotImplementedError (variant t)
              else TokenError t)); [reflexivity|].
  cbn [parse_term]. rewrite G.
  unfold starts_no_term, is_type in *.
  destruct (String.eqb_spec (type t) "operator") as [E|_].
  - rewrite E in *. cbn [String.eqb Ascii.eqb Bool.eqb andb orb] in *.
    rewrite !orb_false_r in Hs. apply negb_true_iff in Hs. rewrite Hs.
    reflexivity.
  - cbn [andb orb] in Hs.
    destruct (String.eqb_spec (type t) "close") as [E|_];
      [rewrite E; reflexivity|].
    destruct (String.eqb_spec (type t) "sep") as [E|_];
      [rewrite E; reflexivity|].
    destruct (String.eqb_spec (type t) "end") as [E|_];
      [rewrite E; reflexivity|discriminate Hs].
Qed.

Lemma first_token_must_start_a_term_witness :
  parse " * a" pattern = Raise (NotImplementedError "multiply").
Proof.
  apply (first_token_must_start_a_term " * a"
           [mkToken "space" "space" " " 0 1 1;
            mkToken "operator" "multiply" "*" 1 2 1;
            mkToken "space" "space" " " 2 3 1;
            mkToken "word" "word" "a" 3 4 1] 2
           (mkToken "operator" "multiply" "*" 1 2 1)).
  - reflexivity.
  - reflexivity.
  - reflexivity.
Defined.

(** * What the parser reads of a token *)

(** The variants the parser compares the variant of a token with, apart
    from the variant of the quote that opens a string. *)
Definition tested : list string :=
  ["lsquare"; "lparen"; "comma"; "escape"; "arrow"; "assign";
   "add"; "minus"; "multiply"; "divide";
   "equals"; "notEquals"; "greater"; "lesser"; "and"; "or"].

Section Relabel.

(** A change of the tokens that keeps their type and string, and their
    variant as far as the parser compares it. *)
Variable f : TokenInfo -> TokenInfo.
Variable opens : TokenInfo -> Prop.

Hypothesis f_type : forall t, type (f t) = type t.
Hypothesis f_string : forall t, string_ (f t) = string_ t.
Hypothesis f_tested :
  forall t s, tag_in s tested = true -> is_variant (f t) s = is_variant t s.
Hypothesis f_opens :
  forall q, opens q ->
    variant (f q) = variant q /\
    forall t, is_variant (f t) (variant q) = is_variant t (variant q).

Lemma f_is_type (t : TokenInfo) (s : string) : is_type (f t) s = is_type t s.
Proof. unfold is_type. now rewrite f_type. Qed.

Lemma f_variant_in (t : TokenInfo) (l : list string) :
  forallb (fun s => tag_in s tested) l = true ->
  variant_in (f t) l = variant_in t l.
Proof.
  unfold variant_in. induction l as [|s l IH]; [reflexivity|].
  cbn [forallb existsb]. intros H. apply andb_prop in H as [Hs Hl].
  rewrite IH by exact Hl. f_equal. apply (f_tested t s Hs).
Qed.

Lemma slice_from_map (l : list TokenInfo) (i : Z) :
  slice_from (map f l) i = map f (slice_from l i).
Proof. unfold slice_from. rewrite length_map. destruct (i <? 0); apply skipn_map. Qed.

Lemma slice_map (l : list TokenInfo) (i j : Z) :
  slice (map f l) i j = map f (slice l i j).
Proof. unfold slice. rewrite length_map, skipn_map, firstn_map. reflexivity. Qed.

Lemma index_map (l : list TokenInfo) (i : Z) :
  index (map f l) i = option_map f (index l i).
Proof.
  unfold index. rewrite length_map.
  destruct (i <? 0); [destruct (_ <? 0); [reflexivity|]|];
    apply nth_error_map.
Qed.

Lemma get_from_map (l : list TokenInfo) :
  forall j, get_from (map f l) j =
            option_map (fun r => (fst r, f (snd r))) (get_from l j).
Proof.
  induction l as [|t l IH]; intros j; [reflexivity|].
  cbn [map get_from]. rewrite f_is_type. destruct (is_type t "space"); auto.
Qed.

(** The token of a [get] on the changed tokens reads like the one on the
    tokens. *)
Definition alike (t t' : TokenInfo) : Prop :=
  (forall s, is_type t' s = is_type t s) /\
  string_ t' = string_ t /\
  (forall s, tag_in s tested = true -> is_variant t' s = is_variant t s) /\
  (forall l, forallb (fun s => tag_in s tested) l = true ->
             variant_in t' l = variant_in t l).

Lemma alike_refl (t : TokenInfo) : alike t t.
Proof. repeat split; auto. Qed.

Lemma alike_f (t : TokenInfo) : alike t (f t).
Proof.
  repeat split; auto using f_is_type, f_string, f_tested, f_variant_in.
Qed.

Lemma get_map (ts : list TokenInfo) (i j : Z) (t : TokenInfo) :
  get ts i = (j, t) ->
  exists t', get (map f ts) i = (j, t') /\ alike t t'.
Proof.
  unfold get. rewrite slice_from_map, get_from_map.
  destruct (get_from (slice_from ts i) i) as [[j0 t0]|]; cbn [option_map fst snd].
  - intros [= <- <-]. eauto using alike_f.
  - intros [= <- <-]. eauto using alike_refl.
Qed.

Lemma get_token_map (ts : list TokenInfo) (i : Z) :
  get_token (map f ts) i = option_map f (get_token ts i).
Proof.
  unfold get_token. rewrite slice_from_map.
  induction (slice_from ts i) as [|t l IH]; [reflexivity|].
  cbn [map get_token_from]. rewrite f_is_type.
  destruct (is_type t "space"); auto.
Qed.

Lemma _i_map (ts : list TokenInfo) (i : Z) : _i (map f ts) i = _i ts i.
Proof.
  unfold _i. rewrite slice_from_map. generalize (@None Z). generalize i at 2 4.
  induction (slice_from ts i) as [|t l IH]; intros j seen; [reflexivity|].
  cbn [map _i_from]. rewrite f_is_type. destruct (is_type t "space"); auto.
Qed.

Lemma join_strings_map (l : list TokenInfo) :
  map string_ (map f l) = map string_ l.
Proof. rewrite map_map. apply map_ext. exact f_string. Qed.

Lemma parse_string_from_map (ts : list TokenInfo) (q : TokenInfo) (i : Z)
  (l : list TokenInfo) :
  opens q ->
  forall j escape,
    parse_string_from (map f ts) (variant q) i (map f l) j escape =
    parse_string_from ts (variant q) i l j escape.
Proof.
  intros Hq. destruct (f_opens q Hq) as [_ Hv].
  induction l as [|t l IH]; intros j escape; [reflexivity|].
  cbn [map parse_string_from]. rewrite !IH, Hv.
  rewrite (f_tested t "escape") by reflexivity.
  rewrite slice_map, join_strings_map. reflexivity.
Qed.

Lemma parse_string_map (ts : list TokenInfo) (q : TokenInfo) (i : Z) :
  index ts (i - 1) = Some q -> opens q ->
  parse_string (map f ts) i = parse_string ts i.
Proof.
  intros E Hq. unfold parse_string. rewrite index_map, E. cbn [option_map].
  destruct (f_opens q Hq) as [-> _].
  rewrite slice_from_map. now rewrite parse_string_from_map.
Qed.

(** The tokens of the run; a token of type string is one that may open a
    string. *)
Variable ts : list TokenInfo.
Hypothesis ts_opens :
  Forall (fun t => is_type t "string" = true -> opens t) ts.

Lemma get_opens (i j : Z) (t : TokenInfo) :
  0 <= i -> get ts i = (j, t) -> is_type t "string" = true ->
  index ts (j - 1) = Some t /\ opens t.
Proof.
  intros Hi G T.
  destruct (get_spec ts i j t Hi G) as [(_ & -> & _) | (B & _ & _ & _ & X)];
    [discriminate T|].
  split; [exact X|].
  unfold index in X. destruct (Z.ltb_spec (j - 1) 0); [lia|].
  apply nth_error_In in X. rewrite Forall_forall in ts_opens. auto.
Qed.

Definition relabel_at (n : nat) : Prop :=
  (forall i i' e, parse_term n ts i = Ok (i', e) -> 0 <= i ->
     parse_term n (map f ts) i = Ok (i', e)) /\
  (forall i i' c, parse_collection n ts i = Ok (i', c) -> 0 <= i ->
     parse_collection n (map f ts) i = Ok (i', c)) /\
  (forall i a i' c, collection_loop n ts i a = Ok (i', c) -> 0 <= i ->
     collection_loop n (map f ts) i a = Ok (i', c)) /\
  (forall i i' e, parse_post_expression n ts i = Ok (i', e) -> 0 <= i ->
     parse_post_expression n (map f ts) i = Ok (i', e)) /\
  (forall i l i' e, post_loop n ts i l = Ok (i', e) ->
     0 <= i <= Z.of_nat (length ts) ->
     post_loop n (map f ts) i l = Ok (i', e)) /\
  (forall i i' e, parse_prod_expression n ts i = Ok (i', e) -> 0 <= i ->
     parse_prod_expression n (map f ts) i = Ok (i', e)) /\
  (forall i l i' e, prod_loop n ts i l = Ok (i', e) ->
     0 <= i <= Z.of_nat (length ts) ->
     prod_loop n (map f ts) i l = Ok (i', e)) /\
  (forall i i' e, parse_sum_expression n ts i = Ok (i', e) -> 0 <= i ->
     parse_sum_expression n (map f ts) i = Ok (i', e)) /\
  (forall i l i' e, sum_loop n ts i l = Ok (i', e) ->
     0 <= i <= Z.of_nat (length ts) ->
     sum_loop n (map f ts) i l = Ok (i', e)) /\
  (forall i i' e, parse_comp_expression n ts i = Ok (i', e) -> 0 <= i ->
     parse_comp_expression n (map f ts) i = Ok (i', e)) /\
  (forall i l i' e, comp_loop n ts i l = Ok (i', e) ->
     0 <= i <= Z.of_nat (length ts) ->
     comp_loop n (map f ts) i l = Ok (i', e)) /\
  (forall i i' e, parse_logical_expression n ts i = Ok (i', e) -> 0 <= i ->
     parse_logical_expression n (map f ts) i = Ok (i', e)) /\
  (forall i l i' e, logical_loop n ts i l = Ok (i', e) ->
     0 <= i <= Z.of_nat (length ts) ->
     logical_loop n (map f ts) i l = Ok (i', e)) /\
  (forall i i' e, parse_function_expression n ts i = Ok (i', e) -> 0 <= i ->
     parse_function_expression n (map f ts) i = Ok (i', e)).

(** The same run, step by step, on the changed tokens. *)
Ltac on_map n IH :=
  unfold_parser;
  repeat first
    [ match goal with
      | G : got ts ?i (?j, ?t), T : is_type ?t "string" = true
        |- context [parse_string (map f ts) ?j] =>
          let X := fresh in
          destruct (get_opens i j t ltac:(lia) G T) as [X ?];
          rewrite (parse_string_map ts t j X ltac:(assumption))
      end
    | match goal with
      | G : got ts ?i (?j, ?t) |- context [get (map f ts) ?i] =>
          let t' := fresh "t'" in
          let E := fresh in
          let A1 := fresh in let A2 := fresh in
          let A3 := fresh in let A4 := fresh in
          destruct (get_map ts i j t G)
            as (t' & E & A1 & A2 & A3 & A4);
          rewrite E; clear E;
          cbv beta iota zeta;
          rewrite ?A1, ?A2;
          repeat match goal with
                 | |- context [is_variant t' ?s] => rewrite (A3 s eq_refl)
                 | |- context [variant_in t' ?l] => rewrite (A4 l eq_refl)
                 end;
          clear A1 A2 A3 A4
      end
    | match goal with
      | G : get_token ts ?i = Some ?t
        |- context [get_token (map f ts) ?i] =>
          rewrite (get_token_map ts i), G; cbn [option_map];
          rewrite f_is_type
      end
    | match goal with
      | H : ran (_i ts ?i) ?i' |- context [_i (map f ts) ?i] =>
          rewrite (_i_map ts i); unfold ran in H; rewrite H
      end
    | match goal with
      | H : ?c = ?b |- context [if ?c then _ else _] => rewrite H
      end
    | match goal with
      | H : ran (?g n ts ?j) (?i', ?v) |- context [?g n (map f ts) ?j] =>
          let E := fresh in
          assert (E : g n (map f ts) j = Ok (i', v))
            by (apply IH; [exact H | lia]);
          rewrite E; clear E
      | H : ran (?g n ts ?j ?l) (?i', ?v)
        |- context [?g n (map f ts) ?j ?l] =>
          let E := fresh in
          assert (E : g n (map f ts) j l = Ok (i', v))
            by (apply IH; [exact H | lia]);
          rewrite E; clear E
      | H : ran (parse_string ts ?j) ?r |- context [parse_string ts ?j] =>
          unfold ran in H; rewrite H
      end
    | progress cbn [bind negb]
    | progress cbv beta iota zeta ].

Lemma parser_relabel (n : nat) : relabel_at n.
Proof.
  induction n as [|n IH].
  - repeat split; intros; discriminate.
  - unfold relabel_at in IH.
    repeat split; intros;
      match goal with H : _ = Ok _ |- _ => invert_run H end.
    all: know n.
    all: on_map n IH; try reflexivity.
Qed.

Lemma parse_expression_relabel n i i' e :
  parse_expression n ts i = Ok (i', e) -> 0 <= i ->
  parse_expression n (map f ts) i = Ok (i', e).
Proof.
  intros H Hi. unfold parse_expression in *.
  pose proof (parser_relabel n) as IH. unfold relabel_at in IH.
  repeat invert_step H.
  all: know n.
  all: on_map n IH; try reflexivity.
Qed.

End Relabel.

(** [t] at another place of the text. *)
Definition relocate (place : TokenInfo -> Z * Z * Z) (t : TokenInfo)
  : TokenInfo :=
  let '(start', end', line') := place t in
  mkToken (type t) (variant t) (string_ t) start' end' line'.

(** X14: the parser reads the type, the variant and the string of a token,
    never its offsets or its line: a run of [parse_expression] that returns
    returns the same index and tree when every token is given other
    offsets and another line. *)
Theorem positions_are_not_read (place : TokenInfo -> Z * Z * Z)
  (n : nat) (ts : list TokenInfo) (i i' : Z) (e : Element) :
  parse_expression n ts i = Ok (i', e) -> 0 <= i ->
  parse_expression n (map (relocate place) ts) i = Ok (i', e).
Proof.
  intros H Hi.
  apply (parse_expression_relabel (relocate place) (fun _ => True)); auto.
  - intros t. unfold relocate. destruct (place t) as [[? ?] ?]. reflexivity.
  - intros t. unfold relocate. destruct (place t) as [[? ?] ?]. reflexivity.
  - intros t s _. unfold relocate. destruct (place t) as [[? ?] ?].
    reflexivity.
  - intros q _. split; [|intros t]; unfold relocate;
      [destruct (place q) as [[? ?] ?] | destruct (place t) as [[? ?] ?]];
      reflexivity.
  - apply Forall_forall. auto.
Qed.

Lemma positions_are_not_read_witness :
  parse_expression 48
    (map (relocate (fun _ => (0, 0, 0)))
       [mkToken "word" "word" "a" 0 1 1;
        mkToken "operator" "add" "+" 1 2 1;
        mkToken "number" "number" "1" 2 3 1]) 0 =
  Ok (3, Collection "SUMOP"
           [Node "VAR" (VStr "a"); Node "OP" (VStr "+"); Node "NUM" (VInt 1)]).
Proof.
  apply (positions_are_not_read (fun _ => (0, 0, 0)) 48
           [mkToken "word" "word" "a" 0 1 1;
            mkToken "operator" "add" "+" 1 2 1;
            mkToken "number" "number" "1" 2 3 1] 0).
  - reflexivity.
  - lia.
Defined.

(** * Closing brackets *)

Definition closers : list string := ["rparen"; "rcurly"; "rsquare"].

(** [t] with the variant [v], when [t] is a closing bracket. *)
Definition reclose (v : string) (t : TokenInfo) : TokenInfo :=
  if is_type t "close" && tag_in (variant t) closers
  then mkToken (type t) v (string_ t) (start t) (end_ t) (line t)
  else t.

Lemma closer_not_tested (x s : string) :
  tag_in x closers = true -> tag_in s tested = true -> (x =? s)%string = false.
Proof.
  unfold tag_in, closers, tested. cbn [existsb].
  rewrite !orb_true_iff, !String.eqb_eq.
  intros Hx Hs.
  repeat match goal with
         | H : _ \/ _ |- _ => destruct H as [H|H]
         | H : false = true |- _ => discriminate H
         end; subst; reflexivity.
Qed.

Lemma table_string_opens (text : string) (ts : list TokenInfo) :
  tokenize text pattern = Ok ts ->
  Forall (fun t => is_type t "string" = true ->
                   tag_in (variant t) closers = false /\
                   is_type t "close" = false) ts.
Proof.
  intros H. apply Forall_forall. intros t Hin T.
  apply tokenize_matched in H. rewrite Forall_forall in H.
  destruct (H t Hin) as (s & n & A & _).
  apply alt_match_group in A as [G _].
  unfold is_type in *. apply String.eqb_eq in T. rewrite T in *.
  cbn in G.
  repeat match goal with
         | H : _ \/ _ |- _ => destruct H as [H|H]
         | H : False |- _ => destruct H
         | H : (_, _) = (_, _) |- _ =>
             first [discriminate H | injection H as H; rewrite <- H]
         end;
    split; reflexivity.
Qed.

(** X15: the parser never reads which closing bracket it meets: when the
    tokens of a text are parsed, the same index and tree are returned after
    every closing bracket is given the variant of another one; so any
    closing bracket closes any collection, and the square bracket of
    "f(a]" closes the call as the round one of "f(a)" does. *)
Theorem closing_brackets_are_interchangeable (v : string) (text : string)
  (ts : list TokenInfo) (n : nat) (i i' : Z) (e : Element) :
  tokenize text pattern = Ok ts -> tag_in v closers = true ->
  parse_expression n ts i = Ok (i', e) -> 0 <= i ->
  parse_expression n (map (reclose v) ts) i = Ok (i', e) /\
  parse "f(a]" pattern = parse "f(a)" pattern /\
  parse "[a, b)" pattern = parse "[a, b]" pattern.
Proof.
  intros T V H Hi. split; [|split; reflexivity].
  apply (parse_expression_relabel (reclose v)
           (fun t => tag_in (variant t) closers = false /\
                     is_type t "close" = false)); auto.
  - intros t. unfold reclose. destruct (_ && _); reflexivity.
  - intros t. unfold reclose. destruct (_ && _); reflexivity.
  - intros t s Hs. unfold reclose.
    destruct (is_type t "close" && tag_in (variant t) closers) eqn:C;
      [|reflexivity].
    apply andb_prop in C as [_ C]. unfold is_variant. cbn [variant].
    rewrite (closer_not_tested v s V Hs).
    now rewrite (closer_not_tested (variant t) s C Hs).
  - intros q [Hq Hc]. unfold reclose. rewrite Hc. cbn [andb].
    split; [reflexivity|]. intros t.
    destruct (is_type t "close" && tag_in (variant t) closers) eqn:C;
      [|reflexivity].
    apply andb_prop in C as [_ C]. unfold is_variant. cbn [variant].
    assert (N : forall x, tag_in x closers = true ->
                          (x =? variant q)%string = false).
    { intros x Hx. destruct (String.eqb_spec x (variant q)); [|reflexivity].
      subst x. congruence. }
    now rewrite (N v V), (N (variant t) C).
  - apply (table_string_opens text), T.
Qed.

Lemma closing_brackets_are_interchangeable_witness :
  parse_expression 64
    (map (reclose "rsquare")
       [mkToken "word" "word" "f" 0 1 1;
        mkToken "open" "lparen" "(" 1 2 1;
        mkToken "word" "word" "a" 2 3 1;
        mkToken "close" "rparen" ")" 3 4 1]) 0 =
  Ok (4, Collection "CALL"
           [Node "VAR" (VStr "f");
            Collection "ARGS" [Node "VAR" (VStr "a")]]) /\
  parse "f(a]" pattern = parse "f(a)" pattern /\
  parse "[a, b)" pattern = parse "[a, b]" pattern.
Proof.
  apply (closing_brackets_are_interchangeable "rsquare" "f(a)"
           [mkToken "word" "word" "f" 0 1 1;
            mkToken "open" "lparen" "(" 1 2 1;
            mkToken "word" "word" "a" 2 3 1;
            mkToken "close" "rparen" ")" 3 4 1] 64 0).
  - reflexivity.
  - reflexivity.
  - reflexivity.
  - lia.
Defined.

(** * Space tokens *)

(** The tokens without the space tokens, and the index in them of the token
    of index [i]. *)
Definition strip (ts : list TokenInfo) : list TokenInfo :=
  filter (fun t => negb (is_type t "space")) ts.

Definition pos (ts : list TokenInfo) (i : Z) : Z :=
  Z.of_nat (length (strip (firstn (Z.to_nat i) ts))).

Lemma strip_app (a b : list TokenInfo) :
  strip (a ++ b)%list = (strip a ++ strip b)%list.
Proof. apply filter_app. Qed.

Lemma strip_skipn (ts : list TokenInfo) (i : Z) :
  0 <= i ->
  slice_from (strip ts) (pos ts i) = strip (slice_from ts i).
Proof.
  intros Hi. rewrite !slice_from_nonneg by (unfold pos; lia).
  unfold pos. rewrite Nat2Z.id.
  assert (E : strip ts = (strip (firstn (Z.to_nat i) ts) ++
                          strip (skipn (Z.to_nat i) ts))%list)
    by (now rewrite <- strip_app, firstn_skipn).
  rewrite E at 1.
  rewrite skipn_app, Nat.sub_diag, skipn_all. reflexivity.
Qed.

Lemma get_from_strip (l : list TokenInfo) :
  forall j j' t k,
    get_from l j = Some (j', t) ->
    get_from (strip l) k = Some (k + 1, t) /\
    strip (firstn (Z.to_nat (j' - j)) l) = [t].
Proof.
  induction l as [|a l IH]; intros j j' t k H; [discriminate|].
  pose proof (get_from_bounds _ _ _ _ H) as (B & _).
  cbn [get_from] in H.
  cbn [strip filter]. destruct (is_type a "space") eqn:E; cbn [negb].
  - destruct (IH _ _ _ k H) as [G S]. split; [exact G|].
    apply get_from_bounds in H.
    replace (Z.to_nat (j' - j)) with (Datatypes.S (Z.to_nat (j' - (j + 1))))
      by lia.
    cbn [firstn strip filter]. rewrite E. exact S.
  - injection H as <- <-. cbn [get_from]. rewrite E. split; [reflexivity|].
    replace (j + 1 - j) with 1 by lia.
    change (Z.to_nat 1) with 1%nat.
    cbn [firstn strip filter]. rewrite ?E. reflexivity.
Qed.

Lemma get_from_strip_None (l : list TokenInfo) :
  forall j, get_from l j = None -> strip l = [].
Proof.
  induction l as [|a l IH]; intros j H; cbn [get_from] in H; [reflexivity|].
  cbn [strip filter]. destruct (is_type a "space"); [|discriminate].
  cbn [negb]. eauto.
Qed.

Lemma firstn_plus {A} (n m : nat) (l : list A) :
  firstn (n + m) l = (firstn n l ++ firstn m (skipn n l))%list.
Proof.
  revert l; induction n; intros l; [reflexivity|].
  destruct l; cbn [Nat.add firstn skipn Datatypes.app];
    [now rewrite firstn_nil | now rewrite IHn].
Qed.

Lemma pos_next (ts : list TokenInfo) (i j : Z) (t : TokenInfo) :
  0 <= i -> i <= j ->
  strip (firstn (Z.to_nat (j - i)) (skipn (Z.to_nat i) ts)) = [t] ->
  pos ts j = pos ts i + 1.
Proof.
  intros Hi Hj S. unfold pos.
  replace (Z.to_nat j) with (Z.to_nat i + Z.to_nat (j - i))%nat by lia.
  rewrite firstn_plus, strip_app, S, length_app. cbn [length]. lia.
Qed.

Lemma get_strip (ts : list TokenInfo) (i j : Z) (t : TokenInfo) :
  0 <= i -> get ts i = (j, t) ->
  (j = -1 /\ t = end_token i /\
   get (strip ts) (pos ts i) = (-1, end_token (pos ts i))) \/
  (i < j /\ get (strip ts) (pos ts i) = (pos ts j, t)).
Proof.
  intros Hi. unfold get. rewrite strip_skipn by exact Hi.
  destruct (get_from (slice_from ts i) i) as [[j0 t0]|] eqn:E.
  - intros [= <- <-]. right.
    pose proof (get_from_bounds _ _ _ _ E) as (B & _).
    destruct (get_from_strip _ _ _ _ (pos ts i) E) as [G S].
    rewrite G. rewrite slice_from_nonneg in S by exact Hi.
    rewrite (pos_next ts i j0 t0) by (auto; lia). split; [lia|reflexivity].
  - intros [= <- <-]. left.
    rewrite (get_from_strip_None _ _ E). auto.
Qed.

Lemma get_token_from_strip (l : list TokenInfo) :
  get_token_from (strip l) = get_token_from l.
Proof.
  induction l as [|a l IH]; [reflexivity|].
  cbn [strip filter get_token_from].
  destruct (is_type a "space") eqn:E; cbn [negb]; [exact IH|].
  cbn [get_token_from]. now rewrite E.
Qed.

Lemma get_token_strip (ts : list TokenInfo) (i : Z) :
  0 <= i -> get_token (strip ts) (pos ts i) = get_token ts i.
Proof.
  intros Hi. unfold get_token. rewrite strip_skipn by exact Hi.
  apply get_token_from_strip.
Qed.

Lemma pos_nonneg (ts : list TokenInfo) (i : Z) : 0 <= pos ts i.
Proof. unfold pos. lia. Qed.

Lemma _i_strip (ts : list TokenInfo) (i i' : Z) (t : TokenInfo) :
  0 <= i -> get_token ts i = Some t -> _i ts i = Ok i' ->
  _i (strip ts) (pos ts i) = Ok (pos ts i').
Proof.
  intros Hi T I.
  destruct (get_token_i ts i i' t Hi T I) as [G B].
  destruct (get_strip ts i i' t Hi G) as [(-> & _) | (_ & E)]; [lia|].
  destruct (get_spec _ _ _ _ (pos_nonneg ts i) E)
    as [(N & _) | (_ & _ & _ & X & _)]; [|exact X].
  pose proof (pos_nonneg ts i'). lia.
Qed.

Section Strip.

Variable ts : list TokenInfo.
Hypothesis no_strings : Forall (fun t => is_type t "string" = false) ts.

Lemma get_no_string (i j : Z) (t : TokenInfo) :
  0 <= i -> get ts i = (j, t) -> is_type t "string" = true -> False.
Proof.
  intros Hi G T.
  destruct (get_spec ts i j t Hi G) as [(_ & -> & _) | (B & _ & _ & _ & X)];
    [discriminate T|].
  unfold index in X. destruct (Z.ltb_spec (j - 1) 0); [lia|].
  apply nth_error_In in X. rewrite Forall_forall in no_strings.
  rewrite (no_strings t X) in T. discriminate.
Qed.

Definition strip_at (n : nat) : Prop :=
  (forall i i' e, parse_term n ts i = Ok (i', e) -> 0 <= i ->
     parse_term n (strip ts) (pos ts i) = Ok (pos ts i', e)) /\
  (forall i i' c, parse_collection n ts i = Ok (i', c) -> 0 <= i ->
     parse_collection n (strip ts) (pos ts i) = Ok (pos ts i', c)) /\
  (forall i a i' c, collection_loop n ts i a = Ok (i', c) -> 0 <= i ->
     collection_loop n (strip ts) (pos ts i) a = Ok (pos ts i', c)) /\
  (forall i i' e, parse_post_expression n ts i = Ok (i', e) -> 0 <= i ->
     parse_post_expression n (strip ts) (pos ts i) = Ok (pos ts i', e)) /\
  (forall i l i' e, post_loop n ts i l = Ok (i', e) ->
     0 <= i <= Z.of_nat (length ts) ->
     post_loop n (strip ts) (pos ts i) l = Ok (pos ts i', e)) /\
  (forall i i' e, parse_prod_expression n ts i = Ok (i', e) -> 0 <= i ->
     parse_prod_expression n (strip ts) (pos ts i) = Ok (pos ts i', e)) /\
  (forall i l i' e, prod_loop n ts i l = Ok (i', e) ->
     0 <= i <= Z.of_nat (length ts) ->
     prod_loop n (strip ts) (pos ts i) l = Ok (pos ts i', e)) /\
  (forall i i' e, parse_sum_expression n ts i = Ok (i', e) -> 0 <= i ->
     parse_sum_expression n (strip ts) (pos ts i) = Ok (pos ts i', e)) /\
  (forall i l i' e, sum_loop n ts i l = Ok (i', e) ->
     0 <= i <= Z.of_nat (length ts) ->
     sum_loop n (strip ts) (pos ts i) l = Ok (pos ts i', e)) /\
  (forall i i' e, parse_comp_expression n ts i = Ok (i', e) -> 0 <= i ->
     parse_comp_expression n (strip ts) (pos ts i) = Ok (pos ts i', e)) /\
  (forall i l i' e, comp_loop n ts i l = Ok (i', e) ->
     0 <= i <= Z.of_nat (length ts) ->
     comp_loop n (strip ts) (pos ts i) l = Ok (pos ts i', e)) /\
  (forall i i' e, parse_logical_expression n ts i = Ok (i', e) -> 0 <= i ->
     parse_logical_expression n (strip ts) (pos ts i) = Ok (pos ts i', e)) /\
  (forall i l i' e, logical_loop n ts i l = Ok (i', e) ->
     0 <= i <= Z.of_nat (length ts) ->
     logical_loop n (strip ts) (pos ts i) l = Ok (pos ts i', e)) /\
  (forall i i' e, parse_function_expression n ts i = Ok (i', e) -> 0 <= i ->
     parse_function_expression n (strip ts) (pos ts i) = Ok (pos ts i', e)).

Ltac no_string :=
  match goal with
  | G : got ts ?i (?j, ?t), T : is_type ?t "string" = true |- _ =>
      destruct (get_no_string i j t ltac:(lia) G T)
  end.

(** The same run, step by step, on the tokens without the spaces. *)
Ltac on_strip n IH :=
  unfold_parser;
  repeat first
    [ match goal with
      | G : got ts ?i (?j, ?t) |- context [get (strip ts) (pos ts ?i)] =>
          let E := fresh in
          destruct (get_strip ts i j t ltac:(lia) G)
            as [(? & ? & E) | (? & E)]; [|]; try lia;
          rewrite E; clear E
      end
    | match goal with
      | G : get_token ts ?i = Some ?t, H : ran (_i ts ?i) ?i'
        |- context [_i (strip ts) (pos ts ?i)] =>
          rewrite (_i_strip ts i i' t ltac:(lia) G H)
      end
    | match goal with
      | G : get_token ts ?i = Some ?t
        |- context [get_token (strip ts) (pos ts ?i)] =>
          rewrite (get_token_strip ts i ltac:(lia)), G
      end
    | match goal with
      | H : ?c = ?b |- context [if ?c then _ else _] => rewrite H
      end
    | match goal with
      | |- context [is_type (end_token ?i) ?s] =>
          change (is_type (end_token i) s) with false
      | |- context [is_variant (end_token ?i) ?s] =>
          change (is_variant (end_token i) s) with false
      | |- context [variant_in (end_token ?i) ?s] =>
          change (variant_in (end_token i) s) with false
      end
    | match goal with
      | H : ran (?g n ts ?j) (?i', ?v)
        |- context [?g n (strip ts) (pos ts ?j)] =>
          let E := fresh in
          assert (E : g n (strip ts) (pos ts j) = Ok (pos ts i', v))
            by (apply IH; [exact H | lia]);
          rewrite E; clear E
      | H : ran (?g n ts ?j ?l) (?i', ?v)
        |- context [?g n (strip ts) (pos ts ?j) ?l] =>
          let E := fresh in
          assert (E : g n (strip ts) (pos ts j) l = Ok (pos ts i', v))
            by (apply IH; [exact H | lia]);
          rewrite E; clear E
      end
    | progress cbn [bind negb]
    | progress cbv beta iota zeta ].

Lemma parser_strip (n : nat) : strip_at n.
Proof.
  induction n as [|n IH].
  - repeat split; intros; discriminate.
  - unfold strip_at in IH.
    repeat split; intros;
      match goal with H : _ = Ok _ |- _ => invert_run H end.
    all: know n.
    all: try no_string.
    all: on_strip n IH; try reflexivity.
Qed.

Lemma parse_expression_strip n i i' e :
  parse_expression n ts i = Ok (i', e) -> 0 <= i ->
  parse_expression n (strip ts) (pos ts i) = Ok (pos ts i', e).
Proof.
  intros H Hi. unfold parse_expression in *.
  pose proof (parser_strip n) as IH. unfold strip_at in IH.
  repeat invert_step H.
  all: know n.
  all: try no_string.
  all: on_strip n IH; try reflexivity.
Qed.

End Strip.

(** X16: outside strings the space tokens mean nothing to the parser: when
    no token is of type string, a run of [parse_expression] that returns
    returns the same tree on the tokens without the space tokens, and the
    index it returns is that of the same token. *)
Theorem space_tokens_are_skipped (ts : list TokenInfo) (n : nat) (i i' : Z)
  (e : Element) :
  Forall (fun t => is_type t "string" = false) ts ->
  parse_expression n ts i = Ok (i', e) -> 0 <= i ->
  parse_expression n (strip ts) (pos ts i) = Ok (pos ts i', e).
Proof. intros S H Hi. now apply parse_expression_strip. Qed.

Lemma space_tokens_are_skipped_witness :
  let ts := [mkToken "space" "space" " " 0 1 1;
             mkToken "word" "word" "a" 1 2 1;
             mkToken "space" "space" "  " 2 4 1;
             mkToken "operator" "add" "+" 4 5 1;
             mkToken "number" "number" "1" 5 6 1;
             mkToken "space" "space" " " 6 7 1] in
  parse_expression 112 (strip ts) (pos ts 0) =
  Ok (pos ts 5,
      Collection "SUMOP"
        [Node "VAR" (VStr "a"); Node "OP" (VStr "+"); Node "NUM" (VInt 1)]).
Proof.
  apply (space_tokens_are_skipped
           [mkToken "space" "space" " " 0 1 1;
            mkToken "word" "word" "a" 1 2 1;
            mkToken "space" "space" "  " 2 4 1;
            mkToken "operator" "add" "+" 4 5 1;
            mkToken "number" "number" "1" 5 6 1;
            mkToken "space" "space" " " 6 7 1] 112 0 5).
  - repeat constructor.
  - reflexivity.
  - lia.
Defined.

(** * The [repr] of the nodes *)

Section Repr.

Variable str_float : string -> string.

(** [Element._name]: the tag, then the attributes as key="value"; the only
    attribute there is is "value". *)
Definition _name (el : Element) : string :=
  join " "
    (tag el ::
     match get_value el with
     | Some v => ["value=" ++ chr dquote ++ str_value str_float (Some v)
                  ++ chr dquote]
     | None => []
     end).

(** [Node.__repr__]: [self[0]] is the first child, whose [text] is [None]
    as no element is given a text. *)
Definition Node_repr (el : Element) : result string :=
  match children el with
  | [] => Raise IndexError
  | _ :: _ => Ok ("<" ++ _name el ++ ">" ++ "None" ++ "</" ++ tag el ++ ">")
  end.

(** [Collection.__repr__] *)
Definition Collection_repr (el : Element) : string :=
  "<" ++ _name el ++ " with " ++ str_nat (length (children el))
  ++ " children>".

End Repr.

Lemma grammatical_node (root e : Element) :
  node_of e root -> grammatical root = true -> grammatical e = true.
Proof.
  induction 1 as [|root c Hin _ IH]; auto.
  intros H. apply IH. destruct root as [t a cs]. cbn [grammatical] in H.
  apply andb_prop in H as [H _]. rewrite forallb_forall in H. auto.
Qed.

Lemma grammatical_value (e : Element) :
  grammatical e = true ->
  match get_value e with
  | Some _ => children e = []
  | None => True
  end.
Proof.
  destruct e as [t a cs]. cbn [grammatical get_value children].
  intros H. apply andb_prop in H as [_ H].
  destruct a as [v|]; [|exact I].
  destruct (tag_in t ["VAR"; "STR"; "OP"]).
  - apply andb_prop in H as [_ H]. destruct cs; [reflexivity|discriminate].
  - destruct (t =? "NUM")%string.
    + apply andb_prop in H as [_ H]. destruct cs; [reflexivity|discriminate].
    + discriminate.
Qed.

(** X17: in a tree [parse] returns, every node that carries a value, that
    is every Node object (VAR, NUM, STR, OP), has no children, so that its
    [repr] raises IndexError at [self[0]]; the [repr] of the other nodes,
    the Collection objects, is the tag and the number of children. *)
Theorem repr_of_a_Node_raises_IndexError (str_float : string -> string)
  (text : string) (root e : Element) :
  parse text pattern = Ok root -> node_of e root ->
  match get_value e with
  | Some _ => Node_repr str_float e = Raise IndexError
  | None =>
      Collection_repr str_float e =
      "<" ++ tag e ++ " with " ++ str_nat (length (children e))
      ++ " children>"
  end.
Proof.
  intros H N.
  pose proof (grammatical_value e
                (grammatical_node root e N
                   (parse_grammatical text root H))) as G.
  unfold Node_repr, Collection_repr, _name.
  destruct (get_value e); [now rewrite G | reflexivity].
Qed.

Lemma repr_of_a_Node_raises_IndexError_witness :
  Node_repr (fun l => l) (Node "VAR" (VStr "a")) = Raise IndexError.
Proof.
  apply (repr_of_a_Node_raises_IndexError (fun l => l) "f(a)"
           (Collection "CALL"
              [Node "VAR" (VStr "f");
               Collection "ARGS" [Node "VAR" (VStr "a")]])
           (Node "VAR" (VStr "a"))).
  - reflexivity.
  - apply node_child with (c := Collection "ARGS" [Node "VAR" (VStr "a")]).
    + right; left; reflexivity.
    + apply node_child with (c := Node "VAR" (VStr "a")).
      * left; reflexivity.
      * apply node_self.
Defined.

(** * [main] *)

(** The five texts of [main]. *)
Definition tests : list string :=
  [ "-1+hello(" ++ chr nl ++ "    1," ++ chr nl ++ "    'w\" ++ chr dquote
    ++ "orld'," ++ chr nl ++ "    3," ++ chr nl ++ ")*2-(1+1)";
    "split(Player, '\\')[1]";
    "mapIf(['icecream', 'cake', 'soda'], length(#item)>4, upper(#item))";
    "['fruit' ->   'apple',  'vegetable' -> 'carrot']";
    "x := [y -> 2, z->3]" ].

Section Main.

Variable str_float : string -> string.

(** The loop of [main]; the result is what it prints. *)
Fixpoint run_tests (tests : list string) : result string :=
  match tests with
  | [] => Ok ""
  | test :: tests' =>
      root <- parse test pattern ;;
      formatted <- froot str_float root None ;;
      out <- run_tests tests' ;;
      Ok (chr nl ++ chr nl ++ test ++ chr nl ++ formatted ++ chr nl ++ out)
  end.

Definition main : result string := run_tests tests.

End Main.

(** X18: [main] raises no error: each of its five texts is tokenized,
    parsed and rendered in the compact mode, and every rendering is
    coloured, that is holds the escape character. *)
Theorem main_prints_five_renderings (str_float : string -> string) :
  exists out, main str_float = Ok out /\
  Forall (fun test =>
            exists root s, parse test pattern = Ok root /\
                           froot str_float root None = Ok s /\
                           In_str ESC s) tests.
Proof.
  eexists. split; [vm_compute; reflexivity|].
  repeat (apply Forall_cons; [eexists; eexists; split;
    [vm_compute; reflexivity | split; [vm_compute; reflexivity | ]]|]);
    try apply Forall_nil.
  all: vm_compute; tauto.
Qed.

(** * The lines of the compact rendering *)

Lemma inline_app (a b : string) : inline (a ++ b) = inline a && inline b.
Proof. apply forall_str_app. Qed.

Lemma inline_drop (n : nat) (s : string) :
  inline s = true -> inline (drop n s) = true.
Proof.
  revert s; induction n; intros [|c s]; cbn [drop]; auto.
  unfold inline. cbn [forall_str]. intros H. apply andb_prop in H as [_ H].
  now apply IHn.
Qed.

Lemma inline_take (n : nat) (s : string) :
  inline s = true -> inline (take n s) = true.
Proof.
  revert s; induction n; intros [|c s]; cbn [take]; auto.
  unfold inline. cbn [forall_str]. intros H. apply andb_prop in H as [-> H].
  now apply IHn.
Qed.

Lemma splitlines_from_lines :
  forall n s cur, (len s <= n)%nat -> inline cur = true ->
    Forall (fun l => inline l = true) (splitlines_from cur s).
Proof.
  induction n; intros s cur Hn Hc.
  - destruct s; [|simpl in Hn; lia]. destruct cur; simpl; auto.
  - destruct s as [|c s]; [destruct cur; simpl; auto|].
    cbn [splitlines_from]. simpl in Hn.
    destruct (code c =? 13)%nat.
    + destruct s as [|d s]; [auto|].
      destruct (code d =? 10)%nat; constructor; auto;
        apply IHn; auto; simpl in *; lia.
    + destruct (is_linebreak c) eqn:E.
      * constructor; auto. apply IHn; auto; lia.
      * apply IHn; [lia|]. rewrite inline_app, Hc. unfold inline, chr.
        cbn [forall_str]. now rewrite E.
Qed.

Definition inline_token (t : TokenInfo) : bool := inline (string_ t).

Lemma tokenize_line_inline (lineno : Z) (l : string) :
  inline l = true ->
  forall fuel i ts,
    tokenize_line fuel pattern lineno l i = Ok ts ->
    forallb inline_token ts = true.
Proof.
  intros Hl. induction fuel; intros i ts H; cbn [tokenize_line] in H;
    [discriminate|].
  destruct (pattern_match pattern l i) as [[[ty va] e]|].
  - destruct (tokenize_line fuel pattern lineno l e) as [rest| |] eqn:R;
      cbn [bind] in H; try discriminate.
    injection H as <-. cbn [forallb]. rewrite (IHfuel _ _ R), andb_true_r.
    unfold inline_token. cbn [string_].
    now apply inline_take, inline_drop.
  - destruct (i =? len l)%nat; [|discriminate]. now injection H as <-.
Qed.

Lemma tokenize_lines_inline (ls : list string) :
  Forall (fun l => inline l = true) ls ->
  forall lineno ts,
    tokenize_lines pattern lineno ls = Ok ts ->
    forallb inline_token ts = true.
Proof.
  induction 1 as [|l ls Hl _ IH]; intros lineno ts H;
    cbn [tokenize_lines] in H; [now injection H as <-|].
  destruct (tokenize_line (S (len l)) pattern lineno l 0) as [a| |] eqn:A;
    cbn [bind] in H; try discriminate.
  destruct (tokenize_lines pattern (lineno + 1) ls) as [b| |] eqn:B;
    cbn [bind] in H; try discriminate.
  injection H as <-. rewrite forallb_app.
  rewrite (tokenize_line_inline _ _ Hl _ _ _ A), (IH _ _ B). reflexivity.
Qed.

Lemma tokenize_inline (text : string) (ts : list TokenInfo) :
  tokenize text pattern = Ok ts -> forallb inline_token ts = true.
Proof.
  apply tokenize_lines_inline.
  apply (splitlines_from_lines (len text)); auto.
Qed.

(** Every string value of [el] is within one line. *)
Fixpoint leaf_inline (el : Element) : bool :=
  let 'El _ attrib children := el in
  forallb leaf_inline children &&
  match attrib with
  | Some (VStr s) => inline s
  | _ => true
  end.

Lemma inline_join (sep : string) (ss : list string) :
  inline sep = true -> forallb inline ss = true ->
  inline (join sep ss) = true.
Proof.
  intros Hsep. induction ss as [|s ss IH]; [reflexivity|].
  cbn [forallb]. intros H. apply andb_prop in H as [Hs Hss].
  destruct ss as [|s' ss']; [exact Hs|].
  change (join sep (s :: s' :: ss')) with (s ++ sep ++ join sep (s' :: ss')).
  rewrite !inline_app, Hs, Hsep, IH by exact Hss. reflexivity.
Qed.

Lemma get_from_In (l : list TokenInfo) :
  forall j j' t, get_from l j = Some (j', t) -> In t l.
Proof.
  induction l as [|a l IH]; intros j j' t H; cbn [get_from] in H;
    [discriminate|].
  destruct (is_type a "space"); [right; eauto|].
  injection H as _ <-. now left.
Qed.

Lemma skipn_In {A} (n : nat) (l : list A) (x : A) :
  In x (skipn n l) -> In x l.
Proof.
  intros H. rewrite <- (firstn_skipn n l). apply in_or_app. now right.
Qed.

Lemma firstn_In {A} (n : nat) (l : list A) (x : A) :
  In x (firstn n l) -> In x l.
Proof.
  intros H. rewrite <- (firstn_skipn n l). apply in_or_app. now left.
Qed.

Lemma slice_from_In {A} (l : list A) (i : Z) (x : A) :
  In x (slice_from l i) -> In x l.
Proof. unfold slice_from. destruct (i <? 0); apply skipn_In. Qed.

Lemma slice_In {A} (l : list A) (i j : Z) (x : A) :
  In x (slice l i j) -> In x l.
Proof.
  unfold slice. intros H. apply firstn_In in H. now apply skipn_In in H.
Qed.

Lemma get_inline (ts : list TokenInfo) (i j : Z) (t : TokenInfo) :
  forallb inline_token ts = true -> get ts i = (j, t) ->
  inline (string_ t) = true.
Proof.
  intros Hts. unfold get.
  destruct (get_from (slice_from ts i) i) as [[j0 t0]|] eqn:E.
  - intros [= <- <-]. apply get_from_In, slice_from_In in E.
    rewrite forallb_forall in Hts. apply (Hts _ E).
  - intros [= <- <-]. reflexivity.
Qed.

Lemma parse_string_from_inline (ts : list TokenInfo) (start : string)
  (i : Z) (l : list TokenInfo) :
  forallb inline_token ts = true ->
  forall j escape i' e,
    parse_string_from ts start i l j escape = Some (i', e) ->
    leaf_inline e = true.
Proof.
  intros Hts. induction l as [|t l IH]; intros j escape i' e H;
    cbn [parse_string_from] in H; [discriminate|].
  destruct escape; [eauto|].
  destruct (is_variant t start).
  - injection H as <- <-. cbn [leaf_inline Node forallb andb].
    apply inline_join; [reflexivity|].
    rewrite forallb_forall in *. intros s Hs.
    apply in_map_iff in Hs as (t' & <- & Hin).
    apply slice_In in Hin. apply (Hts _ Hin).
  - destruct (is_variant t "escape"); eauto.
Qed.

Lemma parse_string_inline (ts : list TokenInfo) (i i' : Z) (e : Element) :
  forallb inline_token ts = true ->
  parse_string ts i = Ok (Some (i', e)) -> leaf_inline e = true.
Proof.
  intros Hts. unfold parse_string.
  destruct (index ts (i - 1)) as [q|]; [|discriminate].
  intros [= H]. eapply parse_string_from_inline; eauto.
Qed.

Lemma number_leaf_inline (tag_ : string) (s : string) :
  leaf_inline (Node tag_ (number s)) = true.
Proof. unfold number. destruct (_ && _); reflexivity. Qed.

Definition inline_at (n : nat) : Prop :=
  (forall ts i i' e, parse_term n ts i = Ok (i', e) ->
     forallb inline_token ts = true -> leaf_inline e = true) /\
  (forall ts i i' c, parse_collection n ts i = Ok (i', c) ->
     forallb inline_token ts = true -> forallb leaf_inline c = true) /\
  (forall ts i a i' c, collection_loop n ts i a = Ok (i', c) ->
     forallb inline_token ts = true ->
     forallb leaf_inline a = true -> forallb leaf_inline c = true) /\
  (forall ts i i' e, parse_post_expression n ts i = Ok (i', e) ->
     forallb inline_token ts = true -> leaf_inline e = true) /\
  (forall ts i l i' e, post_loop n ts i l = Ok (i', e) ->
     forallb inline_token ts = true ->
     leaf_inline l = true -> leaf_inline e = true) /\
  (forall ts i i' e, parse_prod_expression n ts i = Ok (i', e) ->
     forallb inline_token ts = true -> leaf_inline e = true) /\
  (forall ts i l i' e, prod_loop n ts i l = Ok (i', e) ->
     forallb inline_token ts = true ->
     leaf_inline l = true -> leaf_inline e = true) /\
  (forall ts i i' e, parse_sum_expression n ts i = Ok (i', e) ->
     forallb inline_token ts = true -> leaf_inline e = true) /\
  (forall ts i l i' e, sum_loop n ts i l = Ok (i', e) ->
     forallb inline_token ts = true ->
     leaf_inline l = true -> leaf_inline e = true) /\
  (forall ts i i' e, parse_comp_expression n ts i = Ok (i', e) ->
     forallb inline_token ts = true -> leaf_inline e = true) /\
  (forall ts i l i' e, comp_loop n ts i l = Ok (i', e) ->
     forallb inline_token ts = true ->
     leaf_inline l = true -> leaf_inline e = true) /\
  (forall ts i i' e, parse_logical_expression n ts i = Ok (i', e) ->
     forallb inline_token ts = true -> leaf_inline e = true) /\
  (forall ts i l i' e, logical_loop n ts i l = Ok (i', e) ->
     forallb inline_token ts = true ->
     leaf_inline l = true -> leaf_inline e = true) /\
  (forall ts i i' e, parse_function_expression n ts i = Ok (i', e) ->
     forallb inline_token ts = true -> leaf_inline e = true).

Ltac inline_goal :=
  try assumption;
  try rewrite forallb_snoc;
  try rewrite number_leaf_inline;
  cbn [leaf_inline forallb Collection Node andb];
  repeat match goal with
         | H : ?x = true |- context [?x] =>
             lazymatch x with true => fail | _ => rewrite H end
         end;
  try reflexivity.

Ltac inline_run IH :=
  match goal with
  | G : get ?ts ?i = (?j, ?t), T : forallb inline_token ?ts = true |- _ =>
      let P := fresh "Hline" in
      assert (P := get_inline ts i j t T G);
      change (got ts i (j, t)) in G
  | H : parse_string ?ts ?i = Ok (Some (?i', ?e)),
    T : forallb inline_token ?ts = true |- _ =>
      apply (parse_string_inline ts i i' e T) in H
  | H : ?r = Ok (?i', ?v) |- _ =>
      let P := fresh "Hinline" in
      run_fact IH H P; clear H
  | P : ?A -> ?B |- _ =>
      let a := fresh in
      assert (a : A) by inline_goal;
      specialize (P a); clear a
  end.

Lemma parser_inline (n : nat) : inline_at n.
Proof.
  induction n as [|n IH].
  - repeat split; intros; discriminate.
  - unfold inline_at in IH.
    repeat split; intros;
      match goal with H : _ = Ok _ |- _ => invert_run H end.
    all: repeat inline_run IH.
    all: inline_goal.
Qed.

Lemma parse_leaf_inline (text : string) (root : Element) :
  parse text pattern = Ok root -> leaf_inline root = true.
Proof.
  unfold parse. intros H.
  destruct (tokenize text pattern) as [ts| |] eqn:T; try discriminate H.
  apply tokenize_inline in T. cbn [bind] in H.
  destruct (parse_expression (fuel_of ts) ts 0) as [[i e]| |] eqn:E;
    try discriminate H.
  injection H as <-. unfold parse_expression in E.
  pose proof (parser_inline (fuel_of ts)) as IH. unfold inline_at in IH.
  repeat invert_step E.
  all: repeat inline_run IH.
  all: inline_goal.
Qed.

Lemma uint_inline (d : uint) : inline (NilZero.string_of_uint d) = true.
Proof.
  destruct d; try reflexivity;
    apply digits_inline, (digits_of_uint (_ d)).
Qed.

Lemma str_nat_inline (n : nat) : inline (str_nat n) = true.
Proof. apply uint_inline. Qed.

Lemma str_int_inline (n : Z) : inline (str_int n) = true.
Proof.
  unfold str_int. destruct (Z.to_int n) as [d|d]; cbn [NilZero.string_of_int].
  - apply uint_inline.
  - unfold inline. cbn [forall_str]. apply uint_inline.
Qed.

Lemma style_inline (text : string) (codes : list (string * string)) :
  inline text = true -> inline (style text codes) = true.
Proof.
  intros H. unfold style, code_style, END, ansi_tag.
  rewrite !inline_app, H, str_nat_inline.
  rewrite inline_join; [reflexivity | reflexivity |].
  apply forallb_forall. intros s Hs.
  apply in_map_iff in Hs as (n & <- & _). apply str_nat_inline.
Qed.

Lemma Forall2_inline (f : Element -> result string) (cs : list Element)
  (ss : list string) :
  Forall (fun c => forall s, f c = Ok s -> inline s = true) cs ->
  Forall2 (fun c s => f c = Ok s) cs ss ->
  forallb inline ss = true.
Proof.
  intros HF H2. induction H2 as [|c s cs ss Hcs H2 IH]; [reflexivity|].
  inversion HF; subst. cbn [forallb]. rewrite IH by assumption.
  rewrite andb_true_r. auto.
Qed.

Section OneLine.

Variable str_float : string -> string.
Hypothesis str_float_inline : forall l, inline (str_float l) = true.

Lemma str_value_inline (v : option value) :
  match v with Some (VStr s) => inline s | _ => true end = true ->
  inline (str_value str_float v) = true.
Proof.
  destruct v as [[s|n|l]|]; cbn [str_value]; auto using str_int_inline.
Qed.

Lemma froot_inline (el : Element) :
  forall s, leaf_inline el = true -> froot str_float el None = Ok s ->
            inline s = true.
Proof.
  induction el as [tag_ attrib children IH] using Element_ind'.
  intros s L Hf. cbn [leaf_inline] in L. apply andb_prop in L as [Lc La].
  assert (F : Forall (fun c => forall s, froot str_float c None = Ok s ->
                                         inline s = true) children).
  { rewrite Forall_forall in *. rewrite forallb_forall in Lc.
    intros c Hin s' Hs'. apply (IH c Hin s'); auto. }
  clear IH Lc.
  simpl in Hf.
  repeat match type of Hf with
  | (if (?t =? ?x)%string then _ else _) = _ =>
      destruct (String.eqb_spec t x); [subst|]
  end;
  try discriminate.
  (* the joined tags *)
  all: try (apply bind_Ok in Hf as (ss & Hss & Hf); injection Hf as <-;
            apply for_each_inv in Hss;
            pose proof (Forall2_inline _ _ _ F Hss) as Hi;
            rewrite ?inline_app;
            rewrite inline_join by (auto; reflexivity); reflexivity).
  (* the leaves *)
  all: try (destruct attrib as [[]|]; try discriminate;
            injection Hf as <-;
            first [ exact La
                  | apply style_inline; rewrite ?inline_app; cbn [inline];
                    try rewrite La; try reflexivity;
                    apply str_value_inline; exact La ]).
  (* the tags that render their first children *)
  all: try (destruct children as [|c0 [|c1 cs]]; simpl in Hf;
    try discriminate;
    repeat match goal with
           | H : Forall _ (_ :: _) |- _ => inversion H; subst; clear H
           end;
    repeat match goal with
           | H : bind _ _ = Ok _ |- _ =>
               apply bind_Ok in H as (? & ? & H)
           end;
    try discriminate; injection Hf as <-;
    repeat match goal with
           | IHc : (forall s, froot _ ?c None = Ok s -> _),
             Hx : froot _ ?c None = Ok ?x |- _ =>
               pose proof (IHc x Hx); clear Hx
           end;
    unfold inline in *; rewrite ?forall_str_app; cbn [forall_str];
    rewrite ?forall_str_app; cbn [forall_str];
    repeat match goal with
           | H : forall_str _ ?x = true |- _ => rewrite H; clear H
           end;
    reflexivity).
  - apply bind_Ok in Hf as (ss & Hss & Hf); injection Hf as <-.
    apply for_each_inv in Hss.
    pose proof (Forall2_inline _ _ _ F Hss) as Hi.
    change (inline (String "[" (join ", " ss ++ "]")))
      with (inline (join ", " ss ++ "]")).
    rewrite inline_app, inline_join by (auto; reflexivity). reflexivity.
  - injection Hf as <-. apply style_inline, str_value_inline, La.
  - injection Hf as <-. apply style_inline, str_value_inline, La.
  - destruct attrib as [[s0|?|?]|]; try discriminate. injection Hf as <-.
    apply style_inline.
    change (inline (String "'" (s0 ++ "'"))) with (inline (s0 ++ "'")).
    rewrite inline_app, La. reflexivity.
Qed.

End OneLine.

(** X19: the compact rendering of a tree [parse] returns is within one
    line: it holds none of the characters at which [str.splitlines] breaks
    a line, whatever line breaks the text had (given that [str] of a float
    holds none). *)
Theorem compact_rendering_is_one_line (str_float : string -> string)
  (text : string) (root : Element) (s : string) :
  (forall l, inline (str_float l) = true) ->
  parse text pattern = Ok root -> froot str_float root None = Ok s ->
  inline s = true /\ splitlines s = match s with "" => [] | _ => [s] end.
Proof.
  intros Hf H R.
  assert (I : inline s = true)
    by exact (froot_inline str_float Hf root s
                (parse_leaf_inline text root H) R).
  split; [exact I|].
  unfold splitlines. rewrite splitlines_from_inline by exact I.
  cbn [append]. destruct s; reflexivity.
Qed.

Lemma compact_rendering_is_one_line_witness :
  let s := "[" ++ style "a" VAR_STYLE ++ ", " ++ style "1" NUM_STYLE ++ "]" in
  inline s = true /\ splitlines s = match s with "" => [] | _ => [s] end.
Proof.
  apply (compact_rendering_is_one_line (fun l => "0")
           ("[a," ++ chr nl ++ " 1]")
           (Collection "LIST" [Node "VAR" (VStr "a"); Node "NUM" (VInt 1)])).
  - reflexivity.
  - reflexivity.
  - reflexivity.
Defined.

(** * The operators of the trees *)

(** The variants the parser makes an OP node of, and their literals. *)
Definition op_variants : list string :=
  ["add"; "minus"; "multiply"; "divide";
   "equals"; "notEquals"; "greater"; "lesser"; "and"; "or"].

Definition op_strings : list string :=
  ["+"; "-"; "*"; "/"; "="; "!="; ">"; "<"; "&&"; "||"].

Definition op_token (t : TokenInfo) : bool :=
  if variant_in t op_variants then tag_in (string_ t) op_strings else true.

Lemma alt_match_op (s : string) g n :
  alt_match pattern s = Some (g, n) ->
  tag_in (snd g) op_variants = true ->
  tag_in (take n s) op_strings = true.
Proof.
  let p := eval cbv [pattern token_pattern tokens flat_map map Datatypes.app
                     _pattern] in pattern in
  change pattern with p.
  cbn [alt_match].
  repeat match goal with
  | |- context [match re_match ?r ?x with _ => _ end] =>
      destruct (re_match r x) eqn:?
  end;
  intros H; try discriminate H; injection H as <- <-;
    cbn [snd]; intros V; try discriminate V.
  all: match goal with
       | E : re_match (Str ?l) ?x = Some ?m |- _ =>
           let s' := fresh "s'" in
           let L := fresh "L" in
           unfold re_match in E; cbn [rmatch] in E;
           destruct (lit_match l x) as [s'|] eqn:L; [|discriminate E];
           apply lit_match_app in L; cbn [option_map] in E;
           injection E as <-; subst x; reflexivity
       end.
Qed.

Lemma tokenize_op_tokens (text : string) (ts : list TokenInfo) :
  tokenize text pattern = Ok ts -> forallb op_token ts = true.
Proof.
  intros H. apply tokenize_matched in H. apply forallb_forall.
  rewrite Forall_forall in H. intros t Hin.
  destruct (H t Hin) as (s & n & A & E).
  unfold op_token. destruct (variant_in t op_variants) eqn:V; [|reflexivity].
  rewrite E. apply (alt_match_op _ _ _ A). exact V.
Qed.

(** Every OP node of [el] holds one of the operator strings. *)
Fixpoint ops_ok (el : Element) : bool :=
  let 'El tag_ attrib children := el in
  forallb ops_ok children &&
  (if (tag_ =? "OP")%string then
     match attrib with
     | Some (VStr s) => tag_in s op_strings
     | _ => false
     end
   else true).

Lemma get_op_token (ts : list TokenInfo) (i j : Z) (t : TokenInfo) :
  forallb op_token ts = true -> get ts i = (j, t) -> op_token t = true.
Proof.
  intros Hts. unfold get.
  destruct (get_from (slice_from ts i) i) as [[j0 t0]|] eqn:E.
  - intros [= <- <-]. apply get_from_In, slice_from_In in E.
    rewrite forallb_forall in Hts. apply (Hts _ E).
  - intros [= <- <-]. reflexivity.
Qed.

Lemma op_token_string (t : TokenInfo) (l : list string) :
  op_token t = true -> variant_in t l = true ->
  forallb (fun v => tag_in v op_variants) l = true ->
  tag_in (string_ t) op_strings = true.
Proof.
  unfold op_token. intros H V L.
  replace (variant_in t op_variants) with true in H; [exact H|].
  symmetry. unfold variant_in in *.
  apply existsb_exists in V as (v & Hin & E). apply String.eqb_eq in E.
  rewrite forallb_forall in L. rewrite E. apply (L v Hin).
Qed.

Lemma parse_string_from_ops (ts : list TokenInfo) (start : string) (i : Z)
  (l : list TokenInfo) :
  forall j escape i' e,
    parse_string_from ts start i l j escape = Some (i', e) ->
    ops_ok e = true.
Proof.
  induction l as [|t l IH]; intros j escape i' e H;
    cbn [parse_string_from] in H; [discriminate|].
  destruct escape; [eauto|].
  destruct (is_variant t start); [now injection H as <- <-|].
  destruct (is_variant t "escape"); eauto.
Qed.

Lemma parse_string_ops (ts : list TokenInfo) (i i' : Z) (e : Element) :
  parse_string ts i = Ok (Some (i', e)) -> ops_ok e = true.
Proof.
  unfold parse_string.
  destruct (index ts (i - 1)) as [q|]; [|discriminate].
  intros [= H]. eapply parse_string_from_ops; eauto.
Qed.

Definition ops_at (n : nat) : Prop :=
  (forall ts i i' e, parse_term n ts i = Ok (i', e) ->
     forallb op_token ts = true -> ops_ok e = true) /\
  (forall ts i i' c, parse_collection n ts i = Ok (i', c) ->
     forallb op_token ts = true -> forallb ops_ok c = true) /\
  (forall ts i a i' c, collection_loop n ts i a = Ok (i', c) ->
     forallb op_token ts = true ->
     forallb ops_ok a = true -> forallb ops_ok c = true) /\
  (forall ts i i' e, parse_post_expression n ts i = Ok (i', e) ->
     forallb op_token ts = true -> ops_ok e = true) /\
  (forall ts i l i' e, post_loop n ts i l = Ok (i', e) ->
     forallb op_token ts = true -> ops_ok l = true -> ops_ok e = true) /\
  (forall ts i i' e, parse_prod_expression n ts i = Ok (i', e) ->
     forallb op_token ts = true -> ops_ok e = true) /\
  (forall ts i l i' e, prod_loop n ts i l = Ok (i', e) ->
     forallb op_token ts = true -> ops_ok l = true -> ops_ok e = true) /\
  (forall ts i i' e, parse_sum_expression n ts i = Ok (i', e) ->
     forallb op_token ts = true -> ops_ok e = true) /\
  (forall ts i l i' e, sum_loop n ts i l = Ok (i', e) ->
     forallb op_token ts = true -> ops_ok l = true -> ops_ok e = true) /\
  (forall ts i i' e, parse_comp_expression n ts i = Ok (i', e) ->
     forallb op_token ts = true -> ops_ok e = true) /\
  (forall ts i l i' e, comp_loop n ts i l = Ok (i', e) ->
     forallb op_token ts = true -> ops_ok l = true -> ops_ok e = true) /\
  (forall ts i i' e, parse_logical_expression n ts i = Ok (i', e) ->
     forallb op_token ts = true -> ops_ok e = true) /\
  (forall ts i l i' e, logical_loop n ts i l = Ok (i', e) ->
     forallb op_token ts = true -> ops_ok l = true -> ops_ok e = true) /\
  (forall ts i i' e, parse_function_expression n ts i = Ok (i', e) ->
     forallb op_token ts = true -> ops_ok e = true).

Ltac ops_goal :=
  try assumption;
  try rewrite forallb_snoc;
  cbn [ops_ok forallb Collection Node andb String.eqb Ascii.eqb Bool.eqb];
  repeat match goal with
         | H : ?x = true |- context [?x] =>
             lazymatch x with true => fail | _ => rewrite H end
         end;
  try reflexivity.

Ltac ops_run IH :=
  match goal with
  | G : get ?ts ?i = (?j, ?t), T : forallb op_token ?ts = true |- _ =>
      let P := fresh "Hop" in
      assert (P := get_op_token ts i j t T G);
      change (got ts i (j, t)) in G
  | P : op_token ?t = true, V : variant_in ?t ?l = true |- _ =>
      apply (fun H => op_token_string t l H V eq_refl) in P
  | H : parse_string ?ts ?i = Ok (Some (?i', ?e)) |- _ =>
      apply (parse_string_ops ts i i' e) in H
  | H : ?r = Ok (?i', ?v) |- _ =>
      let P := fresh "Hops" in
      run_fact IH H P; clear H
  | P : ?A -> ?B |- _ =>
      let a := fresh in
      assert (a : A) by ops_goal;
      specialize (P a); clear a
  end.

Lemma parser_ops (n : nat) : ops_at n.
Proof.
  induction n as [|n IH].
  - repeat split; intros; discriminate.
  - unfold ops_at in IH.
    repeat split; intros;
      match goal with H : _ = Ok _ |- _ => invert_run H end.
    all: repeat ops_run IH.
    all: ops_goal.
Qed.

Lemma parse_ops (text : string) (root : Element) :
  parse text pattern = Ok root -> ops_ok root = true.
Proof.
  unfold parse. intros H.
  destruct (tokenize text pattern) as [ts| |] eqn:T; try discriminate H.
  apply tokenize_op_tokens in T. cbn [bind] in H.
  destruct (parse_expression (fuel_of ts) ts 0) as [[i e]| |] eqn:E;
    try discriminate H.
  injection H as <-. unfold parse_expression in E.
  pose proof (parser_ops (fuel_of ts)) as IH. unfold ops_at in IH.
  repeat invert_step E.
  all: repeat ops_run IH.
  all: ops_goal.
Qed.

Lemma ops_ok_node (root e : Element) :
  node_of e root -> ops_ok root = true -> ops_ok e = true.
Proof.
  induction 1 as [|root c Hin _ IH]; auto.
  intros H. apply IH. destruct root as [t a cs]. cbn [ops_ok] in H.
  apply andb_prop in H as [H _]. rewrite forallb_forall in H. auto.
Qed.

(** X20: in a tree [parse] returns, every OP node holds one of the ten
    operator strings the parser knows; the other operators of the table,
    such as the percent sign, the circumflex and the comparisons of two
    characters, never make an OP node. *)
Theorem OP_nodes_hold_parsed_operators (text : string) (root e : Element) :
  parse text pattern = Ok root -> node_of e root -> tag e = "OP" ->
  exists s, get_value e = Some (VStr s) /\
            In s ["+"; "-"; "*"; "/"; "="; "!="; ">"; "<"; "&&"; "||"].
Proof.
  intros H N T.
  pose proof (ops_ok_node root e N (parse_ops text root H)) as O.
  destruct e as [t a cs]. cbn [tag] in T. subst t. cbn [ops_ok] in O.
  apply andb_prop in O as [_ O]. cbn [String.eqb Ascii.eqb Bool.eqb] in O.
  destruct a as [[s| |]|]; try discriminate O.
  exists s. split; [reflexivity|].
  unfold tag_in, op_strings in O. apply existsb_exists in O as (x & Hin & E).
  apply String.eqb_eq in E. now subst x.
Qed.

Lemma OP_nodes_hold_parsed_operators_witness :
  exists s, get_value (Node "OP" (VStr "!=")) = Some (VStr s) /\
            In s ["+"; "-"; "*"; "/"; "="; "!="; ">"; "<"; "&&"; "||"].
Proof.
  apply (OP_nodes_hold_parsed_operators "a != b"
           (Collection "COMPARE"
              [Node "VAR" (VStr "a"); Node "OP" (VStr "!=");
               Node "VAR" (VStr "b")])).
  - reflexivity.
  - apply node_child with (c := Node "OP" (VStr "!=")).
    + right; left; reflexivity.
    + apply node_self.
  - reflexivity.
Defined.

